(** * contact_crawler: a shallow embedding of [src/contact_crawler.py]

    The Python module extracts social links, e-mail addresses, phone numbers
    and name candidates from a BeautifulSoup tree.  This development embeds
    the module function by function and proves properties of the embedding.

    Modelling conventions.
    - A Python [str] is a list of Unicode code points ([list N]).
    - A BeautifulSoup tree is a [node]: a [Tag] with a name, an attribute
      dictionary and an ordered list of children, a [NavigableString] or a
      [Comment].  The soup object itself is the root [Tag] named
      ["[document]"].  A node met during a traversal is a [loc]: the node
      together with the chain of its ancestors (what [.parent] and
      [.parents] walk through).
    - [_visible_texts] removes nodes from the soup it is given.  Functions
      that call it take the soup and return the soup they leave behind.
    - Confidence values are the float literals of the source counted in
      hundredths ([0.9] is [90]); the only arithmetic on them,
      [min(0.95, base + 0.25)], is exact on these values.
    - What the module imports from outside the repository and what depends
      on the Unicode database ([str.lower], the class [\d], [urljoin], the
      [phonenumbers] package) is an interface, [PyRuntime].
    - A call that may raise returns a [Result].  The exceptions of
      [phonenumbers] are caught in [_normalize_phone]; one of [urljoin]
      leaves [extract_socials] and [crawl_url] and is caught in [main]. *)

From Stdlib Require Import String Ascii.
From Stdlib Require Import List NArith ZArith Bool Arith Lia.
From Stdlib Require Import Sorting.Sorted Sorting.Permutation.
Import ListNotations.

Set Implicit Arguments.

(* ================================================================= *)
(** ** Python strings *)

Module Py.

Definition char := N.
Definition str := list char.

Bind Scope N_scope with char.

(** [py "abc"] is the Python literal ['abc']. *)
Definition py (s : string) : str := map N_of_ascii (list_ascii_of_string s).

Definition ch (a : ascii) : char := N_of_ascii a.

Definition str_eqb (a b : str) : bool :=
  if list_eq_dec N.eq_dec a b then true else false.

(** [x in l] for a list or a set of strings. *)
Definition mem (x : str) (l : list str) : bool := existsb (str_eqb x) l.

(** [s.startswith(p)]. *)
Fixpoint startswith (p s : str) : bool :=
  match p, s with
  | [], _ => true
  | _ :: _, [] => false
  | a :: p', b :: s' => N.eqb a b && startswith p' s'
  end.

(** [p in s] for strings: [p] occurs in [s] as a substring. *)
Fixpoint contains (p s : str) : bool :=
  startswith p s || match s with [] => false | _ :: s' => contains p s' end.

(** [s.replace(c, '')] for a one-character [c]. *)
Definition replace_by_empty (c : char) (s : str) : str :=
  filter (fun x => negb (N.eqb x c)) s.

(** [Py_UNICODE_ISSPACE]: the characters [str.strip], [str.split] and the
    regular-expression class [\s] treat as white space. *)
Definition isspace (c : char) : bool :=
  ((9 <=? c) && (c <=? 13) || (28 <=? c) && (c <=? 32) || (c =? 133)
   || (c =? 160) || (c =? 5760) || (8192 <=? c) && (c <=? 8202)
   || (c =? 8232) || (c =? 8233) || (c =? 8239) || (c =? 8287)
   || (c =? 12288))%N.

Fixpoint lstrip (s : str) : str :=
  match s with
  | c :: s' => if isspace c then lstrip s' else s
  | [] => []
  end.

Definition rstrip (s : str) : str := rev (lstrip (rev s)).

(** [s.strip()]. *)
Definition strip (s : str) : str := lstrip (rstrip s).

(** [s.split(sep)] for a one-character separator; [cur] holds the part
    being read, reversed. *)
Fixpoint split_on_aux (sep : char) (s cur : str) : list str :=
  match s with
  | [] => [rev cur]
  | c :: s' =>
      if N.eqb c sep then rev cur :: split_on_aux sep s' []
      else split_on_aux sep s' (c :: cur)
  end.

Definition split_on (sep : char) (s : str) : list str := split_on_aux sep s [].

(** [s.split(sep, 1)]. *)
Fixpoint split_once_aux (sep : char) (s cur : str) : list str :=
  match s with
  | [] => [rev cur]
  | c :: s' =>
      if N.eqb c sep then [rev cur; s'] else split_once_aux sep s' (c :: cur)
  end.

Definition split_once (sep : char) (s : str) : list str :=
  split_once_aux sep s [].

(** [s.split()]: the maximal runs of non-space characters. *)
Fixpoint split_ws_aux (s cur : str) : list str :=
  match s with
  | [] => match cur with [] => [] | _ => [rev cur] end
  | c :: s' =>
      if isspace c
      then match cur with
           | [] => split_ws_aux s' []
           | _ => rev cur :: split_ws_aux s' []
           end
      else split_ws_aux s' (c :: cur)
  end.

Definition split_ws (s : str) : list str := split_ws_aux s [].

(** [sep.join(parts)]. *)
Fixpoint join (sep : str) (parts : list str) : str :=
  match parts with
  | [] => []
  | [p] => p
  | p :: ps => p ++ sep ++ join sep ps
  end.

(** Comparison of strings, code point by code point ([a < b], [a <= b]). *)
Fixpoint str_ltb (a b : str) : bool :=
  match a, b with
  | _, [] => false
  | [], _ :: _ => true
  | x :: a', y :: b' => N.ltb x y || N.eqb x y && str_ltb a' b'
  end.

Definition str_leb (a b : str) : bool := negb (str_ltb b a).

(** [sorted(l)] on strings. *)
Fixpoint insert_str (x : str) (l : list str) : list str :=
  match l with
  | [] => [x]
  | y :: l' => if str_ltb y x then y :: insert_str x l' else x :: l
  end.

Fixpoint sorted_str (l : list str) : list str :=
  match l with
  | [] => []
  | x :: l' => insert_str x (sorted_str l')
  end.

(** [set.add]: a set of strings is a list without repetition. *)
Definition set_add (x : str) (s : list str) : list str :=
  if mem x s then s else s ++ [x].

(** Outcome of a call that may raise. *)
Inductive Result (A : Type) : Type :=
| Return (a : A)
| Raise (e : str).

Arguments Return {A} a.
Arguments Raise {A} e.

Definition bind {A B} (m : Result A) (f : A -> Result B) : Result B :=
  match m with
  | Return a => f a
  | Raise e => Raise e
  end.

(** [try: body / except Exception: pass], followed by [rest]: the value the
    body returned, or what the statements after the handler compute when
    the body raised or ran to its end without returning. *)
Definition try_except_pass {A} (body : Result (option A)) (rest : Result A)
  : Result A :=
  match body with
  | Return (Some a) => Return a
  | Return None => rest
  | Raise _ => rest
  end.

End Py.

Export Py.

Notation "x <- m ;; f" := (bind m (fun x => f))
  (at level 61, m at next level, right associativity).

(** A [for] loop over [l] whose body may raise and otherwise appends to
    one list: the list after the last turn, or the exception of the first
    turn that raised. *)
Fixpoint collect {A B} (body : A -> Result (list B)) (l : list A)
  : Result (list B) :=
  match l with
  | [] => Return []
  | x :: l' =>
      ys <- body x ;;
      zs <- collect body l' ;;
      Return (ys ++ zs)
  end.

(* ================================================================= *)
(** ** The interface to Python's libraries *)

(** Everything the module calls that is neither in the repository nor a
    plain string operation.  [lower] is [str.lower]; [isdecimal] is the
    class [\d] of a [str] pattern; [sre_lower] is the one-character lower
    case the [re.I] flag compares with.  [urljoin] raises [ValueError] on
    an href it cannot split, and the three [phonenumbers] calls may raise
    as well. *)
Class PyRuntime : Type := {
  lower : str -> str;
  isdecimal : char -> bool;
  sre_lower : char -> char;
  urljoin : str -> str -> Result str;
  PhoneNumber : Type;
  phonenumbers_parse : str -> option str -> Result PhoneNumber;
  is_possible_number : PhoneNumber -> Result bool;
  format_number_E164 : PhoneNumber -> Result str;
  (** Only a colon lower-cases to a colon, and no space is a digit. *)
  lower_colon : forall s, In (ch ":") (lower s) -> In (ch ":") s;
  space_not_decimal : forall c, isspace c = true -> isdecimal c = false
}.

(* ================================================================= *)
(** ** Regular expressions *)

Module Re.

(** The fragment of [re] syntax the module's patterns use: a character
    class repeated greedily between [lo] and [hi] times, concatenation and
    a greedy optional group. *)
Inductive re : Type :=
| Rep (cls : char -> bool) (lo : nat) (hi : option nat)
| Seq (a b : re)
| Opt (a : re).

Fixpoint run_length (cls : char -> bool) (s : str) : nat :=
  match s with
  | c :: s' => if cls c then S (run_length cls s') else 0
  | [] => 0
  end.

(** The suffixes left after [cls{lo,hi}], longest repetition first. *)
Definition rep_alts (cls : char -> bool) (lo : nat) (hi : option nat) (s : str)
  : list str :=
  let run := run_length cls s in
  let m := match hi with Some h => Nat.min h run | None => run end in
  map (fun n => skipn n s) (rev (seq lo (m + 1 - lo))).

(** All the ways the pattern matches a prefix of [s], as the suffixes
    left over, in the order a backtracking matcher tries them. *)
Fixpoint alts (r : re) (s : str) : list str :=
  match r with
  | Rep cls lo hi => rep_alts cls lo hi s
  | Seq a b => flat_map (alts b) (alts a s)
  | Opt a => alts a s ++ [s]
  end.

(** [pattern.match(s).group(0)], or [None]. *)
Definition re_match (r : re) (s : str) : option str :=
  match alts r s with
  | rest :: _ => Some (firstn (length s - length rest) s)
  | [] => None
  end.

(** [pattern.search(s).group(0)], or [None]. *)
Fixpoint re_search (r : re) (s : str) : option str :=
  match re_match r s with
  | Some m => Some m
  | None => match s with [] => None | _ :: s' => re_search r s' end
  end.

(** [pattern.findall(s)] as the list of the whole matches, left to right
    and not overlapping; [skip] counts the characters of the last match
    still to pass.  None of the module's patterns matches the empty
    string. *)
Fixpoint findall_aux (r : re) (s : str) (skip : nat) : list str :=
  match s with
  | [] => []
  | _ :: s' =>
      match skip with
      | S k => findall_aux r s' k
      | O =>
          match re_match r s with
          | Some m => m :: findall_aux r s' (length m - 1)
          | None => findall_aux r s' 0
          end
      end
  end.

Definition findall (r : re) (s : str) : list str := findall_aux r s 0.

(** [re.split(pattern, s)] for a pattern without capturing groups. *)
Fixpoint re_split_aux (r : re) (s : str) (skip : nat) (cur : str) : list str :=
  match s with
  | [] => [rev cur]
  | c :: s' =>
      match skip with
      | S k => re_split_aux r s' k cur
      | O =>
          match re_match r s with
          | Some ((_ :: _) as m) => rev cur :: re_split_aux r s' (length m - 1) []
          | _ => re_split_aux r s' 0 (c :: cur)
          end
      end
  end.

Definition re_split (r : re) (s : str) : list str := re_split_aux r s 0 [].

End Re.

Export Re.

(* ================================================================= *)
(** ** The document tree *)

Module Soup.

#[local] Set Warnings "-register-all".

Inductive node : Type :=
| Tag (name : str) (attrs : list (str * str)) (contents : list node)
| NavigableString (s : str)
| Comment (s : str).

(** A node where a traversal found it: [parents] lists its ancestors, the
    nearest first and the soup object last. *)
Record loc : Type := { here : node; parents : list node }.

Definition attrs_of (n : node) : list (str * str) :=
  match n with Tag _ a _ => a | _ => [] end.

Definition is_tag (n : node) : bool :=
  match n with Tag _ _ _ => true | _ => false end.

(** [el.name == nm]. *)
Definition named (nm : str) (n : node) : bool :=
  match n with Tag x _ _ => str_eqb x nm | _ => false end.

(** [el.name in names]. *)
Definition named_in (names : list str) (n : node) : bool :=
  match n with Tag x _ _ => mem x names | _ => false end.

Fixpoint lookup (k : str) (d : list (str * str)) : option str :=
  match d with
  | [] => None
  | (k', v) :: d' => if str_eqb k' k then Some v else lookup k d'
  end.

(** [el.get(k)], [el.get(k, '')] and [el.has_attr(k)]. *)
Definition get (n : node) (k : str) : option str := lookup k (attrs_of n).

Definition get_or_empty (n : node) (k : str) : str :=
  match get n k with Some v => v | None => [] end.

Definition has_attr (n : node) (k : str) : bool :=
  match get n k with Some _ => true | None => false end.

(** [el.parent]. *)
Definition parent (l : loc) : option loc :=
  match parents l with
  | p :: ps => Some {| here := p; parents := ps |}
  | [] => None
  end.

(** [el.descendants]: every node below [n], in document order. *)
Fixpoint descendants_from (ps : list node) (n : node) : list loc :=
  match n with
  | Tag _ _ cs =>
      flat_map (fun c => {| here := c; parents := n :: ps |}
                           :: descendants_from (n :: ps) c) cs
  | _ => []
  end.

Definition descendants (soup : node) : list loc := descendants_from [] soup.

(** [soup.find_all(nm)], [soup(names)], [soup.find_all(text=True)] and
    [soup.find_all(text=lambda t: isinstance(t, Comment))]. *)
Definition find_all (nm : str) (soup : node) : list loc :=
  filter (fun l => named nm (here l)) (descendants soup).

Definition find_all_in (names : list str) (soup : node) : list loc :=
  filter (fun l => named_in names (here l)) (descendants soup).

Definition find_all_text (soup : node) : list loc :=
  filter (fun l => negb (is_tag (here l))) (descendants soup).

Definition is_comment (n : node) : bool :=
  match n with Comment _ => true | _ => false end.

Definition find_all_comments (soup : node) : list loc :=
  filter (fun l => is_comment (here l)) (descendants soup).

(** [soup.find_all(attrs={k: pred})]: the tags that carry attribute [k]
    with a value [pred] accepts. *)
Definition find_all_attr (k : str) (pred : str -> bool) (soup : node)
  : list loc :=
  filter (fun l => match get (here l) k with
                   | Some v => is_tag (here l) && pred v
                   | None => false
                   end) (descendants soup).

(** [soup.find(nm, attrs={k: v})]. *)
Definition find_with_attr (nm k v : str) (soup : node) : option loc :=
  hd_error (filter (fun l => named nm (here l)
                             && match get (here l) k with
                                | Some x => str_eqb x v
                                | None => false
                                end) (descendants soup)).

(** [el.string]: a string is its own [.string]; a tag with exactly one
    child has the [.string] of that child, any other tag has none. *)
Fixpoint node_string (n : node) : option str :=
  match n with
  | NavigableString s => Some s
  | Comment s => Some s
  | Tag _ _ [c] => node_string c
  | Tag _ _ _ => None
  end.

(** The tags whose strings the HTML tree builder gives a class of their
    own ([RubyTextString], [RubyParenthesisString], [Stylesheet], [Script]
    and [TemplateString]). *)
Definition STRING_CONTAINERS : list str :=
  [py "rt"; py "rp"; py "style"; py "script"; py "template"].

(** The class of a string whose ancestors are [ps]: that of the nearest
    string container around it, [None] for a plain [NavigableString]. *)
Fixpoint string_class (ps : list node) : option str :=
  match ps with
  | [] => None
  | Tag nm _ _ :: ps' =>
      if mem nm STRING_CONTAINERS then Some nm else string_class ps'
  | _ :: ps' => string_class ps'
  end.

(** [el.interesting_string_types]: the class of the strings [get_text]
    reads below [el], that of [el] when it is a string container and the
    plain one when it is not. *)
Definition interesting_string_types (el : node) : option str :=
  match el with
  | Tag nm _ _ => if mem nm STRING_CONTAINERS then Some nm else None
  | _ => None
  end.

Definition same_class (a b : option str) : bool :=
  match a, b with
  | None, None => true
  | Some x, Some y => str_eqb x y
  | _, _ => false
  end.

(** [el.get_text(separator=' ', strip=True)]: the strings below [el] of
    the class [el] reads (so no comment, and below an ordinary tag no
    string of a script, style, template, rt or rp element), each stripped,
    the empty ones left out. *)
Definition get_text (l : loc) : str :=
  join (py " ")
    (filter (fun s => negb (str_eqb s []))
       (flat_map (fun d => match here d with
                           | NavigableString s =>
                               if same_class (string_class (parents d))
                                    (interesting_string_types (here l))
                               then [strip s] else []
                           | _ => []
                           end)
          (descendants_from (parents l) (here l)))).

(** Equality of attribute dictionaries. *)
Definition dict_incl (d1 d2 : list (str * str)) : bool :=
  forallb (fun kv => match lookup (fst kv) d1, lookup (fst kv) d2 with
                     | Some v1, Some v2 => str_eqb v1 v2
                     | _, _ => false
                     end) d1.

Definition dict_eqb (d1 d2 : list (str * str)) : bool :=
  dict_incl d1 d2 && dict_incl d2 d1.

(** [a == b] on nodes, as [Tag.__eq__] and [str.__eq__] decide it: two
    tags are equal when their names, attribute dictionaries and children
    are; two strings when their text is. *)
Fixpoint node_eqb (a b : node) : bool :=
  match a, b with
  | Tag n1 a1 c1, Tag n2 a2 c2 =>
      str_eqb n1 n2 && dict_eqb a1 a2
      && (fix all2 (l1 l2 : list node) : bool :=
            match l1, l2 with
            | [], [] => true
            | x :: l1', y :: l2' => node_eqb x y && all2 l1' l2'
            | _, _ => false
            end) c1 c2
  | NavigableString s1, NavigableString s2 => str_eqb s1 s2
  | NavigableString s1, Comment s2 => str_eqb s1 s2
  | Comment s1, NavigableString s2 => str_eqb s1 s2
  | Comment s1, Comment s2 => str_eqb s1 s2
  | _, _ => false
  end.

(** Two nodes a [set] holds as one element: equal and with the same hash,
    which for a tag is the hash of its rendering. *)
Fixpoint attrs_same (a b : list (str * str)) : bool :=
  match a, b with
  | [], [] => true
  | (k1, v1) :: a', (k2, v2) :: b' =>
      str_eqb k1 k2 && str_eqb v1 v2 && attrs_same a' b'
  | _, _ => false
  end.

Fixpoint node_same (a b : node) : bool :=
  match a, b with
  | Tag n1 a1 c1, Tag n2 a2 c2 =>
      str_eqb n1 n2 && attrs_same a1 a2
      && (fix all2 (l1 l2 : list node) : bool :=
            match l1, l2 with
            | [], [] => true
            | x :: l1', y :: l2' => node_same x y && all2 l1' l2'
            | _, _ => false
            end) c1 c2
  | NavigableString s1, NavigableString s2 => str_eqb s1 s2
  | Comment s1, Comment s2 => str_eqb s1 s2
  | _, _ => false
  end.

(** [s.extract()] for every [s] in [soup(names)]: the tags named in
    [names] leave the tree with all they contain. *)
Fixpoint extract_tags (names : list str) (n : node) : node :=
  match n with
  | Tag nm a cs =>
      Tag nm a
        (flat_map (fun c => if named_in names c then []
                            else [extract_tags names c]) cs)
  | _ => n
  end.

(** [c.extract()] for every comment [c] of the tree. *)
Fixpoint extract_comments (n : node) : node :=
  match n with
  | Tag nm a cs =>
      Tag nm a
        (flat_map (fun c => if is_comment c then []
                            else [extract_comments c]) cs)
  | _ => n
  end.

End Soup.

Export Soup.

(* ================================================================= *)
(** ** The module [contact_crawler] *)

Record Phone : Type := { original : str; normalized : str }.

Record NameCandidate : Type :=
  { name : str; confidence : Z; reason : str }.

Record CrawlResult : Type := {
  url : str;
  socials : list str;
  emails : list str;
  phones : list Phone;
  name_candidates : list NameCandidate;
  notes : list str
}.

Definition SOCIAL_DOMAINS : list str :=
  [py "linkedin.com"; py "facebook.com"; py "instagram.com";
   py "twitter.com"; py "x.com"; py "youtube.com"; py "github.com";
   py "behance.net"; py "t.me"; py "wa.me"].

Definition in_range (lo hi c : char) : bool := (N.leb lo c && N.leb c hi)%bool.

(** [[a-zA-Z0-9]]. *)
Definition ascii_alnum (c : char) : bool :=
  in_range 97 122 c || in_range 65 90 c || in_range 48 57 c.

Definition one_of (cs : str) (c : char) : bool := existsb (N.eqb c) cs.

(** A pattern that is one literal character. *)
Definition lit (a : ascii) : re := Rep (N.eqb (ch a)) 1 (Some 1).

(** [[a-zA-Z0-9_.+-]+@[a-zA-Z0-9-]+\.[a-zA-Z0-9-.]+] *)
Definition EMAIL_RE : re :=
  Seq (Rep (fun c => ascii_alnum c || one_of (py "_.+-") c) 1 None)
 (Seq (lit "@")
 (Seq (Rep (fun c => ascii_alnum c || one_of (py "-") c) 1 None)
 (Seq (lit ".")
      (Rep (fun c => ascii_alnum c || one_of (py "-.") c) 1 None)))).

(** The separators of the title: [|], [-], en dash and em dash. *)
Definition title_sep (c : char) : bool :=
  N.eqb c (ch "|") || N.eqb c (ch "-") || N.eqb c 8211 || N.eqb c 8212.

(** [[|\-–—]\s*] *)
Definition TITLE_SPLIT_RE : re := Seq (Rep title_sep 1 (Some 1)) (Rep isspace 0 None).

Section Crawler.

Context `{PyRuntime}.

(** [[\s\-\.]] and [[\d\s\-\.]]. *)
Definition phone_sep (c : char) : bool := isspace c || one_of (py "-.") c.

Definition phone_body (c : char) : bool := isdecimal c || phone_sep c.

(** The phone pattern, in three parts: the optional capturing group
    [\+\d{1,3}[\s\-\.]*], the optional group [\(?\d{2,4}\)?[\s\-\.]*]
    and [\d[\d\s\-\.]{6,20}\d]. *)
Definition PHONE_RE : re :=
  Seq (Opt (Seq (lit "+") (Seq (Rep isdecimal 1 (Some 3)) (Rep phone_sep 0 None))))
 (Seq (Opt (Seq (Rep (N.eqb (ch "(")) 0 (Some 1))
           (Seq (Rep isdecimal 2 (Some 4))
           (Seq (Rep (N.eqb (ch ")")) 0 (Some 1))
                (Rep phone_sep 0 None)))))
 (Seq (Rep isdecimal 1 (Some 1))
 (Seq (Rep phone_body 6 (Some 20))
      (Rep isdecimal 1 (Some 1))))).

(** [re.sub(r"\D", "", s)]. *)
Definition digits_only (s : str) : str := filter isdecimal s.

(** ['display:none' in style.replace(' ', '').lower()] for the [style]
    attribute of [el], the empty string when it has none. *)
Definition style_hides (el : node) : bool :=
  contains (py "display:none")
    (lower (replace_by_empty (ch " ") (get_or_empty el (py "style")))).

Definition aria_hidden (el : node) : bool :=
  match get el (py "aria-hidden") with
  | Some v => str_eqb v (py "true")
  | None => false
  end.

(** [_is_hidden(elem)].  The loop over [elem.parents] returns at the first
    ancestor that is a template or carries one of the three marks; the
    statements after the loop look at the three marks of [elem] itself. *)
Definition _is_hidden (elem : option loc) : bool :=
  match elem with
  | None => false
  | Some e =>
      if existsb (fun el => named (py "template") el
                            || style_hides el
                            || aria_hidden el
                            || has_attr el (py "hidden")) (parents e)
      then true
      else if style_hides (here e) then true
      else if aria_hidden (here e) then true
      else if has_attr (here e) (py "hidden") then true
      else false
  end.

(** The body of the loop of [_visible_texts] over [soup.find_all(text=True)]:
    the fragment [elem] contributes, if any. *)
Definition visible_fragment (elem : loc) : list (option loc * str) :=
  let parent := parent elem in
  if match parent with
     | Some p => named_in [py "script"; py "style"; py "template"] (here p)
     | None => false
     end then []
  else match node_string (here elem) with
       | None => []
       | Some [] => []
       | Some txt =>
           let txt := strip txt in
           match txt with
           | [] => []
           | _ => if _is_hidden parent then [] else [(parent, txt)]
           end
       end.

(** [_visible_texts(soup)]: the fragments, and the soup as the two
    removal loops leave it. *)
Definition _visible_texts (soup : node) : list (option loc * str) * node :=
  let soup := extract_tags [py "script"; py "style"; py "noscript"; py "iframe"] soup in
  let soup := extract_comments soup in
  (flat_map visible_fragment (find_all_text soup), soup).

(** The loop of [extract_socials] over [SOCIAL_DOMAINS] for one anchor:
    [continue] goes on to the next domain, [break] leaves with [full]
    appended. *)
Fixpoint scan_domains (doms : list str) (href_lower full : str) : list str :=
  match doms with
  | [] => []
  | dom :: rest =>
      if contains dom href_lower then
        if startswith (py "javascript:") href_lower
        then scan_domains rest href_lower full
        else [full]
      else scan_domains rest href_lower full
  end.

(** The body of the first loop of [extract_socials]: what one anchor
    appends to [found], or the exception of [urljoin], which is called
    for every anchor with an href before any domain is looked for. *)
Definition social_of (base_url : str) (a : loc) : Result (list str) :=
  match get (here a) (py "href") with
  | None => Return []
  | Some [] => Return []
  | Some href =>
      let href_lower := lower href in
      full <- urljoin base_url href ;;
      Return (scan_domains SOCIAL_DOMAINS href_lower full)
  end.

(** The second loop of [extract_socials]: [seen] and [out] after [found]
    has been read. *)
Fixpoint dedupe (found seen out : list str) : list str :=
  match found with
  | [] => out
  | u :: rest =>
      if mem u seen then dedupe rest seen out
      else dedupe rest (u :: seen) (out ++ [u])
  end.

Definition extract_socials (soup : node) (base_url : str)
  : Result (list str) :=
  found <- collect (social_of base_url) (find_all (py "a") soup) ;;
  Return (dedupe found [] []).

(** [href.split(':', 1)[1].split('?')[0]].  Where the module evaluates
    it the href holds a colon and both indices are in range
    ([scheme_split_in_range] below). *)
Definition after_scheme (href : str) : str :=
  nth 0 (split_on (ch "?") (nth 1 (split_once (ch ":") href) [])) [].

(** The first loop of [extract_emails]: the set after one more anchor. *)
Definition mailto_step (emails : list str) (a : loc) : list str :=
  let href := get_or_empty (here a) (py "href") in
  if startswith (py "mailto:") (lower href) then
    let addr := strip (after_scheme href) in
    match re_match EMAIL_RE addr with
    | Some _ => if negb (_is_hidden (Some a)) then set_add addr emails
                else emails
    | None => emails
    end
  else emails.

Definition extract_emails (soup : node) : list str * node :=
  let emails := fold_left mailto_step (find_all (py "a") soup) [] in
  let '(texts, soup) := _visible_texts soup in
  let emails :=
    fold_left (fun emails pt =>
                 fold_left (fun emails m => set_add m emails)
                   (findall EMAIL_RE (snd pt)) emails)
      texts emails in
  (sorted_str emails, soup).

(** The call of [phonenumbers.parse] in [_normalize_phone]: without a
    region when [s] starts with a plus sign, with the region ['IN']
    otherwise. *)
Definition parse_number (s : str) : Result PhoneNumber :=
  if startswith (py "+") s
  then phonenumbers_parse s None
  else phonenumbers_parse s (Some (py "IN")).

(** [_normalize_phone(num_str)]. *)
Definition _normalize_phone (num_str : str) : Result str :=
  let s := strip num_str in
  try_except_pass
    (parsed <- parse_number s ;;
     possible <- is_possible_number parsed ;;
     if possible
     then e164 <- format_number_E164 parsed ;; Return (Some e164)
     else Return None)
    (let digits := digits_only s in Return digits).

(** The value a call of [_normalize_phone] hands back to its caller; the
    call always returns ([normalize_phone_returns] below). *)
Definition returned (r : Result str) : str :=
  match r with Return v => v | Raise _ => [] end.

(** The state of [extract_phones]: the list [phones] and the set [seen]. *)
Definition phone_state : Type := (list Phone * list str)%type.

(** The first loop of [extract_phones], over the anchors. *)
Definition tel_step (st : phone_state) (a : loc) : phone_state :=
  let '(phones, seen) := st in
  let href := get_or_empty (here a) (py "href") in
  if startswith (py "tel:") (lower href) then
    let num := after_scheme href in
    if _is_hidden (Some a) then st
    else
      let norm := returned (_normalize_phone num) in
      if negb (mem num seen)
      then (phones ++ [{| original := num; normalized := norm |}], num :: seen)
      else st
  else st.

(** The body of the inner loop of the second loop: [m] is not read, the
    pattern is searched again in [txt]. *)
Definition text_phone_step (parent : option loc) (txt : str)
    (st : phone_state) (m : str) : phone_state :=
  let '(phones, seen) := st in
  match re_search PHONE_RE txt with
  | None => st
  | Some whole =>
      let num := strip whole in
      if (length (digits_only num) <? 7)%nat then st
      else if mem num seen then st
      else if _is_hidden parent then st
      else
        let norm := returned (_normalize_phone num) in
        (phones ++ [{| original := num; normalized := norm |}], num :: seen)
  end.

Definition text_step (st : phone_state) (pt : option loc * str) : phone_state :=
  fold_left (text_phone_step (fst pt) (snd pt)) (findall PHONE_RE (snd pt)) st.

Definition extract_phones (soup : node) : list Phone * node :=
  let st := fold_left tel_step (find_all (py "a") soup) ([], []) in
  let '(texts, soup) := _visible_texts soup in
  let st := fold_left text_step texts st in
  (fst st, soup).

(** [add_candidate(name, confidence, reason)]. *)
Definition add_candidate (candidates : list NameCandidate)
    (nm : str) (conf : Z) (why : str) : list NameCandidate :=
  candidates ++ [{| name := strip nm; confidence := conf; reason := why |}].

(** Pass 1 of [extract_name_candidates]: the author named in a [meta]. *)
Definition pass_meta (soup : node) (candidates : list NameCandidate)
  : list NameCandidate :=
  match find_with_attr (py "meta") (py "name") (py "author") soup with
  | Some ma =>
      match get (here ma) (py "content") with
      | Some ((_ :: _) as content) =>
          add_candidate candidates content 90 (py "meta[name=author]")
      | _ => candidates
      end
  | None => candidates
  end.

(** [soup.title.string if soup.title and soup.title.string else None]. *)
Definition title_string (soup : node) : option str :=
  match hd_error (find_all (py "title") soup) with
  | Some t =>
      match node_string (here t) with
      | Some ((_ :: _) as s) => Some s
      | _ => None
      end
  | None => None
  end.

(** Pass 2: the first part of the title. *)
Definition pass_title (soup : node) (candidates : list NameCandidate)
  : list NameCandidate :=
  match title_string soup with
  | Some title =>
      match re_split TITLE_SPLIT_RE title with
      | part0 :: _ => add_candidate candidates part0 50 (py "title (first part)")
      | [] => candidates
      end
  | None => candidates
  end.

(** [contact_nodes.add(a.parent)]. *)
Definition add_node (nodes : list loc) (n : option loc) : list loc :=
  match n with
  | Some p => if existsb (fun q => node_same (here q) (here p)) nodes
              then nodes else nodes ++ [p]
  | None => nodes
  end.

Definition contact_nodes (soup : node) : list loc :=
  fold_left (fun nodes a =>
               let href := get_or_empty (here a) (py "href") in
               if startswith (py "mailto:") (lower href)
                  || startswith (py "tel:") (lower href)
               then add_node nodes (parent a) else nodes)
    (find_all (py "a") soup) [].

(** [cn == h.parent or cn in h.parents or h in cn.parents]. *)
Definition near (cn h : loc) : bool :=
  match parents h with
  | p :: _ => node_eqb (here cn) p
  | [] => false
  end
  || existsb (node_eqb (here cn)) (parents h)
  || existsb (node_eqb (here h)) (parents cn).

(** Pass 3, the body of the loop over the headings named [tag]. *)
Definition heading_candidate (cns : list loc) (tag : str)
    (candidates : list NameCandidate) (h : loc) : list NameCandidate :=
  if _is_hidden (Some h) then candidates
  else
    let text := get_text h in
    match text with
    | [] => candidates
    | _ =>
        let base := (if str_eqb tag (py "h1") then 70 else 60)%Z in
        if existsb (fun cn => near cn h) cns
        then add_candidate candidates text (Z.min 95 (base + 25))
               (tag ++ py " near contact")
        else add_candidate candidates text base tag
    end.

Definition pass_headings (soup : node) (candidates : list NameCandidate)
  : list NameCandidate :=
  let cns := contact_nodes soup in
  fold_left (fun candidates tag =>
               fold_left (heading_candidate cns tag) (find_all tag soup)
                 candidates)
    [py "h1"; py "h2"; py "h3"; py "h4"] candidates.

(** A literal of a pattern compiled with [re.I] against one character:
    the lower case of the character is the literal, or the character is
    the long s and the literal an [s]. *)
Definition icase_eqb (p c : char) : bool :=
  N.eqb (sre_lower c) p || N.eqb p 115 && N.eqb c 383.

Fixpoint istartswith (p s : str) : bool :=
  match p, s with
  | [], _ => true
  | _ :: _, [] => false
  | a :: p', b :: s' => icase_eqb a b && istartswith p' s'
  end.

(** [re.compile(k, re.I).search(v)] for a literal [k]. *)
Fixpoint isearch (k v : str) : bool :=
  istartswith k v || match v with [] => false | _ :: v' => isearch k v' end.

(** Pass 4, the body of the two loops over the elements whose [class] or
    [id] holds the keyword. *)
Definition keyed_candidate (conf : Z) (why : str)
    (candidates : list NameCandidate) (el : loc) : list NameCandidate :=
  if _is_hidden (Some el) then candidates
  else
    let text := get_text el in
    match text with
    | [] => candidates
    | _ => if (length text <? 60)%nat
           then add_candidate candidates text conf why
           else candidates
    end.

Definition pass_keys (soup : node) (candidates : list NameCandidate)
  : list NameCandidate :=
  fold_left (fun candidates k =>
               let candidates :=
                 fold_left (keyed_candidate 75 (py "class contains " ++ k))
                   (find_all_attr (py "class") (isearch k) soup) candidates in
               fold_left (keyed_candidate 80 (py "id contains " ++ k))
                 (find_all_attr (py "id") (isearch k) soup) candidates)
    [py "name"; py "author"; py "contact"; py "founder"; py "ceo"; py "person"]
    candidates.

(** The list [candidates] when the four passes are over. *)
Definition raw_candidates (soup : node) : list NameCandidate :=
  pass_keys soup (pass_headings soup (pass_title soup (pass_meta soup []))).

(** [sorted(candidates, key=lambda x: -x['confidence'])]: a stable sort,
    the larger confidence first. *)
Fixpoint insert_by_confidence (c : NameCandidate) (l : list NameCandidate)
  : list NameCandidate :=
  match l with
  | [] => [c]
  | d :: l' =>
      if (confidence c <? confidence d)%Z
      then d :: insert_by_confidence c l'
      else c :: l
  end.

Fixpoint sorted_by_confidence (l : list NameCandidate) : list NameCandidate :=
  match l with
  | [] => []
  | c :: l' => insert_by_confidence c (sorted_by_confidence l')
  end.

(** [' '.join(c['name'].split())]. *)
Definition normalized_name (c : NameCandidate) : str :=
  join (py " ") (split_ws (name c)).

(** The last loop of [extract_name_candidates]. *)
Fixpoint dedupe_names (cs : list NameCandidate) (seen : list str)
    (out : list NameCandidate) : list NameCandidate :=
  match cs with
  | [] => out
  | c :: rest =>
      let n := normalized_name c in
      if str_eqb n [] || mem n seen then dedupe_names rest seen out
      else dedupe_names rest (n :: seen) (out ++ [c])
  end.

Definition rank_candidates (candidates : list NameCandidate)
  : list NameCandidate :=
  dedupe_names (sorted_by_confidence candidates) [] [].

Definition extract_name_candidates (soup : node) : list NameCandidate :=
  rank_candidates (raw_candidates soup).

Definition NO_CONTACT_NOTE : str :=
  py "no contact items found (page may be JS-heavy or require interaction)".

(** [crawl_url] from the call of [extract_socials] on: the four
    extractors on one soup and the record built from them.  The soup that
    comes back is the one the extractors leave; when [extract_socials]
    raises, no extractor has touched it. *)
Definition extract_all (soup : node) (final : str)
  : Result CrawlResult * node :=
  match extract_socials soup final with
  | Raise e => (Raise e, soup)
  | Return socials =>
      let '(emails, soup) := extract_emails soup in
      let '(phones, soup) := extract_phones soup in
      let names := extract_name_candidates soup in
      let notes :=
        match emails, phones, socials with
        | [], [], [] => [NO_CONTACT_NOTE]
        | _, _, _ => []
        end in
      (Return {| url := final; socials := socials; emails := emails;
                 phones := phones; name_candidates := names;
                 notes := notes |}, soup)
  end.

(** [crawl_url] from the moment [fetch_html] has returned [final] and the
    page is parsed into [soup]: the templates leave the soup, then the
    extractors run. *)
Definition crawl_url (soup : node) (final : str)
  : Result CrawlResult * node :=
  extract_all (extract_tags [py "template"] soup) final.

(** The entry [extract_phones] appends for the string [num]. *)
Definition phone_entry (num : str) : Phone :=
  {| original := num; normalized := returned (_normalize_phone num) |}.

(** The address the first loop of [extract_emails] reads off an anchor:
    the href starts with [mailto:] in any case of letters, and what
    follows the scheme, cut at the first question mark and stripped,
    starts with a match of the e-mail pattern. *)
Definition mailto_address (a : loc) : option str :=
  let href := get_or_empty (here a) (py "href") in
  if startswith (py "mailto:") (lower href) then
    let addr := strip (after_scheme href) in
    match re_match EMAIL_RE addr with
    | Some _ => Some addr
    | None => None
    end
  else None.

(** The string the first loop of [extract_phones] reads off an anchor. *)
Definition tel_number (a : loc) : option str :=
  let href := get_or_empty (here a) (py "href") in
  if startswith (py "tel:") (lower href) then Some (after_scheme href)
  else None.

(** The href [urljoin] is called with for an anchor: the attribute, when
    the anchor has one that is not empty. *)
Definition joined_href (a : loc) : option str :=
  match get (here a) (py "href") with
  | Some ((_ :: _) as href) => Some href
  | _ => None
  end.

(** An anchor the first loop of [extract_socials] accepts, and the href
    whose resolved URL it appends for it: the href is not empty, its
    lower case holds one of the social domains and does not start with
    [javascript:]. *)
Definition social_link (a : loc) : option str :=
  match get (here a) (py "href") with
  | Some ((_ :: _) as href) =>
      if existsb (fun dom => contains dom (lower href)) SOCIAL_DOMAINS
         && negb (startswith (py "javascript:") (lower href))
      then Some href else None
  | _ => None
  end.

(** What the first loop of [extract_socials] appends for an anchor when
    [urljoin] returns: the resolved URL, for an anchor [social_link]
    accepts. *)
Definition resolved_link (base_url : str) (a : loc) : list str :=
  match social_link a with
  | Some href =>
      match urljoin base_url href with
      | Return u => [u]
      | Raise _ => []
      end
  | None => []
  end.

(** *** Invariants of the loops of [extract_phones] *)

(** Every string in [seen] has its entry in [phones]. *)
Definition seen_reported (st : phone_state) : Prop :=
  forall n, In n (snd st) -> In (phone_entry n) (fst st).

(** A step that only appends entries satisfying [Q]. *)
Definition appends {X} (Q : Phone -> Prop)
    (step : phone_state -> X -> phone_state) : Prop :=
  forall st x, exists added,
    fst (step st x) = fst st ++ added /\ Forall Q added.

(** Seven digits or more in [original]. *)
Definition seven_digits (p : Phone) : Prop :=
  7 <= length (digits_only (original p)).

End Crawler.

(* ================================================================= *)
(** ** What the specification says, in its own words *)

(** A list in first-seen order with the duplicates removed: each element
    stays where it first occurs, its later occurrences go. *)
Fixpoint first_seen (l : list str) : list str :=
  match l with
  | [] => []
  | x :: l' => x :: filter (fun y => negb (str_eqb y x)) (first_seen l')
  end.

(** The title up to its first separator. *)
Fixpoint before_sep (title : str) : str :=
  match title with
  | [] => []
  | c :: s => if title_sep c then [] else c :: before_sep s
  end.

(** The first part of a title split at the first separator together with
    the white space around it: the title when it has no separator, else
    what stands before the first separator and the white space in front
    of it. *)
Definition first_part (title : str) : str :=
  if existsb title_sep title then rstrip (before_sep title) else title.

(** The address of a mail link: the href without its scheme, which ends
    at the first colon, and without its query, which starts at the first
    question mark, trimmed. *)
Fixpoint drop_scheme (href : str) : str :=
  match href with
  | [] => []
  | c :: s => if N.eqb c (ch ":") then s else drop_scheme s
  end.

Fixpoint drop_query (s : str) : str :=
  match s with
  | [] => []
  | c :: s' => if N.eqb c (ch "?") then [] else c :: drop_query s'
  end.

Definition mail_address (href : str) : str :=
  strip (drop_query (drop_scheme href)).

(** A name with its white space collapsed: its words, the maximal runs
    of characters that are no white space, with one space between each
    two of them.  [collapse word gap s] reads [s] when [word] tells that
    a word has been written and [gap] that white space has been read
    since. *)
Fixpoint collapse (word gap : bool) (s : str) : str :=
  match s with
  | [] => []
  | c :: s' =>
      if isspace c then collapse word word s'
      else (if gap then [ch " "] else []) ++ c :: collapse true false s'
  end.

Definition collapsed (s : str) : str := collapse false false s.

(** The descending order of confidence, and the order of strings. *)
Definition conf_ge (c d : NameCandidate) : Prop :=
  (confidence d <= confidence c)%Z.

Definition str_lt (a b : str) : Prop := str_ltb a b = true.

(* ================================================================= *)
(** ** A runtime to run examples with *)

(** The interface on the strings of the examples, for evaluating the
    module on concrete documents: [lower] and [\d] as they are on code
    points below 128; [urljoin] as it is on an href with a scheme, where
    it raises when the host opens a bracket that is never closed and
    otherwise, the scheme being another than that of the base, returns
    the href as it is; and a [phonenumbers] that knows two spellings, a
    plus sign followed by the digits of a number, and, for the region
    [IN], the ten digits of an Indian mobile number with spaces between
    them, which it reads as a number of country 91.  It finds 7 to 15
    digits possible.  The examples hold no other kind of href, and no
    other kind of number that the library would parse and find
    possible. *)
Module AsciiRuntime.

Definition lower_char (c : char) : char :=
  if in_range 65 90 c then (c + 32)%N else c.

Definition ascii_lower (s : str) : str := map lower_char s.

Definition ascii_digit (c : char) : bool := in_range 48 57 c.

(** An href that starts with a scheme: a colon stands before any
    slash. *)
Fixpoint has_scheme (href : str) : bool :=
  match href with
  | [] => false
  | c :: s =>
      if N.eqb c (ch ":") then true
      else if N.eqb c (ch "/") then false
      else has_scheme s
  end.

Definition absolute_urljoin (base href : str) : Result str :=
  if contains (py "://[") href && negb (contains (py "]") href)
  then Raise (py "Invalid IPv6 URL")
  else Return (if has_scheme href then href else base ++ href).

Definition parse_international (ds : str) : Result str :=
  if forallb ascii_digit ds && negb (str_eqb ds [])
  then Return ds
  else Raise (py "NumberParseException").

Definition parse_indian (s : str) : Result str :=
  let ds := filter ascii_digit s in
  if forallb (fun c => ascii_digit c || N.eqb c 32) s
     && Nat.eqb (length ds) 10
     && match ds with d :: _ => in_range 54 57 d | [] => false end
  then Return (py "91" ++ ds)
  else Raise (py "NumberParseException").

Definition parse_by_region (s : str) (region : option str) : Result str :=
  match s with
  | c :: ds =>
      if N.eqb c (ch "+") then parse_international ds
      else match region with
           | Some r =>
               if str_eqb r (py "IN") then parse_indian s
               else Raise (py "NumberParseException")
           | None => Raise (py "NumberParseException")
           end
  | [] => Raise (py "NumberParseException")
  end.

Definition possible_length (ds : str) : Result bool :=
  Return ((7 <=? length ds)%nat && (length ds <=? 15)%nat).

Definition format_plus (ds : str) : Result str := Return (ch "+" :: ds).

End AsciiRuntime.

#[export] Instance ascii_runtime : PyRuntime.
Proof.
  refine {| lower := AsciiRuntime.ascii_lower;
            isdecimal := AsciiRuntime.ascii_digit;
            sre_lower := AsciiRuntime.lower_char;
            urljoin := AsciiRuntime.absolute_urljoin;
            PhoneNumber := str;
            phonenumbers_parse := AsciiRuntime.parse_by_region;
            is_possible_number := AsciiRuntime.possible_length;
            format_number_E164 := AsciiRuntime.format_plus |}.
  - intros s. unfold AsciiRuntime.ascii_lower. rewrite in_map_iff.
    intros [c [Hc Hin]]. unfold AsciiRuntime.lower_char, in_range in Hc.
    destruct (N.leb 65 c && N.leb c 90) eqn:E.
    + apply andb_prop in E. destruct E as [E1 E2].
      apply N.leb_le in E1. apply N.leb_le in E2.
      unfold ch in Hc. simpl in Hc. lia.
    + subst c. exact Hin.
  - intros c. unfold isspace, AsciiRuntime.ascii_digit, in_range.
    intros Hs. apply andb_false_iff.
    destruct (N.leb 48 c) eqn:E1; [right | now left].
    apply N.leb_le in E1. apply N.leb_gt.
    repeat (apply orb_prop in Hs; destruct Hs as [Hs | Hs]);
      repeat match goal with
        | Hx : (_ && _)%bool = true |- _ => apply andb_prop in Hx; destruct Hx
        | Hx : N.leb _ _ = true |- _ => apply N.leb_le in Hx
        | Hx : N.eqb _ _ = true |- _ => apply N.eqb_eq in Hx
        end; lia.
Defined.

(* ================================================================= *)
(** ** Example documents *)

Module Examples.

Definition document (cs : list node) : node := Tag (py "[document]") [] cs.

Definition tag (nm : string) (attrs : list (string * string)) (cs : list node)
  : node :=
  Tag (py nm) (map (fun kv => (py (fst kv), py (snd kv))) attrs) cs.

Definition text (s : string) : node := NavigableString (py s).

Definition page (cs : list node) : node :=
  document [tag "html" [] [tag "body" [] cs]].

(** A mail link inside [noscript]. *)
Definition noscript_page : node :=
  page [tag "noscript" []
          [tag "a" [("href", "mailto:a@b.com")] [text "x"]]]%string.

(** A bare template element below the body. *)
Definition template_page : node :=
  page [tag "template" [("class", "name")] [text "Jane"]]%string.

Definition template_loc : loc :=
  {| here := tag "template" [("class", "name")] [text "Jane"];
     parents := [tag "body" [] [tag "template" [("class", "name")] [text "Jane"]];
                 tag "html" [] [tag "body" [] [tag "template" [("class", "name")] [text "Jane"]]];
                 template_page] |}%string.

(** The page of the e-mail example. *)
Definition email_page : node :=
  page [tag "a" [("href", "mailto:a@b.com")] [text "x"];
        tag "p" [] [text "a@b.com c@d.org"]]%string.

(** A mail link with capitals, blanks and a query, and text without an
    address. *)
Definition mail_link_page : node :=
  page [tag "a" [("href", "MAILTO: Jane.Doe@Example.org ?subject=Hi")]
          [text "write"];
        tag "p" [] [text "no address here"]]%string.

(** A mail link whose address goes on after the part the pattern
    matches. *)
Definition long_mailto_page : node :=
  page [tag "a" [("href", "MailTo: a@b.com, c@d.org ?subject=hi")]
          [text "write"]]%string.

(** The page of the name example: an author in the head, the same name
    in a heading. *)
Definition author_page : node :=
  document
    [tag "html" []
       [tag "head" [] [tag "meta" [("name", "author"); ("content", "Jane Doe")] []];
        tag "body" [] [tag "h1" [] [text "Jane Doe"]]]]%string.

(** The same name in the head and in a heading, spaced in two ways. *)
Definition spaced_author_page : node :=
  document
    [tag "html" []
       [tag "head" [] [tag "meta" [("name", "author"); ("content", "Jane Doe")] []];
        tag "body" [] [tag "h1" [] [text " Jane   Doe "]]]]%string.

Definition title_page : node :=
  document
    [tag "html" []
       [tag "head" [] [tag "title" [] [text " Jane Doe  - Home | Site"]];
        tag "body" [] []]]%string.

(** Social links inside a hidden block, one of them twice. *)
Definition hidden_social_page : node :=
  page [tag "div" [("hidden", "")]
          [tag "a" [("href", "https://LinkedIn.com/in/jane")] [];
           tag "a" [("href", "https://facebook.com/jane")] [];
           tag "a" [("href", "https://LinkedIn.com/in/jane")] [];
           tag "a" [("href", "javascript:open('github.com')")] []]]%string.

Definition hidden_social_anchor : loc :=
  {| here := tag "a" [("href", "https://facebook.com/jane")] [];
     parents :=
       match descendants hidden_social_page with
       | _ :: _ :: d :: _ => here d :: parents d
       | _ => []
       end |}%string.

(** A social link, and a link whose host opens a bracket that is never
    closed. *)
Definition unresolvable_href_page : node :=
  page [tag "a" [("href", "https://facebook.com/jane")] [];
        tag "a" [("href", "http://[linkedin.com/x")] []]%string.

(** A page with a script, a comment and a plain link inside [noscript];
    its contacts stand outside of them. *)
Definition script_page : node :=
  page [tag "script" [] [text "var a = 'x@y.org';"];
        Comment (py "mail z@w.org");
        tag "noscript" []
          [tag "a" [("href", "https://example.org/about")] [text "About"]];
        tag "a" [("href", "mailto:a@b.com")] [text "write"];
        tag "a" [("href", "https://github.com/jane")] [text "code"];
        tag "p" [] [text "call +14155552671"]]%string.

(** Telephone links with few digits and with none. *)
Definition short_tel_page : node :=
  page [tag "a" [("href", "tel:112")] [text "emergency"];
        tag "a" [("href", "TEL:")] [text "call"]]%string.

Definition empty_tel_anchor : loc :=
  {| here := tag "a" [("href", "TEL:")] [text "call"];
     parents :=
       match descendants short_tel_page with
       | _ :: b :: _ => here b :: parents b
       | _ => []
       end |}%string.

(** Text with a phone number, and text the phone pattern matches with
    two digits only. *)
Definition phone_text_page : node :=
  page [tag "p" [] [text "call 98765 43210 today"];
        tag "p" [] [text "ref 1------2 end"]]%string.

End Examples.

(** The soup [_visible_texts] leaves. *)
Definition REMOVED_TAGS : list str :=
  [py "script"; py "style"; py "noscript"; py "iframe"].

Definition cleaned (soup : node) : node :=
  extract_comments (extract_tags REMOVED_TAGS soup).

(** No node below [soup] is a comment or one of the removed tags. *)
Definition removable (n : node) : bool :=
  named_in REMOVED_TAGS n || is_comment n.

Definition nothing_to_remove (soup : node) : bool :=
  forallb (fun l => negb (removable (here l))) (descendants soup).

(** A node without what it contains, and a place in the tree with every
    node so: all that [get], [name] and [_is_hidden] read. *)
Definition skin (n : node) : node :=
  match n with Tag nm a _ => Tag nm a [] | _ => n end.

Definition outline (l : loc) : loc :=
  {| here := skin (here l); parents := map skin (parents l) |}.

(** [el.descendants] with a mark on every node that is a tag named in
    [names] or stands inside one; [inside] tells whether [n] does. *)
Fixpoint marked_from (names : list str) (inside : bool) (ps : list node)
    (n : node) : list (loc * bool) :=
  match n with
  | Tag _ _ cs =>
      flat_map (fun c =>
                  ({| here := c; parents := n :: ps |},
                   inside || named_in names c)
                    :: marked_from names (inside || named_in names c)
                         (n :: ps) c) cs
  | _ => []
  end.

(** A node of the soup that [_visible_texts] takes out with a script,
    style, noscript or iframe element: the node or one of its ancestors
    below the soup object is such an element. *)
Definition in_removed (l : loc) : bool :=
  existsb (named_in REMOVED_TAGS) (here l :: removelast (parents l)).

(* ================================================================= *)
(** ** The command line, [crawl.py] *)

(** One entry of the list [results] of [main]: the record [crawl_url]
    returned, or [{'url': u, 'error': str(e)}]. *)
Inductive batch_record : Type :=
| Crawled (res : CrawlResult)
| Failed (requested error : str).

(** [try: body / except Exception as e: handler(e)]. *)
Definition try_except {A} (body : Result A) (handler : str -> A) : A :=
  match body with
  | Return a => a
  | Raise e => handler e
  end.

Section Batch.

Context `{PyRuntime}.

(** [fetch_html(url)] followed by [BeautifulSoup(html, 'lxml')]: the
    request and the parser are outside the repository; the call hands
    back the soup and the final URL, or raises. *)
Variable fetch_soup : str -> Result (node * str).

(** [crawl_url(url)] as [main] calls it: the fetch may raise, and so may
    the extraction. *)
Definition crawl_request (u : str) : Result CrawlResult :=
  page <- fetch_soup u ;;
  fst (crawl_url (fst page) (snd page)).

(** The body of the loop of [main] over [urls]; the two [print] calls
    write to the terminal only. *)
Definition crawl_one (results : list batch_record) (u : str)
  : list batch_record :=
  try_except
    (res <- crawl_request u ;; Return (results ++ [Crawled res]))
    (fun e => results ++ [Failed u e]).

(** The list [urls] of [main]: the stripped non-blank lines of the input
    file, when one is named, then the URLs of the command line. *)
Definition collect_urls (input_lines : option (list str))
    (args_urls : list str) : list str :=
  let urls :=
    match input_lines with
    | Some lines =>
        flat_map (fun l => match strip l with [] => [] | u => [u] end) lines
    | None => []
    end in
  urls ++ args_urls.

(** [main] up to the list it writes to the output file; [None] is the
    exit of [p.error('No URLs provided')]. *)
Definition main (input_lines : option (list str)) (args_urls : list str)
  : option (list batch_record) :=
  match collect_urls input_lines args_urls with
  | [] => None
  | urls => Some (fold_left crawl_one urls [])
  end.

End Batch.

(* ================================================================= *)
(** ** What the patterns match *)

(** The strings a pattern matches as a whole. *)
Inductive matches : re -> str -> Prop :=
| matches_rep (cls : char -> bool) (lo : nat) (hi : option nat) (m : str) :
    forallb cls m = true ->
    lo <= length m ->
    match hi with Some h => length m <= h | None => True end ->
    matches (Rep cls lo hi) m
| matches_seq (a b : re) (m1 m2 : str) :
    matches a m1 -> matches b m2 -> matches (Seq a b) (m1 ++ m2)
| matches_opt_some (a : re) (m : str) : matches a m -> matches (Opt a) m
| matches_opt_none (a : re) : matches (Opt a) [].

(** The three character classes of [EMAIL_RE]. *)
Definition email_local_char (c : char) : bool :=
  ascii_alnum c || one_of (py "_.+-") c.

Definition email_domain_char (c : char) : bool :=
  ascii_alnum c || one_of (py "-") c.

Definition email_tail_char (c : char) : bool :=
  ascii_alnum c || one_of (py "-.") c.

(** A string of the form [local@domain.tail], the three parts non-empty
    and made of the characters of their class. *)
Definition email_shaped (m : str) : Prop :=
  exists l d t,
    m = l ++ ch "@" :: d ++ ch "." :: t
    /\ l <> [] /\ d <> [] /\ t <> []
    /\ forallb email_local_char l = true
    /\ forallb email_domain_char d = true
    /\ forallb email_tail_char t = true.

(** The confidences the passes of [extract_name_candidates] hand out, in
    hundredths. *)
Definition CONFIDENCES : list Z := [50; 60; 70; 75; 80; 85; 90; 95]%Z.

(** Neither [l] nor one of its ancestors is a tag named in [names]. *)
Definition no_template_around (names : list str) (l : loc) : bool :=
  negb (existsb (named_in names) (here l :: parents l)).

(** An invariant of the two loops of [extract_phones]: the entries are
    told apart by [original], [seen] holds exactly the originals, and
    every entry is the one [phone_entry] builds. *)
Definition phones_keyed `{PyRuntime} (st : phone_state) : Prop :=
  NoDup (map original (fst st))
  /\ (forall n, In n (snd st) <-> In n (map original (fst st)))
  /\ Forall (fun p => p = phone_entry (original p)) (fst st).

Module BatchExample.

(** A fetcher that knows two pages, the second with an href [urljoin]
    raises on, and fails on every other URL. *)
Definition fetch_known (u : str) : Result (node * str) :=
  if str_eqb u (py "http://a.example/")
  then Return (Examples.email_page, py "http://a.example/home")
  else if str_eqb u (py "http://b.example/")
  then Return (Examples.unresolvable_href_page, py "http://b.example/")
  else Raise (py "404 Client Error").

(** A page with a hidden block, text in it and below it. *)
Definition hidden_block_page : node :=
  Examples.page
    [Examples.tag "div" [("aria-hidden", "true")]
       [Examples.tag "p" [] [Examples.text "call 98765 43210"]];
     Examples.tag "p" [] [Examples.text "  mail a@b.com  "]]%string.


Definition shown_paragraph : loc :=
  match descendants hidden_block_page with
  | _ :: _ :: _ :: _ :: _ :: p :: _ => p
  | _ => {| here := Examples.text ""; parents := [] |}
  end.


(** A telephone link with a query, a visible text with two numbers. *)
Definition two_numbers_page : node :=
  Examples.page
    [Examples.tag "a" [("href", "Tel:+14155552671?x=1")] [Examples.text "Call"];
     Examples.tag "p" [] [Examples.text "98765 43210 or 022-1234 5678"];
     Examples.tag "h2" [("id", "founder")] [Examples.text " Jane  Doe "]]%string.

Definition tel_anchor : loc :=
  match find_all (py "a") two_numbers_page with
  | a :: _ => a
  | [] => {| here := Examples.text ""; parents := [] |}
  end.

End BatchExample.

(* ================================================================= *)
(** ** The embedding at work *)

(** The patterns on plain text. *)
Example phone_pattern_international :
  re_search PHONE_RE (py "Call +1 (415) 555-2671 now")
  = Some (py "+1 (415) 555-2671").
Proof. reflexivity. Qed.

Example phone_pattern_seven_characters :
  findall PHONE_RE (py "1234567") = [].
Proof. reflexivity. Qed.

Example phone_pattern_two_matches :
  findall PHONE_RE (py "+91 98765 43210, 022-1234 5678")
  = [py "+91 98765 43210"; py "022-1234 5678"].
Proof. reflexivity. Qed.

Example email_pattern_findall :
  findall EMAIL_RE (py "a@b.com c@d.org. x@y")
  = [py "a@b.com"; py "c@d.org."].
Proof. reflexivity. Qed.

Example title_pattern_split :
  re_split TITLE_SPLIT_RE (py "Jane Doe - Home | Site")
  = [py "Jane Doe "; py "Home "; py "Site"].
Proof. reflexivity. Qed.

Example title_pattern_dashes :
  re_split TITLE_SPLIT_RE [97; 32; 8211; 32; 32; 98; 8212; 99]%N
  = [[97; 32]; [98]; [99]]%N.
Proof. reflexivity. Qed.

(** Visibility: a mark on an ancestor hides, in any spelling of the
    style. *)
Example hidden_by_ancestor_style :
  map (fun pt => snd pt)
    (fst (_visible_texts
            (Examples.page
               [Examples.tag "div" [("style", "Display: None")]
                  [Examples.tag "p" [] [Examples.text "secret@x.org"]];
                Examples.tag "p" [] [Examples.text "  shown  "];
                Comment (py "note");
                Examples.tag "script" [] [Examples.text "var a;"]])))%string
  = [py "shown"].
Proof. reflexivity. Qed.

(** The testable properties of the specification that are plain
    evaluations. *)
Example phone_normalization_property :
  fst (extract_phones
         (Examples.page
            [Examples.tag "a" [("href", "tel:+14155552671")]
               [Examples.text "Call"]]))%string
  = [{| original := py "+14155552671"; normalized := py "+14155552671" |}].
Proof. reflexivity. Qed.

Example social_order_property :
  extract_socials
    (Examples.page
       [Examples.tag "a" [("href", "https://linkedin.com/in/jane")] [];
        Examples.tag "a" [("href", "https://linkedin.com/in/jane")] [];
        Examples.tag "a" [("href", "https://facebook.com/jane")] []])%string
    (py "http://example.com/")
  = Return [py "https://linkedin.com/in/jane"; py "https://facebook.com/jane"].
Proof. reflexivity. Qed.

Example empty_page_property :
  fst (crawl_url (Examples.page [Examples.tag "p" [] [Examples.text "Hello"]])
         (py "http://example.com/"))%string
  = Return {| url := py "http://example.com/"; socials := []; emails := [];
              phones := []; name_candidates := [];
              notes := [NO_CONTACT_NOTE] |}.
Proof. reflexivity. Qed.

Example template_exclusion_property :
  fst (crawl_url Examples.template_page (py "http://example.com/"))
  = Return {| url := py "http://example.com/"; socials := []; emails := [];
              phones := []; name_candidates := [];
              notes := [NO_CONTACT_NOTE] |}.
Proof. reflexivity. Qed.

(** The strings of a template below a heading are not text of the
    heading, and a string of a ruby annotation is not text of the
    paragraph around it. *)
Example get_text_reads_one_class :
  map (fun l => get_text l)
    (find_all_in [py "h1"; py "template"; py "p"]
       (Examples.page
          [Examples.tag "h1" []
             [Examples.text "Jane";
              Examples.tag "template" [] [Examples.text "hidden"]];
           Examples.tag "p" []
             [Examples.text " kanji ";
              Examples.tag "rt" [] [Examples.text "kana"];
              Comment (py "note")]]))%string
  = [py "Jane"; py "hidden"; py "kanji"].
Proof. reflexivity. Qed.

(* ================================================================= *)
(** ** Facts about strings and lists *)

Lemma str_eqb_eq (a b : str) : str_eqb a b = true <-> a = b.
Proof.
  unfold str_eqb. destruct (list_eq_dec N.eq_dec a b); split; congruence.
Qed.

Lemma str_eqb_refl (a : str) : str_eqb a a = true.
Proof. now apply str_eqb_eq. Qed.

Lemma str_eqb_neq (a b : str) : str_eqb a b = false <-> a <> b.
Proof.
  unfold str_eqb. destruct (list_eq_dec N.eq_dec a b); split; congruence.
Qed.

Lemma mem_In (x : str) (l : list str) : mem x l = true <-> In x l.
Proof.
  unfold mem. rewrite existsb_exists. split.
  - intros [y [Hy He]]. apply str_eqb_eq in He. now subst.
  - intros Hin. exists x. split; [assumption | apply str_eqb_refl].
Qed.

Lemma mem_not_In (x : str) (l : list str) : mem x l = false <-> ~ In x l.
Proof.
  rewrite <- mem_In. destruct (mem x l); split; congruence.
Qed.

(** A loop that collects returns when every turn does, with what the
    turns returned, one after the other. *)
Lemma collect_returns {A B} (body : A -> Result (list B)) (l : list A) :
  (forall x, In x l -> exists ys, body x = Return ys) ->
  exists out, collect body l = Return out.
Proof.
  induction l as [| x l IH]; intros Hall; cbn [collect]; [now eexists |].
  destruct (Hall x (or_introl eq_refl)) as [ys ->].
  destruct IH as [zs ->]; [intros y Hy; apply Hall; now right |].
  cbn [bind]. now eexists.
Qed.

Lemma collect_returns_each {A B} (body : A -> Result (list B)) (l : list A)
    (out : list B) :
  collect body l = Return out ->
  forall x, In x l -> exists ys, body x = Return ys.
Proof.
  revert out. induction l as [| x l IH]; intros out Hc y Hy; [contradiction |].
  cbn [collect] in Hc. unfold bind in Hc.
  destruct (body x) as [ys |] eqn:Ex; [| discriminate].
  destruct (collect body l) as [zs |] eqn:El; [| discriminate].
  destruct Hy as [<- | Hy]; [now exists ys | now apply (IH zs)].
Qed.

(* ================================================================= *)
(** ** Facts about the tree *)

(** Induction on a node with the hypothesis for every child. *)
Lemma node_forall_ind (P : node -> Prop) :
  (forall nm a cs, Forall P cs -> P (Tag nm a cs)) ->
  (forall s, P (NavigableString s)) ->
  (forall s, P (Comment s)) ->
  forall n, P n.
Proof.
  intros HT HS HC.
  fix IH 1. intros [nm a cs | s | s].
  - apply HT. induction cs as [| c cs IHcs]; constructor.
    + apply IH.
    + exact IHcs.
  - apply HS.
  - apply HC.
Qed.

Lemma extract_tags_named_in (names : list str) (n : node) :
  named_in names (extract_tags names n) = named_in names n.
Proof. destruct n; reflexivity. Qed.

Lemma extract_comments_is_comment (n : node) :
  is_comment (extract_comments n) = is_comment n.
Proof. destruct n; reflexivity. Qed.

Lemma extract_comments_named_in (names : list str) (n : node) :
  named_in names (extract_comments n) = named_in names n.
Proof. destruct n; reflexivity. Qed.

Lemma extract_tags_is_comment (names : list str) (n : node) :
  is_comment (extract_tags names n) = is_comment n.
Proof. destruct n; reflexivity. Qed.

Lemma extract_tags_idempotent (names : list str) (n : node) :
  extract_tags names (extract_tags names n) = extract_tags names n.
Proof.
  induction n as [nm a cs IH | s | s] using node_forall_ind; try reflexivity.
  simpl. f_equal.
  induction IH as [| c cs Hc _ IHcs]; simpl; [reflexivity |].
  destruct (named_in names c) eqn:E; [exact IHcs |].
  simpl. rewrite extract_tags_named_in, E. simpl. now rewrite Hc, IHcs.
Qed.

Lemma extract_comments_idempotent (n : node) :
  extract_comments (extract_comments n) = extract_comments n.
Proof.
  induction n as [nm a cs IH | s | s] using node_forall_ind; try reflexivity.
  simpl. f_equal.
  induction IH as [| c cs Hc _ IHcs]; simpl; [reflexivity |].
  destruct (is_comment c) eqn:E; [exact IHcs |].
  simpl. rewrite extract_comments_is_comment, E. simpl. now rewrite Hc, IHcs.
Qed.

Lemma extract_tags_comments_commute (names : list str) (n : node) :
  extract_tags names (extract_comments n)
  = extract_comments (extract_tags names n).
Proof.
  induction n as [nm a cs IH | s | s] using node_forall_ind; try reflexivity.
  simpl. f_equal.
  induction IH as [| c cs Hc _ IHcs]; simpl; [reflexivity |].
  destruct (is_comment c) eqn:E1, (named_in names c) eqn:E2; simpl.
  - exact IHcs.
  - rewrite extract_tags_is_comment, E1. exact IHcs.
  - rewrite extract_comments_named_in, E2. exact IHcs.
  - rewrite extract_comments_named_in, E2, extract_tags_is_comment, E1.
    simpl. now rewrite Hc, IHcs.
Qed.

Lemma cleaned_idempotent (soup : node) : cleaned (cleaned soup) = cleaned soup.
Proof.
  unfold cleaned.
  rewrite extract_tags_comments_commute, extract_tags_idempotent.
  apply extract_comments_idempotent.
Qed.

Lemma forallb_flat_map {A B} (p : B -> bool) (f : A -> list B) (l : list A) :
  forallb p (flat_map f l) = forallb (fun x => forallb p (f x)) l.
Proof.
  induction l as [| x l IH]; simpl; [reflexivity |].
  now rewrite forallb_app, IH.
Qed.

Lemma nothing_to_remove_from (ps : list node) (n : node) :
  forallb (fun l => negb (removable (here l))) (descendants_from ps n) = true ->
  extract_tags REMOVED_TAGS n = n /\ extract_comments n = n.
Proof.
  revert ps.
  induction n as [nm a cs IH | s | s] using node_forall_ind; intros ps Hall;
    try (split; reflexivity).
  simpl in Hall. rewrite forallb_flat_map in Hall.
  remember (Tag nm a cs :: ps) as ps' eqn:Eps. clear Eps.
  assert (Hcs :
    flat_map (fun c => if named_in REMOVED_TAGS c then []
                       else [extract_tags REMOVED_TAGS c]) cs = cs
    /\ flat_map (fun c => if is_comment c then []
                          else [extract_comments c]) cs = cs).
  { induction IH as [| c cs Hc _ IHcs]; [split; reflexivity |].
    simpl in Hall. apply andb_prop in Hall. destruct Hall as [Hhd Htl].
    apply andb_prop in Hhd. destruct Hhd as [Hc0 Hdesc].
    apply negb_true_iff in Hc0. unfold removable in Hc0.
    apply orb_false_iff in Hc0. destruct Hc0 as [E1 E2].
    destruct (Hc ps' Hdesc) as [Ht Hcm].
    destruct (IHcs Htl) as [It Ic].
    simpl. rewrite E1, E2. simpl. rewrite Ht, Hcm, It, Ic. split; reflexivity. }
  destruct Hcs as [Ht Hc]. simpl. rewrite Ht, Hc. split; reflexivity.
Qed.

Lemma nothing_to_remove_cleaned (soup : node) :
  nothing_to_remove soup = true -> cleaned soup = soup.
Proof.
  intros Hn. destruct (nothing_to_remove_from [] soup Hn) as [Ht Hc].
  unfold cleaned. now rewrite Ht, Hc.
Qed.

(* ================================================================= *)
(** ** Facts about the extractors *)

Section CrawlerFacts.

Context `{PyRuntime}.

Lemma visible_texts_soup (soup : node) :
  snd (_visible_texts soup) = cleaned soup.
Proof. reflexivity. Qed.

Lemma extract_emails_soup (soup : node) :
  snd (extract_emails soup) = cleaned soup.
Proof. reflexivity. Qed.

Lemma extract_phones_soup (soup : node) :
  snd (extract_phones soup) = cleaned soup.
Proof. reflexivity. Qed.

(** The two ways [extract_all] ends. *)
Lemma extract_all_raises (soup : node) (final e : str) :
  extract_socials soup final = Raise e ->
  extract_all soup final = (Raise e, soup).
Proof. intros E. unfold extract_all. now rewrite E. Qed.

Lemma extract_all_returns (soup : node) (final : str) (found : list str) :
  extract_socials soup final = Return found ->
  extract_all soup final
  = (Return {| url := final; socials := found;
               emails := fst (extract_emails soup);
               phones := fst (extract_phones (cleaned soup));
               name_candidates := extract_name_candidates (cleaned soup);
               notes := match fst (extract_emails soup),
                              fst (extract_phones (cleaned soup)), found with
                        | [], [], [] => [NO_CONTACT_NOTE]
                        | _, _, _ => []
                        end |},
     cleaned soup).
Proof.
  intros E. unfold extract_all. rewrite E.
  pose proof (extract_emails_soup soup) as Hs1.
  destruct (extract_emails soup) as [em s1]. cbn [snd] in Hs1. subst s1.
  pose proof (extract_phones_soup (cleaned soup)) as Hs2.
  destruct (extract_phones (cleaned soup)) as [ph s2].
  cbn [snd] in Hs2. subst s2. rewrite cleaned_idempotent. reflexivity.
Qed.

End CrawlerFacts.

(* ----------------------------------------------------------------- *)
(** *** Visibility *)

Section VisibilityFacts.

Context `{PyRuntime}.

(** [_is_hidden] looks at the names of the ancestors only: the name of the
    element itself does not change the answer. *)
Lemma is_hidden_own_name (nm nm' : str) (a : list (str * str))
    (cs : list node) (ps : list node) :
  _is_hidden (Some {| here := Tag nm a cs; parents := ps |})
  = _is_hidden (Some {| here := Tag nm' a cs; parents := ps |}).
Proof. reflexivity. Qed.

(** What is below a template is hidden. *)
Lemma is_hidden_below_template (e : loc) :
  existsb (named (py "template")) (parents e) = true ->
  _is_hidden (Some e) = true.
Proof.
  intros Hex. unfold _is_hidden.
  apply existsb_exists in Hex. destruct Hex as [el [Hin Hnm]].
  replace (existsb _ (parents e)) with true; [reflexivity |].
  symmetry. apply existsb_exists. exists el. split; [exact Hin |].
  now rewrite Hnm.
Qed.

End VisibilityFacts.

(** C2, what the code does instead.  [_is_hidden] gives a template
    element the answer it gives any other element with the same
    attributes in the same place.  At the concrete document with
    [<template class="name">Jane</template>] below the body: the element
    is a template, [_is_hidden] answers [False] for it, and
    [extract_name_candidates] reports its text. *)
Theorem template_itself_not_hidden :
  (forall (R : PyRuntime) nm a cs ps,
     _is_hidden (Some {| here := Tag (py "template") a cs; parents := ps |})
     = _is_hidden (Some {| here := Tag nm a cs; parents := ps |}))
  /\ In Examples.template_loc (descendants Examples.template_page)
  /\ named (py "template") (here Examples.template_loc) = true
  /\ _is_hidden (Some Examples.template_loc) = false
  /\ extract_name_candidates Examples.template_page
     = [{| name := py "Jane"; confidence := 75;
           reason := py "class contains name" |}].
Proof.
  split; [| split; [| split; [| split]]].
  - intros R nm a cs ps. apply is_hidden_own_name.
  - vm_compute. right. right. left. reflexivity.
  - reflexivity.
  - reflexivity.
  - vm_compute. reflexivity.
Qed.

(* ----------------------------------------------------------------- *)
(** *** Reading the address off a link *)

Lemma startswith_In (p s : str) (c : char) :
  startswith p s = true -> In c p -> In c s.
Proof.
  revert s. induction p as [| a p IH]; intros [| b s] Hp Hc; simpl in *;
    try contradiction; try discriminate.
  apply andb_prop in Hp. destruct Hp as [Hab Hp]. apply N.eqb_eq in Hab.
  destruct Hc as [<- | Hc]; [now left | right; now apply IH].
Qed.

Lemma split_once_two (sep : char) (s cur : str) :
  In sep s -> exists before after, split_once_aux sep s cur = [before; after].
Proof.
  revert cur. induction s as [| c s IH]; intros cur Hin; [contradiction |].
  simpl. destruct (N.eqb_spec c sep) as [-> | Hne]; [eauto |].
  destruct Hin as [-> | Hin]; [contradiction | now apply IH].
Qed.

Section SchemeFacts.

Context `{PyRuntime}.

(** Behind the tests [href.lower().startswith('mailto:')] and
    [href.lower().startswith('tel:')] the href holds a colon:
    [href.split(':', 1)] has two parts and the index [1] is in range. *)
Lemma scheme_split_in_range (scheme href : str) :
  In (ch ":") scheme ->
  startswith scheme (lower href) = true ->
  exists before after, split_once (ch ":") href = [before; after].
Proof.
  intros Hcolon Hstarts. apply split_once_two, lower_colon.
  now apply (startswith_In _ _ _ Hstarts).
Qed.

End SchemeFacts.

(* ----------------------------------------------------------------- *)
(** *** Phone numbers *)

Section PhoneFacts.

Context `{PyRuntime}.

Lemma digits_only_lstrip (s : str) : digits_only (lstrip s) = digits_only s.
Proof.
  induction s as [| c s IH]; simpl; [reflexivity |].
  destruct (isspace c) eqn:E; [| reflexivity].
  now rewrite (space_not_decimal c E).
Qed.

Lemma digits_only_rev (s : str) : digits_only (rev s) = rev (digits_only s).
Proof.
  unfold digits_only.
  induction s as [| c s IH]; simpl; [reflexivity |].
  rewrite filter_app, IH. simpl.
  destruct (isdecimal c); simpl; [reflexivity | apply app_nil_r].
Qed.

(** White space holds no digit: stripping changes no digit. *)
Lemma digits_only_strip (s : str) : digits_only (strip s) = digits_only s.
Proof.
  unfold strip, rstrip.
  now rewrite digits_only_lstrip, digits_only_rev, digits_only_lstrip,
    digits_only_rev, rev_involutive.
Qed.

(** [_normalize_phone] returns; [returned] reads what it returned. *)
Lemma normalize_phone_returns (num : str) :
  _normalize_phone num = Return (returned (_normalize_phone num)).
Proof.
  unfold _normalize_phone, try_except_pass, bind.
  destruct (parse_number (strip num)) as [p | e]; [| reflexivity].
  destruct (is_possible_number p) as [[|] | e]; try reflexivity.
  destruct (format_number_E164 p) as [v | e]; reflexivity.
Qed.

Lemma normalize_phone_fallback (num : str) (err : str) :
  parse_number (strip num) = Raise err ->
  returned (_normalize_phone num) = digits_only num.
Proof.
  intros Hp. unfold _normalize_phone, try_except_pass, bind.
  rewrite Hp. simpl. apply digits_only_strip.
Qed.

(** C8.  [_normalize_phone] never raises, whatever the three calls into
    [phonenumbers] do.  With [s] the stripped input, parsed without region
    when it starts with a plus sign and with the default region otherwise:
    a number that parses and is possible comes back in E.164 form; when
    parsing raises, when the number is not possible, or when one of the
    two later calls raises, the digits of the input come back. *)
Theorem normalize_phone_never_raises (num : str) :
  let s := strip num in
  (exists v, _normalize_phone num = Return v)
  /\ (forall p e164,
        parse_number s = Return p ->
        is_possible_number p = Return true ->
        format_number_E164 p = Return e164 ->
        _normalize_phone num = Return e164)
  /\ (forall err,
        parse_number s = Raise err ->
        _normalize_phone num = Return (digits_only num))
  /\ (forall p,
        parse_number s = Return p ->
        is_possible_number p = Return false ->
        _normalize_phone num = Return (digits_only num))
  /\ (forall p err,
        parse_number s = Return p ->
        is_possible_number p = Raise err
        \/ (is_possible_number p = Return true
            /\ format_number_E164 p = Raise err) ->
        _normalize_phone num = Return (digits_only num)).
Proof.
  intros s. unfold _normalize_phone. fold s.
  rewrite <- (digits_only_strip num). fold s.
  repeat split.
  - destruct (parse_number s) as [p | e]; simpl; [| eauto].
    destruct (is_possible_number p) as [[|] | e]; simpl; eauto.
    destruct (format_number_E164 p) as [v | e]; simpl; eauto.
  - intros p e164 Hp Hq Hf. now rewrite Hp; simpl; rewrite Hq, Hf.
  - intros err Hp. now rewrite Hp.
  - intros p Hp Hq. now rewrite Hp; simpl; rewrite Hq.
  - intros p err Hp [Hq | [Hq Hf]]; rewrite Hp; simpl; rewrite Hq;
      [reflexivity | now rewrite Hf].
Qed.

End PhoneFacts.

Lemma normalize_phone_never_raises_witness :
  _normalize_phone (py " +14155552671 ") = Return (py "+14155552671")
  /\ _normalize_phone (py "12-34") = Return (py "1234").
Proof.
  split.
  - apply (normalize_phone_never_raises (py " +14155552671 "))
      with (p := py "14155552671"); reflexivity.
  - destruct (normalize_phone_never_raises (py "12-34")) as (_ & _ & Hf & _).
    exact (Hf (py "NumberParseException") eq_refl).
Defined.

(* ----------------------------------------------------------------- *)
(** *** The two loops of [extract_phones] *)

Section PhoneLoops.

Context `{PyRuntime}.

Lemma fold_left_appends {X} (Q : Phone -> Prop)
    (step : phone_state -> X -> phone_state) :
  appends Q step ->
  forall l st, exists added,
    fst (fold_left step l st) = fst st ++ added /\ Forall Q added.
Proof.
  intros Hstep l. induction l as [| x l IH]; intros st; simpl.
  - exists []. split; [now rewrite app_nil_r | constructor].
  - destruct (Hstep st x) as [a1 [E1 F1]].
    destruct (IH (step st x)) as [a2 [E2 F2]].
    exists (a1 ++ a2). split.
    + now rewrite E2, E1, app_assoc.
    + apply Forall_app. now split.
Qed.

Lemma tel_step_appends : appends (fun _ => True) tel_step.
Proof.
  intros [phones seen] a. unfold tel_step.
  destruct (startswith (py "tel:") _); [| exists []; simpl; now rewrite app_nil_r].
  destruct (_is_hidden _); [exists []; simpl; now rewrite app_nil_r |].
  destruct (negb _); [| exists []; simpl; now rewrite app_nil_r].
  eexists. split; [reflexivity | now constructor].
Qed.

Lemma text_phone_step_appends (parent : option loc) (txt : str) :
  appends seven_digits (text_phone_step parent txt).
Proof.
  intros [phones seen] m. unfold text_phone_step.
  destruct (re_search PHONE_RE txt) as [whole |];
    [| exists []; simpl; now rewrite app_nil_r].
  destruct (length (digits_only (strip whole)) <? 7) eqn:E;
    [exists []; simpl; now rewrite app_nil_r |].
  destruct (mem _ _); [exists []; simpl; now rewrite app_nil_r |].
  destruct (_is_hidden _); [exists []; simpl; now rewrite app_nil_r |].
  eexists. split; [reflexivity |].
  constructor; [| constructor].
  unfold seven_digits. simpl. apply Nat.ltb_ge in E. exact E.
Qed.

Lemma text_step_appends : appends seven_digits text_step.
Proof.
  intros st [parent txt]. unfold text_step. simpl.
  apply fold_left_appends. apply text_phone_step_appends.
Qed.

Lemma appends_In {X} (Q : Phone -> Prop)
    (step : phone_state -> X -> phone_state) :
  appends Q step ->
  forall l st p, In p (fst st) -> In p (fst (fold_left step l st)).
Proof.
  intros Hstep l st p Hin.
  destruct (fold_left_appends Hstep l st) as [added [E _]].
  rewrite E. apply in_or_app. now left.
Qed.

Lemma tel_step_seen (st : phone_state) (a : loc) :
  seen_reported st -> seen_reported (tel_step st a).
Proof.
  destruct st as [phones seen]. unfold seen_reported, tel_step.
  intros Hst.
  destruct (startswith (py "tel:") _); [| exact Hst].
  destruct (_is_hidden _); [exact Hst |].
  destruct (negb _); [| exact Hst].
  cbn [fst snd]. intros n [<- | Hin]; apply in_or_app.
  - right. now left.
  - left. now apply Hst.
Qed.

Lemma tel_step_reports (st : phone_state) (a : loc) (num : str) :
  tel_number a = Some num ->
  _is_hidden (Some a) = false ->
  seen_reported st ->
  In (phone_entry num) (fst (tel_step st a)).
Proof.
  destruct st as [phones seen]. unfold tel_number, tel_step, seen_reported.
  intros Hnum Hvis Hst.
  destruct (startswith (py "tel:") _); [| discriminate Hnum].
  injection Hnum as <-. rewrite Hvis.
  destruct (mem _ seen) eqn:E; cbn [fst snd negb].
  - apply Hst. now apply mem_In.
  - apply in_or_app. right. now left.
Qed.

Lemma tel_loop_reports (l : list loc) (a : loc) (num : str) :
  In a l ->
  tel_number a = Some num ->
  _is_hidden (Some a) = false ->
  forall st, seen_reported st ->
  In (phone_entry num) (fst (fold_left tel_step l st)).
Proof.
  intros Hin Hnum Hvis. induction l as [| x l IH]; [contradiction |].
  intros st Hst. simpl. destruct Hin as [-> | Hin].
  - apply (appends_In tel_step_appends).
    now apply tel_step_reports.
  - apply IH; [exact Hin | now apply tel_step_seen].
Qed.

Lemma extract_phones_parts (soup : node) :
  fst (extract_phones soup)
  = fst (fold_left text_step (fst (_visible_texts soup))
           (fold_left tel_step (find_all (py "a") soup) ([], []))).
Proof. reflexivity. Qed.

(** C9.  A visible anchor whose href starts with [tel:], in any case of
    letters, has an entry in the output of [extract_phones]: its
    [original] is what follows the scheme up to the first question mark.
    No count of digits is asked of it.  When [phonenumbers] does not parse
    the number, [normalized] is the digits of [original], the empty string
    when there is none. *)
Theorem tel_link_always_reported (soup : node) (a : loc) (num : str) :
  In a (find_all (py "a") soup) ->
  tel_number a = Some num ->
  _is_hidden (Some a) = false ->
  In {| original := num; normalized := returned (_normalize_phone num) |}
    (fst (extract_phones soup))
  /\ (forall err, parse_number (strip num) = Raise err ->
      In {| original := num; normalized := digits_only num |}
        (fst (extract_phones soup))).
Proof.
  intros Hin Hnum Hvis.
  assert (Hentry : In (phone_entry num) (fst (extract_phones soup))).
  { rewrite extract_phones_parts.
    apply (appends_In text_step_appends).
    apply (tel_loop_reports _ _ Hin Hnum Hvis).
    intros n []. }
  split; [exact Hentry |].
  intros err Hp. rewrite <- (normalize_phone_fallback num Hp). exact Hentry.
Qed.

(** C7.  The entries the loop over the visible text adds to those of the
    anchors all have seven digits or more in [original]; and a fragment
    whose match of the phone pattern, stripped, holds fewer than seven
    digits adds nothing. *)
Theorem text_phone_needs_seven_digits (soup : node) :
  (exists added,
     fst (extract_phones soup)
     = fst (fold_left tel_step (find_all (py "a") soup) ([], [])) ++ added
     /\ Forall (fun p => 7 <= length (digits_only (original p))) added)
  /\ (forall st parent txt whole,
        re_search PHONE_RE txt = Some whole ->
        length (digits_only (strip whole)) < 7 ->
        text_step st (parent, txt) = st).
Proof.
  split.
  - rewrite extract_phones_parts.
    apply (fold_left_appends text_step_appends).
  - intros st parent txt whole Hs Hlen. unfold text_step. simpl.
    induction (findall PHONE_RE txt) as [| m ms IH]; [reflexivity |].
    simpl. replace (text_phone_step parent txt st m) with st; [exact IH |].
    destruct st as [phones seen]. unfold text_phone_step. rewrite Hs.
    apply Nat.ltb_lt in Hlen. now rewrite Hlen.
Qed.

End PhoneLoops.

Lemma tel_link_always_reported_witness :
  In {| original := []; normalized := [] |}
    (fst (extract_phones Examples.short_tel_page)).
Proof.
  assert (Hin : In Examples.empty_tel_anchor
                  (find_all (py "a") Examples.short_tel_page)).
  { vm_compute. right. left. reflexivity. }
  assert (Hnum : tel_number Examples.empty_tel_anchor = Some [])
    by (vm_compute; reflexivity).
  assert (Hvis : _is_hidden (Some Examples.empty_tel_anchor) = false)
    by (vm_compute; reflexivity).
  destruct (tel_link_always_reported Examples.short_tel_page
              Examples.empty_tel_anchor Hin Hnum Hvis) as [_ Hentry].
  apply (Hentry (py "NumberParseException")). vm_compute. reflexivity.
Defined.

Lemma text_phone_needs_seven_digits_witness :
  re_search PHONE_RE (py "ref 1------2 end") = Some (py "1------2")
  /\ text_step ([], []) (None, py "ref 1------2 end") = ([], [])
  /\ fst (extract_phones Examples.phone_text_page)
     = [{| original := py "98765 43210"; normalized := py "+919876543210" |}].
Proof.
  split; [reflexivity |]. split; [| reflexivity].
  destruct (text_phone_needs_seven_digits Examples.phone_text_page) as [_ Hskip].
  apply Hskip with (whole := py "1------2"); [reflexivity |].
  vm_compute. repeat constructor.
Defined.

(* ----------------------------------------------------------------- *)
(** *** The order of strings and [sorted] *)

Lemma str_ltb_irrefl (a : str) : str_ltb a a = false.
Proof.
  induction a as [| x a IH]; simpl; [reflexivity |].
  now rewrite N.ltb_irrefl, N.eqb_refl, IH.
Qed.

Lemma str_ltb_trans (a b c : str) :
  str_ltb a b = true -> str_ltb b c = true -> str_ltb a c = true.
Proof.
  revert b c. induction a as [| x a IH]; intros [| y b] [| z c]; simpl;
    try congruence.
  intros Hab Hbc.
  destruct (N.ltb_spec x y), (N.eqb_spec x y), (N.ltb_spec y z),
    (N.eqb_spec y z), (N.ltb_spec x z), (N.eqb_spec x z);
    simpl in *; try congruence; try lia.
  eauto.
Qed.

(** Of two different strings one is below the other. *)
Lemma str_ltb_total (a b : str) :
  str_ltb a b = false -> str_ltb b a = false -> a = b.
Proof.
  revert b. induction a as [| x a IH]; intros [| y b]; simpl;
    try congruence.
  intros Hab Hba.
  destruct (N.ltb_spec x y), (N.eqb_spec x y), (N.ltb_spec y x),
    (N.eqb_spec y x); simpl in *; try congruence; try lia.
  subst. f_equal. now apply IH.
Qed.

Lemma str_ltb_asym (a b : str) : str_ltb a b = true -> str_ltb b a = false.
Proof.
  intros Hab. destruct (str_ltb b a) eqn:Hba; [| reflexivity].
  now rewrite <- (str_ltb_irrefl a), <- (str_ltb_trans _ _ _ Hab Hba).
Qed.

Lemma insert_str_In (x y : str) (l : list str) :
  In y (insert_str x l) <-> y = x \/ In y l.
Proof.
  induction l as [| z l IH]; simpl; [intuition congruence |].
  destruct (str_ltb z x); simpl; [rewrite IH |]; intuition congruence.
Qed.

Lemma sorted_str_In (y : str) (l : list str) : In y (sorted_str l) <-> In y l.
Proof.
  induction l as [| x l IH]; simpl; [reflexivity |].
  rewrite insert_str_In, IH. intuition congruence.
Qed.

Lemma insert_str_sorted (x : str) (l : list str) :
  ~ In x l -> StronglySorted str_lt l -> StronglySorted str_lt (insert_str x l).
Proof.
  intros Hx Hs. induction Hs as [| z l Hs IH Hz]; simpl.
  - repeat constructor.
  - destruct (str_ltb z x) eqn:E.
    + constructor.
      * apply IH. intros Hin. apply Hx. now right.
      * apply Forall_forall. intros y Hy. apply insert_str_In in Hy.
        destruct Hy as [-> | Hy]; [exact E |].
        rewrite Forall_forall in Hz. now apply Hz.
    + assert (Hxz : str_lt x z).
      { unfold str_lt. destruct (str_ltb x z) eqn:E'; [reflexivity |].
        exfalso. apply Hx. left. symmetry. now apply str_ltb_total. }
      constructor; [now constructor |].
      constructor; [exact Hxz |].
      apply Forall_forall. intros y Hy. rewrite Forall_forall in Hz.
      apply (str_ltb_trans _ _ _ Hxz). now apply Hz.
Qed.

(** [sorted] of a set is strictly increasing. *)
Lemma sorted_str_sorted (l : list str) :
  NoDup l -> StronglySorted str_lt (sorted_str l).
Proof.
  induction 1 as [| x l Hx Hnd IH]; simpl; [constructor |].
  apply insert_str_sorted; [| exact IH].
  now rewrite sorted_str_In.
Qed.

Lemma set_add_In (x y : str) (s : list str) :
  In x (set_add y s) <-> x = y \/ In x s.
Proof.
  unfold set_add. destruct (mem y s) eqn:E.
  - apply mem_In in E. intuition congruence.
  - rewrite in_app_iff. simpl. intuition congruence.
Qed.

Lemma NoDup_snoc {A} (x : A) (l : list A) :
  ~ In x l -> NoDup l -> NoDup (l ++ [x]).
Proof.
  intros Hx Hnd.
  apply (Permutation_NoDup (Permutation_cons_append l x)).
  now constructor.
Qed.

Lemma set_add_NoDup (y : str) (s : list str) : NoDup s -> NoDup (set_add y s).
Proof.
  intros Hnd. unfold set_add. destruct (mem y s) eqn:E; [exact Hnd |].
  apply mem_not_In in E. now apply NoDup_snoc.
Qed.

(* ----------------------------------------------------------------- *)
(** *** The two loops of [extract_emails] *)

Section EmailLoops.

Context `{PyRuntime}.

Lemma mailto_step_In (x : str) (emails : list str) (a : loc) :
  In x (mailto_step emails a)
  <-> In x emails
      \/ (mailto_address a = Some x /\ _is_hidden (Some a) = false).
Proof.
  unfold mailto_step, mailto_address.
  destruct (startswith (py "mailto:") _); [| intuition congruence].
  destruct (re_match EMAIL_RE _) as [m |]; [| intuition congruence].
  destruct (_is_hidden (Some a)); simpl; [intuition congruence |].
  rewrite set_add_In. intuition congruence.
Qed.

Lemma mailto_step_NoDup (emails : list str) (a : loc) :
  NoDup emails -> NoDup (mailto_step emails a).
Proof.
  intros Hnd. unfold mailto_step.
  destruct (startswith (py "mailto:") _); [| exact Hnd].
  destruct (re_match EMAIL_RE _) as [m |]; [| exact Hnd].
  destruct (negb _); [now apply set_add_NoDup | exact Hnd].
Qed.

Lemma mailto_loop_In (x : str) (l : list loc) (emails : list str) :
  In x (fold_left mailto_step l emails)
  <-> In x emails
      \/ exists a, In a l /\ mailto_address a = Some x
                   /\ _is_hidden (Some a) = false.
Proof.
  revert emails. induction l as [| a l IH]; intros emails; simpl.
  - split; [now left | intros [Hin | [a [[] _]]]; exact Hin].
  - rewrite IH, mailto_step_In. split.
    + intros [[Hin | Ha] | [b [Hb Hx]]]; eauto 6.
    + intros [Hin | [b [[<- | Hb] Hx]]]; eauto 6.
Qed.

Lemma mailto_loop_NoDup (l : list loc) (emails : list str) :
  NoDup emails -> NoDup (fold_left mailto_step l emails).
Proof.
  revert emails. induction l as [| a l IH]; intros emails Hnd; simpl;
    [exact Hnd |].
  apply IH. now apply mailto_step_NoDup.
Qed.

Lemma add_all_In (x : str) (ms emails : list str) :
  In x (fold_left (fun emails m => set_add m emails) ms emails)
  <-> In x emails \/ In x ms.
Proof.
  revert emails. induction ms as [| m ms IH]; intros emails; simpl.
  - intuition.
  - rewrite IH, set_add_In. intuition congruence.
Qed.

Lemma add_all_NoDup (ms emails : list str) :
  NoDup emails ->
  NoDup (fold_left (fun emails m => set_add m emails) ms emails).
Proof.
  revert emails. induction ms as [| m ms IH]; intros emails Hnd; simpl;
    [exact Hnd |].
  apply IH. now apply set_add_NoDup.
Qed.

Lemma text_loop_In (x : str) (texts : list (option loc * str))
    (emails : list str) :
  In x (fold_left (fun emails pt =>
                     fold_left (fun emails m => set_add m emails)
                       (findall EMAIL_RE (snd pt)) emails) texts emails)
  <-> In x emails
      \/ exists pt, In pt texts /\ In x (findall EMAIL_RE (snd pt)).
Proof.
  revert emails. induction texts as [| pt texts IH]; intros emails; simpl.
  - split; [now left | intros [Hin | [pt [[] _]]]; exact Hin].
  - rewrite IH, add_all_In. split.
    + intros [[Hin | Hm] | [q [Hq Hx]]]; eauto 6.
    + intros [Hin | [q [[<- | Hq] Hx]]]; eauto 6.
Qed.

Lemma text_loop_NoDup (texts : list (option loc * str)) (emails : list str) :
  NoDup emails ->
  NoDup (fold_left (fun emails pt =>
                      fold_left (fun emails m => set_add m emails)
                        (findall EMAIL_RE (snd pt)) emails) texts emails).
Proof.
  revert emails. induction texts as [| pt texts IH]; intros emails Hnd; simpl;
    [exact Hnd |].
  apply IH. now apply add_all_NoDup.
Qed.

Lemma extract_emails_parts (soup : node) :
  fst (extract_emails soup)
  = sorted_str
      (fold_left (fun emails pt =>
                    fold_left (fun emails m => set_add m emails)
                      (findall EMAIL_RE (snd pt)) emails)
         (fst (_visible_texts soup))
         (fold_left mailto_step (find_all (py "a") soup) [])).
Proof. reflexivity. Qed.

(** The output of [extract_emails], for every soup. *)
Lemma extract_emails_In (soup : node) (x : str) :
  In x (fst (extract_emails soup))
  <-> (exists a, In a (find_all (py "a") soup)
                 /\ mailto_address a = Some x
                 /\ _is_hidden (Some a) = false)
      \/ (exists pt, In pt (fst (_visible_texts soup))
                     /\ In x (findall EMAIL_RE (snd pt))).
Proof.
  rewrite extract_emails_parts, sorted_str_In, text_loop_In, mailto_loop_In.
  simpl. intuition.
Qed.

Lemma extract_emails_sorted (soup : node) :
  StronglySorted str_lt (fst (extract_emails soup)).
Proof.
  rewrite extract_emails_parts. apply sorted_str_sorted.
  apply text_loop_NoDup, mailto_loop_NoDup. constructor.
Qed.

(** C10.  For a visible anchor whose href starts with [mailto:], in any
    case of letters, the address is what follows the scheme, cut at the
    first question mark and stripped.  When the e-mail pattern matches at
    its start, whatever the length [m] of the match, the whole address is
    in the output of [extract_emails]. *)
Theorem mailto_address_added_whole (soup : node) (a : loc) (m : str) :
  let href := get_or_empty (here a) (py "href") in
  let addr := strip (after_scheme href) in
  In a (find_all (py "a") soup) ->
  startswith (py "mailto:") (lower href) = true ->
  re_match EMAIL_RE addr = Some m ->
  _is_hidden (Some a) = false ->
  In addr (fst (extract_emails soup)).
Proof.
  intros href addr Hin Hscheme Hmatch Hvis.
  apply extract_emails_In. left. exists a.
  repeat split; try assumption.
  unfold mailto_address. fold href. rewrite Hscheme. fold addr.
  now rewrite Hmatch.
Qed.

End EmailLoops.

Lemma mailto_address_added_whole_witness :
  re_match EMAIL_RE (py "a@b.com, c@d.org") = Some (py "a@b.com")
  /\ In (py "a@b.com, c@d.org")
       (fst (extract_emails Examples.long_mailto_page)).
Proof.
  split; [reflexivity |].
  assert (Hin : exists a, In a (find_all (py "a") Examples.long_mailto_page)
                          /\ get_or_empty (here a) (py "href")
                             = py "MailTo: a@b.com, c@d.org ?subject=hi"
                          /\ _is_hidden (Some a) = false).
  { eexists. split; [vm_compute; left; reflexivity |].
    split; vm_compute; reflexivity. }
  destruct Hin as [a [Hin [Hhref Hvis]]].
  assert (Haddr : strip (after_scheme (get_or_empty (here a) (py "href")))
                  = py "a@b.com, c@d.org") by (rewrite Hhref; reflexivity).
  rewrite <- Haddr.
  apply (mailto_address_added_whole Examples.long_mailto_page a
           (m := py "a@b.com")).
  - exact Hin.
  - rewrite Hhref. reflexivity.
  - rewrite Haddr. reflexivity.
  - exact Hvis.
Defined.

(** What [split(':', 1)[1]] and [split('?')[0]] leave of a string. *)
Lemma split_once_second (s cur : str) :
  nth 1 (split_once_aux (ch ":") s cur) [] = drop_scheme s.
Proof.
  revert cur. induction s as [| c s IH]; intros cur;
    cbn [split_once_aux drop_scheme]; [reflexivity |].
  destruct (N.eqb c (ch ":")); [reflexivity | apply IH].
Qed.

Lemma split_on_head (s cur : str) :
  nth 0 (split_on_aux (ch "?") s cur) [] = rev cur ++ drop_query s.
Proof.
  revert cur. induction s as [| c s IH]; intros cur;
    cbn [split_on_aux drop_query].
  - cbn [nth]. now rewrite app_nil_r.
  - destruct (N.eqb c (ch "?")).
    + cbn [nth]. now rewrite app_nil_r.
    + rewrite IH. cbn [rev]. now rewrite <- app_assoc.
Qed.

Lemma after_scheme_dropped (href : str) :
  after_scheme href = drop_query (drop_scheme href).
Proof.
  unfold after_scheme, split_on, split_once.
  now rewrite split_once_second, split_on_head.
Qed.

Section MailLinks.

Context `{PyRuntime}.

(** The address the first loop of [extract_emails] reads off an anchor is
    the address of a mail link the pattern matches at its start. *)
Lemma mailto_address_spec (a : loc) (x : str) :
  mailto_address a = Some x
  <-> startswith (py "mailto:") (lower (get_or_empty (here a) (py "href")))
      = true
      /\ x = mail_address (get_or_empty (here a) (py "href"))
      /\ re_match EMAIL_RE x <> None.
Proof.
  unfold mailto_address, mail_address. rewrite after_scheme_dropped.
  destruct (startswith (py "mailto:") _); [| split; [| intros [? _]]; discriminate].
  destruct (re_match EMAIL_RE _) as [m |] eqn:Em; split.
  - intros [= <-]. rewrite Em. repeat split. discriminate.
  - intros [_ [-> _]]. reflexivity.
  - discriminate.
  - intros [_ [-> Hm]]. now rewrite Em in Hm.
Qed.

End MailLinks.

(** C6.  The output of [extract_emails] is strictly increasing in the
    order of strings, so sorted and without repetition; it holds exactly
    the addresses of the visible mail links of the soup and the matches of
    the e-mail pattern in the visible fragments of text.  A mail link is
    an anchor whose href starts with [mailto:] in any case of letters; its
    address is the href without the scheme and the query, trimmed, and
    counts when the pattern matches at its start.  On the page
    [<a href="mailto:a@b.com">x</a><p>a@b.com c@d.org</p>] the output is
    [a@b.com], [c@d.org]; on a page whose only address stands in a mail
    link it is that address. *)
Theorem emails_sorted_union :
  (forall (R : PyRuntime) (soup : node),
     StronglySorted str_lt (fst (extract_emails soup))
     /\ forall x,
          In x (fst (extract_emails soup))
          <-> (exists a,
                 In a (find_all (py "a") soup)
                 /\ startswith (py "mailto:")
                      (lower (get_or_empty (here a) (py "href"))) = true
                 /\ x = mail_address (get_or_empty (here a) (py "href"))
                 /\ re_match EMAIL_RE x <> None
                 /\ _is_hidden (Some a) = false)
              \/ (exists pt, In pt (fst (_visible_texts soup))
                             /\ In x (findall EMAIL_RE (snd pt))))
  /\ fst (extract_emails Examples.email_page) = [py "a@b.com"; py "c@d.org"]
  /\ mail_address (py "MAILTO: Jane.Doe@Example.org ?subject=Hi")
     = py "Jane.Doe@Example.org"
  /\ fst (extract_emails Examples.mail_link_page) = [py "Jane.Doe@Example.org"].
Proof.
  split; [| repeat split; vm_compute; reflexivity].
  intros R soup. split.
  - apply extract_emails_sorted.
  - intros x. rewrite extract_emails_In. split.
    + intros [[a [Hin [Haddr Hvis]]] | Htext]; [left | now right].
      apply mailto_address_spec in Haddr. exists a. tauto.
    + intros [[a [Hin [Hscheme [Hx [Hm Hvis]]]]] | Htext]; [left | now right].
      exists a. split; [exact Hin |]. split; [| exact Hvis].
      apply mailto_address_spec. tauto.
Qed.

(* ----------------------------------------------------------------- *)
(** *** [extract_socials] *)

Lemma filter_filter {A} (p q : A -> bool) (l : list A) :
  filter p (filter q l) = filter (fun x => q x && p x) l.
Proof.
  induction l as [| x l IH]; simpl; [reflexivity |].
  destruct (q x); simpl; [destruct (p x) |]; now rewrite IH.
Qed.

Lemma first_seen_In (x : str) (l : list str) : In x (first_seen l) <-> In x l.
Proof.
  induction l as [| y l IH]; simpl; [reflexivity |].
  rewrite filter_In, IH, negb_true_iff, str_eqb_neq.
  destruct (list_eq_dec N.eq_dec x y); intuition congruence.
Qed.

Lemma first_seen_NoDup (l : list str) : NoDup (first_seen l).
Proof.
  induction l as [| y l IH]; simpl; constructor.
  - rewrite filter_In, negb_true_iff, str_eqb_neq. intuition.
  - now apply NoDup_filter.
Qed.

Section SocialFacts.

Context `{PyRuntime}.

(** The second loop of [extract_socials] computes [first_seen]. *)
Lemma dedupe_first_seen (found seen out : list str) :
  dedupe found seen out
  = out ++ filter (fun y => negb (mem y seen)) (first_seen found).
Proof.
  revert seen out. induction found as [| u rest IH]; intros seen out; simpl.
  - now rewrite app_nil_r.
  - rewrite filter_filter. destruct (mem u seen) eqn:E; rewrite IH; simpl.
    + f_equal. apply filter_ext_in. intros y _.
      destruct (str_eqb y u) eqn:Ey; simpl; [| reflexivity].
      apply str_eqb_eq in Ey. subst y. now rewrite E.
    + rewrite <- app_assoc. simpl. do 2 f_equal.
      apply filter_ext. intros y. destruct (str_eqb y u); reflexivity.
Qed.

Lemma scan_domains_javascript (doms : list str) (href_lower full : str) :
  startswith (py "javascript:") href_lower = true ->
  scan_domains doms href_lower full = [].
Proof.
  intros Hjs. induction doms as [| dom rest IH]; cbn [scan_domains];
    [reflexivity |].
  rewrite Hjs. now destruct (contains dom href_lower).
Qed.

Lemma scan_domains_found (doms : list str) (href_lower full : str) :
  scan_domains doms href_lower full
  = if existsb (fun dom => contains dom href_lower) doms
       && negb (startswith (py "javascript:") href_lower)
    then [full] else [].
Proof.
  destruct (startswith (py "javascript:") href_lower) eqn:Hjs.
  - rewrite scan_domains_javascript by assumption. now rewrite andb_false_r.
  - rewrite andb_true_r.
    induction doms as [| dom rest IH]; cbn [scan_domains existsb];
      [reflexivity |].
    rewrite Hjs. now destruct (contains dom href_lower).
Qed.

(** The first loop of [extract_socials] calls [urljoin] for every anchor
    with a non-empty href, and appends what it returns when [social_link]
    accepts the anchor. *)
Lemma social_of_joined (base_url : str) (a : loc) :
  social_of base_url a
  = match joined_href a with
    | Some href =>
        match urljoin base_url href with
        | Return _ => Return (resolved_link base_url a)
        | Raise e => Raise e
        end
    | None => Return []
    end.
Proof.
  unfold social_of, joined_href, resolved_link, social_link, bind.
  destruct (get (here a) (py "href")) as [[| c href] |]; try reflexivity.
  destruct (urljoin base_url (c :: href)) as [u | e] eqn:Eu; [| reflexivity].
  rewrite scan_domains_found.
  destruct (existsb _ SOCIAL_DOMAINS && _); [| reflexivity].
  now rewrite Eu.
Qed.

Lemma social_of_returns (base_url : str) (a : loc) (ys : list str) :
  social_of base_url a = Return ys -> ys = resolved_link base_url a.
Proof.
  rewrite social_of_joined.
  destruct (joined_href a) as [href |] eqn:Ej.
  - destruct (urljoin base_url href); congruence.
  - intros [= <-]. unfold resolved_link, social_link.
    unfold joined_href in Ej.
    now destruct (get (here a) (py "href")) as [[| c href] |].
Qed.

Lemma social_of_returns_iff (base_url : str) (a : loc) :
  (exists ys, social_of base_url a = Return ys)
  <-> (forall href, joined_href a = Some href ->
         exists u, urljoin base_url href = Return u).
Proof.
  rewrite social_of_joined.
  destruct (joined_href a) as [href |].
  - split.
    + intros [ys Hys] href' [= <-].
      destruct (urljoin base_url href) as [u | e]; [now exists u | discriminate].
    + intros Hall. destruct (Hall href eq_refl) as [u ->]. now eexists.
  - split; [discriminate | now eexists].
Qed.

(** The list [found] when the first loop has run to its end. *)
Lemma found_resolved (base_url : str) (l : list loc) (found : list str) :
  collect (social_of base_url) l = Return found ->
  found = flat_map (resolved_link base_url) l.
Proof.
  revert found. induction l as [| a l IH]; intros found Hc;
    cbn [collect] in Hc.
  - now injection Hc as <-.
  - unfold bind in Hc.
    destruct (social_of base_url a) as [ys |] eqn:Ea; [| discriminate].
    destruct (collect _ l) as [zs |] eqn:El; [| discriminate].
    injection Hc as <-. cbn [flat_map].
    now rewrite (social_of_returns _ _ Ea), (IH zs eq_refl).
Qed.

(** C4, with the call that may raise.  [extract_socials] returns exactly
    when [urljoin] returns for the href of every anchor that has one.
    When it returns, an anchor with a non-empty href whose lower case
    holds one of the social domains and does not start with
    [javascript:] has its resolved URL in the output; whether the anchor
    is hidden is not asked.  The output is the list of the URLs of these
    anchors, in the order of the document, with every URL kept where it is
    first seen and removed where it is seen again. *)
Theorem social_links_first_seen (soup : node) (base_url : str) :
  ((exists out, extract_socials soup base_url = Return out)
   <-> (forall a href,
          In a (find_all (py "a") soup) ->
          joined_href a = Some href ->
          exists u, urljoin base_url href = Return u))
  /\ (forall out,
        extract_socials soup base_url = Return out ->
        (forall a href,
           In a (find_all (py "a") soup) ->
           get (here a) (py "href") = Some href ->
           href <> [] ->
           (exists dom,
              In dom SOCIAL_DOMAINS /\ contains dom (lower href) = true) ->
           startswith (py "javascript:") (lower href) = false ->
           exists u, urljoin base_url href = Return u /\ In u out)
        /\ out = first_seen
                   (flat_map (resolved_link base_url) (find_all (py "a") soup))
        /\ NoDup out).
Proof.
  split.
  - unfold extract_socials, bind. split.
    + intros [out Hout] a href Hin Hj.
      destruct (collect _ _) as [found |] eqn:Hc; [| discriminate].
      apply (social_of_returns_iff base_url a); [| exact Hj].
      exact (collect_returns_each _ _ Hc a Hin).
    + intros Hall.
      destruct (collect_returns (social_of base_url) (find_all (py "a") soup))
        as [found Hfound].
      * intros a Hin. apply social_of_returns_iff. intros href.
        now apply Hall.
      * rewrite Hfound. now eexists.
  - intros out Hret. unfold extract_socials, bind in Hret.
    destruct (collect _ _) as [found |] eqn:Hc; [| discriminate].
    injection Hret as <-.
    assert (Hout : dedupe found [] []
                   = first_seen (flat_map (resolved_link base_url)
                                   (find_all (py "a") soup))).
    { rewrite dedupe_first_seen, (found_resolved _ _ Hc). simpl.
      induction (first_seen _) as [| x l IH]; simpl; [reflexivity |].
      now rewrite IH. }
    split; [| split; [exact Hout | rewrite Hout; apply first_seen_NoDup]].
    intros a href Hin Hhref Hne [dom [Hdom Hcontains]] Hjs.
    destruct href as [| c href]; [contradiction |].
    destruct (collect_returns_each _ _ Hc a Hin) as [ys Hys].
    assert (Hj : joined_href a = Some (c :: href))
      by (unfold joined_href; now rewrite Hhref).
    destruct (proj1 (social_of_returns_iff base_url a) (ex_intro _ ys Hys)
                (c :: href) Hj) as [u Hu].
    exists u. split; [exact Hu |].
    rewrite Hout, first_seen_In, in_flat_map. exists a. split; [exact Hin |].
    unfold resolved_link, social_link. rewrite Hhref.
    replace (existsb _ SOCIAL_DOMAINS) with true.
    + rewrite Hjs. cbn [andb negb]. rewrite Hu. now left.
    + symmetry. apply existsb_exists. now exists dom.
Qed.

End SocialFacts.

(** C4 as it is written, at a concrete document: the first anchor has a
    social href that resolves, the second an href [urljoin] raises on, and
    [extract_socials] raises instead of reporting the URL of the first. *)
Lemma social_links_lost_to_unresolvable_href :
  let soup := Examples.unresolvable_href_page in
  let base := py "http://example.com/" in
  (exists a,
     In a (find_all (py "a") soup)
     /\ get (here a) (py "href") = Some (py "https://facebook.com/jane")
     /\ contains (py "facebook.com") (lower (py "https://facebook.com/jane"))
        = true
     /\ startswith (py "javascript:") (lower (py "https://facebook.com/jane"))
        = false
     /\ urljoin base (py "https://facebook.com/jane")
        = Return (py "https://facebook.com/jane"))
  /\ urljoin base (py "http://[linkedin.com/x") = Raise (py "Invalid IPv6 URL")
  /\ extract_socials soup base = Raise (py "Invalid IPv6 URL")
  /\ ~ exists out,
         extract_socials soup base = Return out
         /\ In (py "https://facebook.com/jane") out.
Proof.
  intros soup base.
  assert (Hraise : extract_socials soup base = Raise (py "Invalid IPv6 URL"))
    by (vm_compute; reflexivity).
  split; [| split; [reflexivity | split; [exact Hraise |]]].
  - eexists. split; [vm_compute; left; reflexivity |].
    repeat split; reflexivity.
  - intros [out [Hout _]]. rewrite Hraise in Hout. discriminate Hout.
Qed.

Lemma social_links_first_seen_witness :
  _is_hidden (Some Examples.hidden_social_anchor) = true
  /\ (exists u,
        urljoin (py "http://example.com/") (py "https://facebook.com/jane")
        = Return u
        /\ In u [py "https://LinkedIn.com/in/jane";
                 py "https://facebook.com/jane"])
  /\ extract_socials Examples.hidden_social_page (py "http://example.com/")
     = Return [py "https://LinkedIn.com/in/jane"; py "https://facebook.com/jane"].
Proof.
  assert (Hout : extract_socials Examples.hidden_social_page
                   (py "http://example.com/")
                 = Return [py "https://LinkedIn.com/in/jane";
                           py "https://facebook.com/jane"])
    by (vm_compute; reflexivity).
  split; [reflexivity |]. split; [| exact Hout].
  destruct (social_links_first_seen Examples.hidden_social_page
              (py "http://example.com/")) as [_ Hreturned].
  destruct (Hreturned _ Hout) as [Hreported _].
  apply (Hreported Examples.hidden_social_anchor
           (py "https://facebook.com/jane")).
  - vm_compute. right. left. reflexivity.
  - reflexivity.
  - discriminate.
  - exists (py "facebook.com"). split; [| reflexivity].
    right. left. reflexivity.
  - reflexivity.
Defined.

(* ----------------------------------------------------------------- *)
(** *** The title pass *)

Lemma lstrip_idempotent (s : str) : lstrip (lstrip s) = lstrip s.
Proof.
  induction s as [| c s IH]; simpl; [reflexivity |].
  destruct (isspace c) eqn:E; [exact IH |]. simpl. now rewrite E.
Qed.

Lemma strip_rstrip (s : str) : strip (rstrip s) = strip s.
Proof.
  unfold strip, rstrip.
  now rewrite rev_involutive, lstrip_idempotent.
Qed.

Lemma before_sep_no_sep (title : str) :
  existsb title_sep title = false -> before_sep title = title.
Proof.
  induction title as [| c s IH]; simpl; [reflexivity |].
  intros Hno. apply orb_false_iff in Hno. destruct Hno as [Hc Hs].
  rewrite Hc. now rewrite IH.
Qed.

(** Stripped, the first part is what stands before the first separator. *)
Lemma strip_first_part (title : str) :
  strip (first_part title) = strip (before_sep title).
Proof.
  unfold first_part. destruct (existsb title_sep title) eqn:E.
  - apply strip_rstrip.
  - now rewrite before_sep_no_sep.
Qed.

Lemma rep_alts_head (cls : char -> bool) (s : str) :
  exists rest more,
    rep_alts cls 0 None s = rest :: more /\ length rest <= length s.
Proof.
  unfold rep_alts. rewrite Nat.sub_0_r, Nat.add_1_r, seq_S, rev_app_distr.
  simpl. eexists. eexists. split; [reflexivity |].
  rewrite length_skipn. lia.
Qed.

(** The pattern of the title at a separator and elsewhere. *)
Lemma title_match_sep (c : char) (s : str) :
  title_sep c = true ->
  exists m, re_match TITLE_SPLIT_RE (c :: s) = Some (c :: m).
Proof.
  intros Hc. unfold re_match, TITLE_SPLIT_RE.
  cbn [alts]. unfold rep_alts at 2. cbn [run_length]. rewrite Hc.
  cbn [Nat.min Nat.add Nat.sub seq rev app map flat_map skipn].
  destruct (rep_alts_head isspace s) as [rest [more [E Hlen]]].
  cbn [alts]. rewrite E. cbn [app length].
  destruct (S (length s) - length rest) as [| k] eqn:Ek; [lia |].
  eexists. reflexivity.
Qed.

Lemma title_match_other (c : char) (s : str) :
  title_sep c = false -> re_match TITLE_SPLIT_RE (c :: s) = None.
Proof.
  intros Hc. unfold re_match, TITLE_SPLIT_RE.
  cbn [alts]. unfold rep_alts at 2. cbn [run_length]. rewrite Hc.
  reflexivity.
Qed.

(** The first part [re.split] returns for the title. *)
Lemma re_split_title_head (title cur : str) :
  exists parts,
    re_split_aux TITLE_SPLIT_RE title 0 cur
    = (rev cur ++ before_sep title) :: parts.
Proof.
  revert cur. induction title as [| c s IH]; intros cur; cbn [re_split_aux].
  - exists []. simpl. now rewrite app_nil_r.
  - cbn [before_sep]. destruct (title_sep c) eqn:Hc.
    + destruct (title_match_sep c s Hc) as [m Hm]. rewrite Hm.
      eexists. now rewrite app_nil_r.
    + rewrite (title_match_other c s Hc).
      destruct (IH (c :: cur)) as [parts Hparts]. rewrite Hparts.
      exists parts. simpl. now rewrite <- app_assoc.
Qed.

Section NameFacts.

Context `{PyRuntime}.

Lemma add_candidate_keeps (cands : list NameCandidate) (nm : str) (conf : Z)
    (why : str) (c : NameCandidate) :
  In c cands -> In c (add_candidate cands nm conf why).
Proof. intros Hin. unfold add_candidate. apply in_or_app. now left. Qed.

Lemma fold_left_keeps {X} (step : list NameCandidate -> X -> list NameCandidate)
    (c : NameCandidate) :
  (forall acc x, In c acc -> In c (step acc x)) ->
  forall l acc, In c acc -> In c (fold_left step l acc).
Proof.
  intros Hstep l. induction l as [| x l IH]; intros acc Hin; simpl;
    [exact Hin |].
  apply IH. now apply Hstep.
Qed.

Lemma heading_candidate_keeps (cns : list loc) (tag : str)
    (cands : list NameCandidate) (h : loc) (c : NameCandidate) :
  In c cands -> In c (heading_candidate cns tag cands h).
Proof.
  intros Hin. unfold heading_candidate.
  destruct (_is_hidden (Some h)); [exact Hin |].
  destruct (get_text h); [exact Hin |].
  destruct (existsb _ cns); now apply add_candidate_keeps.
Qed.

Lemma keyed_candidate_keeps (conf : Z) (why : str)
    (cands : list NameCandidate) (el : loc) (c : NameCandidate) :
  In c cands -> In c (keyed_candidate conf why cands el).
Proof.
  intros Hin. unfold keyed_candidate.
  destruct (_is_hidden (Some el)); [exact Hin |].
  destruct (get_text el) as [| x text] eqn:E; [exact Hin |].
  destruct (length (x :: text) <? 60); [now apply add_candidate_keeps |].
  exact Hin.
Qed.

Lemma pass_headings_keeps (soup : node) (cands : list NameCandidate)
    (c : NameCandidate) :
  In c cands -> In c (pass_headings soup cands).
Proof.
  unfold pass_headings. apply fold_left_keeps. intros acc tag.
  apply fold_left_keeps. intros acc' h. apply heading_candidate_keeps.
Qed.

Lemma pass_keys_keeps (soup : node) (cands : list NameCandidate)
    (c : NameCandidate) :
  In c cands -> In c (pass_keys soup cands).
Proof.
  unfold pass_keys. apply fold_left_keeps. intros acc k Hin.
  apply fold_left_keeps; [intros acc' el; apply keyed_candidate_keeps |].
  apply fold_left_keeps; [intros acc' el; apply keyed_candidate_keeps |].
  exact Hin.
Qed.

(** C3.  When the document has a title with text, the passes of
    [extract_name_candidates] leave in [candidates] an entry with
    confidence 0.5 and the reason [title (first part)] whose name is the
    first part of the title, stripped: the title split at its first [|],
    [-], en dash or em dash together with the white space around it. *)
Theorem title_first_part_candidate (soup : node) (title : str) :
  title_string soup = Some title ->
  In {| name := strip (first_part title); confidence := 50;
        reason := py "title (first part)" |}
    (raw_candidates soup).
Proof.
  intros Htitle. unfold raw_candidates.
  apply pass_keys_keeps, pass_headings_keeps.
  unfold pass_title. rewrite Htitle.
  unfold re_split.
  destruct (re_split_title_head title []) as [parts Hparts].
  rewrite Hparts. unfold add_candidate. apply in_or_app. right. left.
  now rewrite strip_first_part.
Qed.

End NameFacts.

Lemma title_first_part_candidate_witness :
  title_string Examples.title_page = Some (py " Jane Doe  - Home | Site")
  /\ first_part (py " Jane Doe  - Home | Site") = py " Jane Doe"
  /\ In {| name := py "Jane Doe"; confidence := 50;
           reason := py "title (first part)" |}
       (raw_candidates Examples.title_page).
Proof.
  split; [reflexivity |]. split; [reflexivity |].
  apply (title_first_part_candidate Examples.title_page
           (title := py " Jane Doe  - Home | Site")).
  reflexivity.
Defined.

(* ----------------------------------------------------------------- *)
(** *** Ranking the candidates *)

Lemma insert_by_confidence_perm (c : NameCandidate) (l : list NameCandidate) :
  Permutation (insert_by_confidence c l) (c :: l).
Proof.
  induction l as [| d l IH]; simpl; [reflexivity |].
  destruct (confidence c <? confidence d)%Z; [| reflexivity].
  rewrite IH. apply perm_swap.
Qed.

Lemma sorted_by_confidence_perm (l : list NameCandidate) :
  Permutation (sorted_by_confidence l) l.
Proof.
  induction l as [| c l IH]; simpl; [reflexivity |].
  rewrite insert_by_confidence_perm. now constructor.
Qed.

Lemma insert_by_confidence_sorted (c : NameCandidate) (l : list NameCandidate) :
  StronglySorted conf_ge l -> StronglySorted conf_ge (insert_by_confidence c l).
Proof.
  induction 1 as [| d l Hs IH Hd]; simpl; [repeat constructor |].
  destruct (Z.ltb_spec (confidence c) (confidence d)) as [Hlt | Hge].
  - constructor; [exact IH |].
    rewrite (insert_by_confidence_perm c l).
    constructor; [unfold conf_ge; lia | exact Hd].
  - constructor; [now constructor |].
    constructor; [exact Hge |].
    eapply Forall_impl; [| exact Hd]. unfold conf_ge. intros e He. lia.
Qed.

Lemma sorted_by_confidence_sorted (l : list NameCandidate) :
  StronglySorted conf_ge (sorted_by_confidence l).
Proof.
  induction l as [| c l IH]; simpl; [constructor |].
  now apply insert_by_confidence_sorted.
Qed.

(** The sort is stable: candidates of one confidence keep their order. *)
Lemma insert_by_confidence_stable (k : Z) (c : NameCandidate)
    (l : list NameCandidate) :
  filter (fun d => confidence d =? k)%Z (insert_by_confidence c l)
  = filter (fun d => confidence d =? k)%Z (c :: l).
Proof.
  induction l as [| d l IH]; [reflexivity |].
  cbn [insert_by_confidence].
  destruct (Z.ltb_spec (confidence c) (confidence d)) as [Hlt | Hge];
    [| reflexivity].
  cbn [filter] in *. rewrite IH.
  destruct (Z.eqb_spec (confidence c) k), (Z.eqb_spec (confidence d) k);
    try reflexivity.
  lia.
Qed.

Lemma sorted_by_confidence_stable (k : Z) (l : list NameCandidate) :
  filter (fun d => confidence d =? k)%Z (sorted_by_confidence l)
  = filter (fun d => confidence d =? k)%Z l.
Proof.
  induction l as [| c l IH]; [reflexivity |].
  cbn [sorted_by_confidence]. rewrite insert_by_confidence_stable.
  cbn [filter]. now rewrite IH.
Qed.

Lemma filter_split {A} (p : A -> bool) (l f1 f2 : list A) (x : A) :
  filter p l = f1 ++ x :: f2 ->
  exists l1 l2, l = l1 ++ x :: l2 /\ filter p l1 = f1 /\ filter p l2 = f2.
Proof.
  revert f1. induction l as [| y l IH]; intros f1 Hf; simpl in Hf.
  - now destruct f1.
  - destruct (p y) eqn:Ey.
    + destruct f1 as [| z f1]; simpl in Hf; injection Hf as -> Hf.
      * exists [], l. simpl. auto.
      * destruct (IH f1 Hf) as [l1 [l2 [-> [H1 H2]]]].
        exists (z :: l1), l2. simpl. rewrite Ey, H1. auto.
    + destruct (IH f1 Hf) as [l1 [l2 [-> [H1 H2]]]].
      exists (y :: l1), l2. simpl. rewrite Ey. auto.
Qed.

Lemma StronglySorted_remove {A} (R : A -> A -> Prop) (l1 l2 : list A) (x : A) :
  StronglySorted R (l1 ++ x :: l2) -> StronglySorted R (l1 ++ l2).
Proof.
  induction l1 as [| y l1 IH]; simpl; intros Hs; inversion Hs; subst.
  - assumption.
  - constructor; [now apply IH |].
    rewrite Forall_app in *. destruct H2 as [Ha Hb].
    inversion Hb. now split.
Qed.

Lemma StronglySorted_tail {A} (R : A -> A -> Prop) (l1 l2 : list A) :
  StronglySorted R (l1 ++ l2) -> StronglySorted R l2.
Proof.
  induction l1 as [| y l1 IH]; simpl; [trivial |].
  intros Hs. inversion Hs. now apply IH.
Qed.

(** The last loop of [extract_name_candidates] keeps the order of what
    it reads. *)
Lemma dedupe_names_sorted (cs : list NameCandidate) (seen : list str)
    (out : list NameCandidate) :
  StronglySorted conf_ge (out ++ cs) ->
  StronglySorted conf_ge (dedupe_names cs seen out).
Proof.
  revert seen out. induction cs as [| c rest IH]; intros seen out Hs; simpl.
  - now rewrite app_nil_r in Hs.
  - destruct (str_eqb (normalized_name c) [] || mem (normalized_name c) seen).
    + apply IH. now apply StronglySorted_remove in Hs.
    + apply IH. now rewrite <- app_assoc.
Qed.

Lemma dedupe_names_distinct (cs : list NameCandidate) (seen : list str)
    (out : list NameCandidate) :
  (forall n, In n seen <-> In n (map normalized_name out)) ->
  NoDup (map normalized_name out) ->
  ~ In [] (map normalized_name out) ->
  NoDup (map normalized_name (dedupe_names cs seen out))
  /\ ~ In [] (map normalized_name (dedupe_names cs seen out)).
Proof.
  revert seen out. induction cs as [| c rest IH]; intros seen out Hseen Hnd Hne;
    simpl; [now split |].
  destruct (str_eqb (normalized_name c) []) eqn:E1; simpl;
    [now apply IH |].
  destruct (mem (normalized_name c) seen) eqn:E2; [now apply IH |].
  apply str_eqb_neq in E1. apply mem_not_In in E2.
  apply IH.
  - intros n. rewrite map_app, in_app_iff. simpl. rewrite <- Hseen.
    intuition congruence.
  - rewrite map_app. simpl. apply NoDup_snoc; [| exact Hnd].
    now rewrite <- Hseen.
  - rewrite map_app, in_app_iff. simpl. intuition congruence.
Qed.

Lemma dedupe_names_keeps (cs : list NameCandidate) (seen : list str)
    (out : list NameCandidate) (c : NameCandidate) :
  In c out -> In c (dedupe_names cs seen out).
Proof.
  revert seen out. induction cs as [| d rest IH]; intros seen out Hin; simpl;
    [exact Hin |].
  destruct (str_eqb (normalized_name d) [] || mem (normalized_name d) seen);
    apply IH; [exact Hin |].
  apply in_or_app. now left.
Qed.

(** A kept candidate is the first of its normalized name in [cs]. *)
Lemma dedupe_names_first (cs : list NameCandidate) (seen : list str)
    (out : list NameCandidate) (c : NameCandidate) :
  In c (dedupe_names cs seen out) ->
  In c out
  \/ exists l1 l2, cs = l1 ++ c :: l2
       /\ normalized_name c <> []
       /\ ~ In (normalized_name c) seen
       /\ forall d, In d l1 -> normalized_name d <> normalized_name c.
Proof.
  revert seen out. induction cs as [| d rest IH]; intros seen out Hin;
    simpl in Hin; [now left |].
  destruct (str_eqb (normalized_name d) [] || mem (normalized_name d) seen)
    eqn:E.
  - destruct (IH _ _ Hin) as [Hout | [l1 [l2 [-> [Hne [Hns Hl1]]]]]];
      [now left |].
    right. exists (d :: l1), l2. repeat split; try assumption.
    intros e [<- | He]; [| now apply Hl1].
    apply orb_prop in E. destruct E as [E | E].
    + apply str_eqb_eq in E. congruence.
    + apply mem_In in E. congruence.
  - apply orb_false_iff in E. destruct E as [E1 E2].
    apply str_eqb_neq in E1. apply mem_not_In in E2.
    destruct (IH _ _ Hin) as [Hout | [l1 [l2 [-> [Hne [Hns Hl1]]]]]].
    + apply in_app_or in Hout. destruct Hout as [Hout | [<- | []]];
        [now left |].
      right. exists [], rest. repeat split; try assumption.
      intros e [].
    + right. exists (d :: l1), l2. simpl in Hns.
      repeat split; try assumption; [intuition |].
      intros e [<- | He]; [intuition | now apply Hl1].
Qed.

(** Every non-empty normalized name of [cs] is the name of a kept
    candidate. *)
Lemma dedupe_names_covers (cs : list NameCandidate) (seen : list str)
    (out : list NameCandidate) (d : NameCandidate) :
  (forall n, In n seen -> In n (map normalized_name out)) ->
  In d cs ->
  normalized_name d <> [] ->
  In (normalized_name d) (map normalized_name (dedupe_names cs seen out)).
Proof.
  revert seen out. induction cs as [| e rest IH]; intros seen out Hseen Hin Hne;
    [contradiction |].
  simpl.
  destruct (str_eqb (normalized_name e) [] || mem (normalized_name e) seen)
    eqn:E.
  - destruct Hin as [-> | Hin]; [| now apply IH].
    apply orb_prop in E. destruct E as [E | E].
    + apply str_eqb_eq in E. contradiction.
    + apply mem_In, Hseen, in_map_iff in E. destruct E as [c [Hc Hin]].
      rewrite <- Hc. apply in_map. now apply dedupe_names_keeps.
  - assert (Hseen' : forall n, In n (normalized_name e :: seen) ->
                               In n (map normalized_name (out ++ [e]))).
    { intros n [<- | Hn]; rewrite map_app, in_app_iff; simpl; auto. }
    destruct Hin as [-> | Hin]; [| now apply IH].
    apply in_map, dedupe_names_keeps, in_or_app. right. now left.
Qed.

(** The ranking, for every list of raw candidates. *)
Lemma rank_candidates_spec (raw : list NameCandidate) :
  let out := rank_candidates raw in
  StronglySorted conf_ge out
  /\ NoDup (map normalized_name out)
  /\ (forall c, In c out ->
        normalized_name c <> []
        /\ exists r1 r2, raw = r1 ++ c :: r2
             /\ (forall d, In d r1 -> normalized_name d = normalized_name c ->
                           (confidence d < confidence c)%Z)
             /\ (forall d, In d r2 -> normalized_name d = normalized_name c ->
                           (confidence d <= confidence c)%Z))
  /\ (forall d, In d raw -> normalized_name d <> [] ->
        exists c, In c out /\ normalized_name c = normalized_name d).
Proof.
  intros out. unfold out, rank_candidates.
  pose proof (sorted_by_confidence_sorted raw) as Hsorted.
  pose proof (sorted_by_confidence_perm raw) as Hperm.
  split; [| split; [| split]].
  - now apply dedupe_names_sorted.
  - apply dedupe_names_distinct; simpl; [reflexivity | constructor | tauto].
  - intros c Hc.
    destruct (dedupe_names_first _ _ _ _ Hc)
      as [[] | [l1 [l2 [Hsplit [Hne [_ Hl1]]]]]].
    split; [exact Hne |].
    (* every candidate of the same name has at most the confidence of [c] *)
    assert (Hmax : forall d, In d raw ->
                     normalized_name d = normalized_name c ->
                     (confidence d <= confidence c)%Z).
    { intros d Hd Hname.
      apply (Permutation_in _ (Permutation_sym Hperm)) in Hd.
      rewrite Hsplit in Hd, Hsorted.
      apply in_app_or in Hd. destruct Hd as [Hd | [<- | Hd]].
      - now apply Hl1 in Hd.
      - lia.
      - apply StronglySorted_tail in Hsorted.
        inversion Hsorted as [| ? ? _ Hall]; subst.
        rewrite Forall_forall in Hall. now apply Hall. }
    pose proof (sorted_by_confidence_stable (confidence c) raw) as Hstable.
    rewrite Hsplit, filter_app in Hstable. cbn [filter] in Hstable.
    rewrite Z.eqb_refl in Hstable. symmetry in Hstable.
    destruct (filter_split _ _ _ _ _ Hstable) as [r1 [r2 [Hraw [Hr1 Hr2]]]].
    exists r1, r2. split; [exact Hraw |]. split.
    + intros d Hd Hname.
      assert (Hle : (confidence d <= confidence c)%Z).
      { apply Hmax; [| exact Hname]. rewrite Hraw. apply in_or_app. now left. }
      destruct (Z.eq_dec (confidence d) (confidence c)) as [Heq | Hneq];
        [| lia].
      exfalso. apply (Hl1 d); [| exact Hname].
      assert (Hin : In d (filter (fun d => confidence d =? confidence c)%Z r1)).
      { apply filter_In. split; [exact Hd | now apply Z.eqb_eq]. }
      rewrite Hr1 in Hin. now apply filter_In in Hin.
    + intros d Hd Hname. apply Hmax; [| exact Hname].
      rewrite Hraw. apply in_or_app. right. now right.
  - intros d Hd Hne.
    apply (Permutation_in _ (Permutation_sym Hperm)) in Hd.
    pose proof (dedupe_names_covers (sorted_by_confidence raw) [] [] d) as Hcov.
    apply in_map_iff in Hcov; [| intros n [] | exact Hd | exact Hne].
    destruct Hcov as [c [Hname Hc]]. now exists c.
Qed.

Lemma NoDup_map_eq {A B} (f : A -> B) (l : list A) (a b : A) :
  NoDup (map f l) -> In a l -> In b l -> f a = f b -> a = b.
Proof.
  induction l as [| x l IH]; simpl; [contradiction |].
  intros Hnd Ha Hb Hf. inversion Hnd as [| ? ? Hx Hnd']; subst.
  destruct Ha as [-> | Ha], Hb as [-> | Hb]; try reflexivity.
  - exfalso. apply Hx. rewrite Hf. now apply in_map.
  - exfalso. apply Hx. rewrite <- Hf. now apply in_map.
  - now apply IH.
Qed.

(** The first raw candidate stands alone under its normalized name in the
    output when no later candidate of that name has a larger confidence. *)
Lemma rank_candidates_first (c : NameCandidate) (rest : list NameCandidate) :
  normalized_name c <> [] ->
  (forall d, In d rest -> normalized_name d = normalized_name c ->
             (confidence d <= confidence c)%Z) ->
  In c (rank_candidates (c :: rest))
  /\ forall e, In e (rank_candidates (c :: rest)) ->
               normalized_name e = normalized_name c -> e = c.
Proof.
  intros Hne Hrest.
  destruct (rank_candidates_spec (c :: rest)) as [_ [Hnd [Hkept Hcov]]].
  destruct (Hcov c (or_introl eq_refl) Hne) as [c' [Hin Hname]].
  assert (Hc' : c' = c).
  { destruct (Hkept c' Hin) as [_ [r1 [r2 [Hsplit [Hbefore _]]]]].
    destruct r1 as [| x r1]; simpl in Hsplit; injection Hsplit as Hx Hsplit.
    - now symmetry.
    - subst x. assert (Hlt : (confidence c < confidence c')%Z).
      { apply Hbefore; [now left | now symmetry]. }
      assert (Hle : (confidence c' <= confidence c)%Z).
      { apply Hrest; [| exact Hname]. rewrite Hsplit.
        apply in_or_app. right. now left. }
      lia. }
  subst c'. split; [exact Hin |].
  intros e He Hename. apply (NoDup_map_eq normalized_name _ e c Hnd He Hin Hename).
Qed.

(** [' '.join(s.split())] collapses the white space of [s]. *)
Lemma join_cons (sep p : str) (l : list str) :
  join sep (p :: l) = p ++ flat_map (fun w => sep ++ w) l.
Proof.
  revert p. induction l as [| q l IH]; intros p.
  - cbn [join flat_map]. now rewrite app_nil_r.
  - change (join sep (p :: q :: l)) with (p ++ sep ++ join sep (q :: l)).
    cbn [flat_map]. now rewrite IH, <- app_assoc.
Qed.

Lemma split_ws_collapse (s : str) :
  flat_map (fun w => py " " ++ w) (split_ws_aux s []) = collapse true true s
  /\ forall cur, cur <> [] ->
       exists w l, split_ws_aux s cur = w :: l
                   /\ w ++ flat_map (fun w => py " " ++ w) l
                      = rev cur ++ collapse true false s.
Proof.
  induction s as [| c s [IHgap IHword]]; cbn [split_ws_aux collapse].
  - split; [reflexivity |]. intros cur Hcur.
    destruct cur as [| x cur]; [contradiction |].
    exists (rev (x :: cur)), []. split; reflexivity.
  - destruct (isspace c).
    + split; [exact IHgap |]. intros cur Hcur.
      destruct cur as [| x cur]; [contradiction |].
      exists (rev (x :: cur)), (split_ws_aux s []). split; [reflexivity |].
      now rewrite IHgap.
    + split.
      * destruct (IHword [c]) as [w [l [E Hw]]]; [discriminate |].
        rewrite E. cbn [flat_map]. rewrite <- app_assoc, Hw. reflexivity.
      * intros cur Hcur.
        destruct (IHword (c :: cur)) as [w [l [E Hw]]]; [discriminate |].
        exists w, l. split; [exact E |]. rewrite Hw. cbn [rev app].
        now rewrite <- app_assoc.
Qed.

Lemma join_split_collapsed (s : str) :
  join (py " ") (split_ws s) = collapsed s.
Proof.
  unfold split_ws, collapsed.
  induction s as [| c s IH]; cbn [split_ws_aux collapse]; [reflexivity |].
  destruct (isspace c); [exact IH |].
  destruct (split_ws_collapse s) as [_ Hword].
  destruct (Hword [c]) as [w [l [E Hw]]]; [discriminate |].
  rewrite E, join_cons, Hw. reflexivity.
Qed.

Lemma normalized_name_collapsed (c : NameCandidate) :
  normalized_name c = collapsed (name c).
Proof. apply join_split_collapsed. Qed.

(** C5.  The normalized name of a candidate is its name with the white
    space collapsed.  For every list of raw candidates the output of the
    ranking is in descending order of confidence; no two of its
    candidates have the same collapsed name and none has an empty one;
    each of its candidates is, among the raw candidates of its collapsed
    name, the first of those with the largest confidence; and every
    non-empty collapsed name of a raw candidate is that of a candidate of
    the output.  So the first raw candidate, as the one of the meta pass
    is, stands alone under its name when no later candidate of that name
    has a larger confidence.  On the page with
    [<meta name="author" content="Jane Doe">] and [<h1>Jane Doe</h1>] the
    two raw candidates give one: Jane Doe, 0.9, [meta[name=author]]; and
    so they do when the heading spaces the name in another way. *)
Theorem name_ranking :
  (forall raw : list NameCandidate,
     let out := rank_candidates raw in
     StronglySorted conf_ge out
     /\ NoDup (map (fun c => collapsed (name c)) out)
     /\ (forall c, In c out ->
           collapsed (name c) <> []
           /\ exists r1 r2, raw = r1 ++ c :: r2
                /\ (forall d, In d r1 ->
                      collapsed (name d) = collapsed (name c) ->
                      (confidence d < confidence c)%Z)
                /\ (forall d, In d r2 ->
                      collapsed (name d) = collapsed (name c) ->
                      (confidence d <= confidence c)%Z))
     /\ (forall d, In d raw -> collapsed (name d) <> [] ->
           exists c, In c out /\ collapsed (name c) = collapsed (name d)))
  /\ (forall c rest,
        collapsed (name c) <> [] ->
        (forall d, In d rest -> collapsed (name d) = collapsed (name c) ->
                   (confidence d <= confidence c)%Z) ->
        In c (rank_candidates (c :: rest))
        /\ forall e, In e (rank_candidates (c :: rest)) ->
                     collapsed (name e) = collapsed (name c) -> e = c)
  /\ collapsed (py "  Jane   Doe ") = py "Jane Doe"
  /\ raw_candidates Examples.author_page
     = [{| name := py "Jane Doe"; confidence := 90;
           reason := py "meta[name=author]" |};
        {| name := py "Jane Doe"; confidence := 70; reason := py "h1" |}]
  /\ extract_name_candidates Examples.author_page
     = [{| name := py "Jane Doe"; confidence := 90;
           reason := py "meta[name=author]" |}]
  /\ raw_candidates Examples.spaced_author_page
     = [{| name := py "Jane Doe"; confidence := 90;
           reason := py "meta[name=author]" |};
        {| name := py "Jane   Doe"; confidence := 70; reason := py "h1" |}]
  /\ extract_name_candidates Examples.spaced_author_page
     = [{| name := py "Jane Doe"; confidence := 90;
           reason := py "meta[name=author]" |}].
Proof.
  split; [| split].
  - intros raw out.
    destruct (rank_candidates_spec raw) as [Hsorted [Hnd [Hkept Hcov]]].
    split; [exact Hsorted |]. split; [| split].
    + rewrite <- (map_ext _ _ normalized_name_collapsed). exact Hnd.
    + intros c Hc. rewrite <- normalized_name_collapsed.
      destruct (Hkept c Hc) as [Hne [r1 [r2 [Hraw [Hbefore Hafter]]]]].
      split; [exact Hne |]. exists r1, r2. split; [exact Hraw |].
      split; intros d Hd; rewrite <- !normalized_name_collapsed;
        [now apply Hbefore | now apply Hafter].
    + intros d Hd. rewrite <- normalized_name_collapsed. intros Hne.
      destruct (Hcov d Hd Hne) as [c [Hc Hname]].
      exists c. split; [exact Hc |].
      now rewrite <- !normalized_name_collapsed.
  - intros c rest. rewrite <- normalized_name_collapsed. intros Hne Hrest.
    destruct (rank_candidates_first c rest Hne) as [Hin Halone].
    + intros d Hd. specialize (Hrest d Hd).
      now rewrite <- !normalized_name_collapsed in Hrest.
    + split; [exact Hin |]. intros e He.
      rewrite <- !normalized_name_collapsed. now apply Halone.
  - repeat split; vm_compute; reflexivity.
Qed.

(* ================================================================= *)
(** ** Further properties of the module *)

(* ----------------------------------------------------------------- *)
(** *** Ancestors *)

(** The ancestors of a node found below [n]: some chain of nodes, then
    [n], then the ancestors of [n]. *)
Lemma descendants_parents (n : node) :
  forall ps l, In l (descendants_from ps n) ->
  exists chain, parents l = chain ++ n :: ps.
Proof.
  induction n as [nm a cs IH | s | s] using node_forall_ind;
    intros ps l Hin; try contradiction.
  cbn [descendants_from] in Hin. apply in_flat_map in Hin.
  destruct Hin as [c [Hc [<- | Hin]]].
  - exists []. reflexivity.
  - rewrite Forall_forall in IH.
    destruct (IH c Hc _ _ Hin) as [chain Hchain].
    exists (chain ++ [c]). now rewrite <- app_assoc.
Qed.

Lemma descendants_have_parent (soup : node) (l : loc) :
  In l (descendants soup) -> exists p, parent l = Some p.
Proof.
  intros Hin. destruct (descendants_parents soup [] l Hin) as [chain Hchain].
  unfold parent. destruct (parents l) as [| p ps]; [| eauto].
  now destruct chain.
Qed.

Section HiddenFacts.

Context `{PyRuntime}.


End HiddenFacts.


(* ----------------------------------------------------------------- *)
(** *** Stripping *)

Lemma lstrip_length (s : str) : length (lstrip s) <= length s.
Proof.
  induction s as [| c s IH]; simpl; [lia |].
  destruct (isspace c); simpl; lia.
Qed.

Lemma lstrip_suffix (s : str) : exists w, s = w ++ lstrip s.
Proof.
  induction s as [| c s [w Hw]]; simpl; [now exists [] |].
  destruct (isspace c); [| now exists []].
  exists (c :: w). simpl. now f_equal.
Qed.

(** A string that does not end in white space keeps this when it loses
    characters in front. *)
Lemma rstrip_fixed_suffix (w u : str) :
  lstrip (rev (w ++ u)) = rev (w ++ u) -> lstrip (rev u) = rev u.
Proof.
  rewrite rev_app_distr. destruct (rev u) as [| c r] eqn:E; [reflexivity |].
  intros Hfix. simpl in Hfix |- *.
  destruct (isspace c) eqn:Ec; [| reflexivity].
  pose proof (lstrip_length (r ++ rev w)) as Hlen.
  rewrite Hfix in Hlen. simpl in Hlen. lia.
Qed.

(** [strip] leaves a stripped string as it is. *)
Lemma strip_idempotent (s : str) : strip (strip s) = strip s.
Proof.
  unfold strip at 2 3.
  assert (Hend : lstrip (rev (rstrip s)) = rev (rstrip s)).
  { unfold rstrip. now rewrite rev_involutive, lstrip_idempotent. }
  destruct (lstrip_suffix (rstrip s)) as [w Hw].
  rewrite Hw in Hend. apply rstrip_fixed_suffix in Hend.
  unfold strip, rstrip at 1. now rewrite Hend, rev_involutive, lstrip_idempotent.
Qed.

(* ----------------------------------------------------------------- *)
(** *** What the removal loops leave *)

(** After [extract_tags], no tag named in [names] is left below the
    node, and none stands above what is left when none stood at or above
    the node itself. *)
Lemma extract_tags_none_around (names : list str) (n : node) :
  forall ps l,
    existsb (named_in names) (n :: ps) = false ->
    In l (descendants_from ps (extract_tags names n)) ->
    no_template_around names l = true.
Proof.
  induction n as [nm a cs IH | s | s] using node_forall_ind;
    intros ps l Hclear Hin; try contradiction.
  cbn [extract_tags descendants_from] in Hin.
  remember (flat_map (fun c => if named_in names c then []
                               else [extract_tags names c]) cs) as cs'
    eqn:Ecs.
  assert (Hclear' : existsb (named_in names) (Tag nm a cs' :: ps) = false)
    by exact Hclear.
  apply in_flat_map in Hin. destruct Hin as [c' [Hc' Hin]].
  rewrite Ecs in Hc'. apply in_flat_map in Hc'.
  destruct Hc' as [c [Hc Hc']].
  destruct (named_in names c) eqn:Enamed; [contradiction |].
  destruct Hc' as [<- | []].
  assert (Hc2 : existsb (named_in names)
                  (extract_tags names c :: Tag nm a cs' :: ps) = false).
  { cbn [existsb]. rewrite extract_tags_named_in, Enamed. exact Hclear'. }
  destruct Hin as [<- | Hin].
  - unfold no_template_around. cbn [here parents]. now rewrite Hc2.
  - rewrite Forall_forall in IH. apply (IH c Hc (Tag nm a cs' :: ps)).
    + cbn [existsb]. rewrite Enamed. exact Hclear'.
    + exact Hin.
Qed.

Lemma extract_comments_none (n : node) :
  forall ps l,
    In l (descendants_from ps (extract_comments n)) ->
    is_comment (here l) = false.
Proof.
  induction n as [nm a cs IH | s | s] using node_forall_ind;
    intros ps l Hin; try contradiction.
  cbn [extract_comments descendants_from] in Hin.
  apply in_flat_map in Hin. destruct Hin as [c' [Hc' Hin]].
  apply in_flat_map in Hc'. destruct Hc' as [c [Hc Hc']].
  destruct (is_comment c) eqn:Ec; [contradiction |].
  destruct Hc' as [<- | []].
  destruct Hin as [<- | Hin].
  - cbn [here]. now rewrite extract_comments_is_comment.
  - rewrite Forall_forall in IH. exact (IH c Hc _ _ Hin).
Qed.

(** Removing the comments brings no tag name into the tree. *)
Lemma extract_comments_keeps_names (names : list str) (n : node) :
  forall ps ps' l,
    (forall d, In d (descendants_from ps n) -> named_in names (here d) = false) ->
    In l (descendants_from ps' (extract_comments n)) ->
    named_in names (here l) = false.
Proof.
  induction n as [nm a cs IH | s | s] using node_forall_ind;
    intros ps ps' l Hall Hin; try contradiction.
  cbn [extract_comments descendants_from] in Hin.
  apply in_flat_map in Hin. destruct Hin as [c' [Hc' Hin]].
  apply in_flat_map in Hc'. destruct Hc' as [c [Hc Hc']].
  destruct (is_comment c) eqn:Ec; [contradiction |].
  destruct Hc' as [<- | []].
  destruct Hin as [<- | Hin].
  - cbn [here]. rewrite extract_comments_named_in.
    apply (Hall {| here := c; parents := Tag nm a cs :: ps |}).
    cbn [descendants_from]. apply in_flat_map. exists c. split; [exact Hc |].
    now left.
  - rewrite Forall_forall in IH.
    eapply (IH c Hc (Tag nm a cs :: ps)); [| exact Hin].
    intros d Hd. apply Hall. cbn [descendants_from]. apply in_flat_map.
    exists c. split; [exact Hc | now right].
Qed.

Lemma no_template_around_here (names : list str) (l : loc) :
  no_template_around names l = true -> named_in names (here l) = false.
Proof.
  unfold no_template_around. cbn [existsb]. intros Hno.
  apply negb_true_iff, orb_false_iff in Hno. tauto.
Qed.

Lemma extract_tags_none (names : list str) (n : node) (ps : list node)
    (l : loc) :
  In l (descendants_from ps (extract_tags names n)) ->
  named_in names (here l) = false.
Proof.
  revert ps l.
  induction n as [nm a cs IH | s | s] using node_forall_ind;
    intros ps l Hin; try contradiction.
  cbn [extract_tags descendants_from] in Hin.
  apply in_flat_map in Hin. destruct Hin as [c' [Hc' Hin]].
  apply in_flat_map in Hc'. destruct Hc' as [c [Hc Hc']].
  destruct (named_in names c) eqn:Ec; [contradiction |].
  destruct Hc' as [<- | []].
  destruct Hin as [<- | Hin].
  - cbn [here]. now rewrite extract_tags_named_in.
  - rewrite Forall_forall in IH. exact (IH c Hc _ _ Hin).
Qed.

Section VisibleTextFacts.

Context `{PyRuntime}.

(** X3.  [_visible_texts] leaves a soup without script, style, noscript
    and iframe elements and without comments; called again on the soup it
    left, it returns the same fragments and leaves the soup as it is. *)
Theorem visible_texts_leaves_clean_soup (soup : node) :
  nothing_to_remove (snd (_visible_texts soup)) = true
  /\ _visible_texts (snd (_visible_texts soup))
     = (fst (_visible_texts soup), snd (_visible_texts soup)).
Proof.
  rewrite visible_texts_soup. split.
  - unfold nothing_to_remove. apply forallb_forall. intros l Hin.
    unfold removable. apply negb_true_iff, orb_false_iff. split.
    + unfold cleaned, descendants in Hin.
      apply (extract_comments_keeps_names REMOVED_TAGS
               (extract_tags REMOVED_TAGS soup) [] [] l); [| exact Hin].
      intros d Hd. exact (extract_tags_none _ _ _ _ Hd).
    + exact (extract_comments_none _ _ _ Hin).
  - unfold _visible_texts. fold REMOVED_TAGS. fold (cleaned soup).
    fold (cleaned (cleaned soup)). now rewrite cleaned_idempotent.
Qed.

(** X2.  Every fragment [_visible_texts] returns is a non-empty string
    without white space at its ends, the stripped text of a string node
    of the cleaned soup; it comes with the parent of that node, which is
    not hidden and is no script, style or template element, and no
    template stands above it. *)
Theorem visible_fragments_are_visible (soup : node) (parent : option loc)
    (txt : str) :
  In (parent, txt) (fst (_visible_texts soup)) ->
  txt <> []
  /\ strip txt = txt
  /\ _is_hidden parent = false
  /\ exists elem p raw,
       In elem (find_all_text (cleaned soup))
       /\ Soup.parent elem = Some p
       /\ parent = Some p
       /\ node_string (here elem) = Some raw
       /\ txt = strip raw
       /\ named_in [py "script"; py "style"; py "template"] (here p) = false
       /\ existsb (named (py "template")) (parents elem) = false.
Proof.
  intros Hin. unfold _visible_texts in Hin. cbn [fst] in Hin.
  fold REMOVED_TAGS in Hin. fold (cleaned soup) in Hin.
  apply in_flat_map in Hin. destruct Hin as [elem [Helem Hfrag]].
  assert (Hp : exists p, Soup.parent elem = Some p).
  { apply (descendants_have_parent (cleaned soup)).
    unfold find_all_text in Helem. now apply filter_In in Helem. }
  destruct Hp as [p Hp]. unfold visible_fragment in Hfrag. rewrite Hp in Hfrag.
  destruct (named_in _ (here p)) eqn:Enamed; [contradiction |].
  destruct (node_string (here elem)) as [[| c raw] |] eqn:Eraw;
    try contradiction.
  destruct (strip (c :: raw)) as [| x t] eqn:Estrip; [contradiction |].
  destruct (_is_hidden (Some p)) eqn:Ehid; [contradiction |].
  destruct Hfrag as [Heq | []]. injection Heq as <- <-.
  split; [discriminate |].
  split; [rewrite <- Estrip; apply strip_idempotent |].
  split; [exact Ehid |].
  exists elem, p, (c :: raw). repeat split; try assumption; try now symmetry.
  (* no template above: the parent is no template and is not hidden *)
  unfold Soup.parent in Hp. destruct (parents elem) as [| q qs]; [discriminate |].
  injection Hp as <-. cbn [existsb here parents] in *.
  apply orb_false_iff. split.
  - unfold named_in in Enamed. unfold named. destruct q as [nm a cs | s | s];
      try reflexivity.
    unfold mem in Enamed. cbn [existsb] in Enamed.
    destruct (str_eqb nm (py "template")); [| reflexivity].
    destruct (str_eqb nm (py "script")), (str_eqb nm (py "style"));
      discriminate Enamed.
  - unfold _is_hidden in Ehid. cbn [here parents] in Ehid.
    destruct (existsb _ qs) eqn:Eqs; [discriminate |].
    apply not_true_is_false. intros Hex. apply existsb_exists in Hex.
    destruct Hex as [el [Hel Hnm]].
    assert (Hmark : existsb (fun el => named (py "template") el
                                       || style_hides el || aria_hidden el
                                       || has_attr el (py "hidden")) qs = true).
    { apply existsb_exists. exists el. split; [exact Hel |]. now rewrite Hnm. }
    congruence.
Qed.

End VisibleTextFacts.

Lemma visible_fragments_are_visible_witness :
  fst (_visible_texts BatchExample.hidden_block_page)
  = [(Some BatchExample.shown_paragraph, py "mail a@b.com")]
  /\ strip (py "mail a@b.com") = py "mail a@b.com"
  /\ _is_hidden (Some BatchExample.shown_paragraph) = false.
Proof.
  split; [vm_compute; reflexivity |].
  destruct (visible_fragments_are_visible BatchExample.hidden_block_page
              (Some BatchExample.shown_paragraph) (py "mail a@b.com"))
    as [_ [Hstripped [Hvisible _]]].
  - vm_compute. left. reflexivity.
  - split; [exact Hstripped | exact Hvisible].
Defined.

(* ----------------------------------------------------------------- *)
(** *** Templates in [crawl_url] *)

Section TemplateFacts.

Context `{PyRuntime}.

(** X4.  [crawl_url] runs the extractors on a soup without templates:
    when the soup object is no template itself, no node the extractors
    meet is a template or lies below one, and the record is the one of
    the extractors on that soup. *)
Theorem crawl_url_meets_no_template (soup : node) (final : str) :
  named_in [py "template"] soup = false ->
  let seen := extract_tags [py "template"] soup in
  crawl_url soup final = extract_all seen final
  /\ find_all (py "template") seen = []
  /\ forall l, In l (descendants seen) ->
       existsb (named_in [py "template"]) (here l :: parents l) = false.
Proof.
  intros Hroot seen.
  assert (Hall : forall l, In l (descendants seen) ->
                   existsb (named_in [py "template"]) (here l :: parents l)
                   = false).
  { intros l Hin. apply negb_true_iff.
    apply (extract_tags_none_around [py "template"] soup [] l); [| exact Hin].
    cbn [existsb]. now rewrite Hroot. }
  split; [reflexivity |]. split; [| exact Hall].
  unfold find_all.
  destruct (filter _ (descendants seen)) as [| l ls] eqn:E; [reflexivity |].
  assert (Hl : In l (filter (fun l => named (py "template") (here l))
                       (descendants seen))) by (rewrite E; now left).
  apply filter_In in Hl. destruct Hl as [Hin Hnamed].
  specialize (Hall l Hin). cbn [existsb] in Hall.
  apply orb_false_iff in Hall. destruct Hall as [Hhere _].
  destruct (here l) as [nm a cs | s | s]; try discriminate Hnamed.
  unfold named in Hnamed. unfold named_in, mem in Hhere.
  cbn [existsb] in Hhere. rewrite Hnamed in Hhere. discriminate Hhere.
Qed.

End TemplateFacts.

Lemma crawl_url_meets_no_template_witness :
  find_all (py "template")
    (extract_tags [py "template"] Examples.template_page) = []
  /\ fst (crawl_url Examples.template_page (py "http://example.com/"))
     = Return {| url := py "http://example.com/"; socials := []; emails := [];
                 phones := []; name_candidates := [];
                 notes := [NO_CONTACT_NOTE] |}.
Proof.
  split; [| reflexivity].
  apply (crawl_url_meets_no_template Examples.template_page
           (py "http://example.com/")).
  reflexivity.
Defined.

(* ----------------------------------------------------------------- *)
(** *** What [extract_socials] reports *)

Section SocialSoundness.

Context `{PyRuntime}.

(** X5.  Every URL [extract_socials] reports is the resolved href of an
    anchor of the soup whose href is not empty, holds a social domain in
    its lower case and does not start with [javascript:] there. *)
Theorem socials_come_from_social_anchors (soup : node) (base_url u : str)
    (out : list str) :
  extract_socials soup base_url = Return out ->
  In u out ->
  exists a href dom,
    In a (find_all (py "a") soup)
    /\ get (here a) (py "href") = Some href
    /\ href <> []
    /\ In dom SOCIAL_DOMAINS
    /\ contains dom (lower href) = true
    /\ startswith (py "javascript:") (lower href) = false
    /\ urljoin base_url href = Return u.
Proof.
  unfold extract_socials, bind. intros Hret.
  destruct (collect _ _) as [found |] eqn:Hc; [| discriminate].
  injection Hret as <-.
  rewrite dedupe_first_seen, (found_resolved _ _ Hc). cbn [app].
  intros Hin. apply filter_In in Hin. destruct Hin as [Hin _].
  apply first_seen_In, in_flat_map in Hin. destruct Hin as [a [Ha Hu]].
  unfold resolved_link, social_link in Hu.
  destruct (get (here a) (py "href")) as [[| c href] |] eqn:Ehref;
    try contradiction.
  destruct (existsb _ SOCIAL_DOMAINS) eqn:Edom; [| contradiction].
  destruct (startswith (py "javascript:") _) eqn:Ejs; [contradiction |].
  cbn [andb negb] in Hu.
  destruct (urljoin base_url (c :: href)) as [v | e] eqn:Eu; [| contradiction].
  destruct Hu as [<- | []].
  apply existsb_exists in Edom. destruct Edom as [dom [Hdom Hcontains]].
  exists a, (c :: href), dom. repeat split; try assumption. discriminate.
Qed.

End SocialSoundness.

Lemma socials_come_from_social_anchors_witness :
  exists a href dom,
    In a (find_all (py "a") Examples.hidden_social_page)
    /\ get (here a) (py "href") = Some href
    /\ href <> []
    /\ In dom SOCIAL_DOMAINS
    /\ contains dom (lower href) = true
    /\ startswith (py "javascript:") (lower href) = false
    /\ urljoin (py "http://example.com/") href
       = Return (py "https://facebook.com/jane").
Proof.
  apply (socials_come_from_social_anchors Examples.hidden_social_page
           (py "http://example.com/") (py "https://facebook.com/jane")
           (out := [py "https://LinkedIn.com/in/jane";
                    py "https://facebook.com/jane"])).
  - vm_compute. reflexivity.
  - right. left. reflexivity.
Defined.

(* ----------------------------------------------------------------- *)
(** *** What [extract_phones] reports *)

Lemma fold_left_invariant {S X} (P : S -> Prop) (step : S -> X -> S)
    (l : list X) :
  (forall st x, In x l -> P st -> P (step st x)) ->
  forall st, P st -> P (fold_left step l st).
Proof.
  induction l as [| x l IH]; intros Hstep st Hst; simpl; [exact Hst |].
  apply IH.
  - intros st' y Hy. apply Hstep. now right.
  - apply Hstep; [now left | exact Hst].
Qed.

Section PhoneSoundness.

Context `{PyRuntime}.

Lemma phones_keyed_add (phones : list Phone) (seen : list str) (num : str) :
  phones_keyed (phones, seen) ->
  mem num seen = false ->
  phones_keyed (phones ++ [phone_entry num], num :: seen).
Proof.
  intros [Hnd [Hseen Hall]] Hnew. apply mem_not_In in Hnew.
  unfold phones_keyed. cbn [fst snd] in *. rewrite map_app. cbn [map original phone_entry].
  split; [| split].
  - apply NoDup_snoc; [| exact Hnd]. now rewrite <- Hseen.
  - intros n. rewrite in_app_iff. cbn [In]. rewrite <- Hseen. tauto.
  - apply Forall_app. split; [exact Hall |]. now constructor.
Qed.

Lemma tel_step_keyed (st : phone_state) (a : loc) :
  phones_keyed st -> phones_keyed (tel_step st a).
Proof.
  destruct st as [phones seen]. intros Hst. unfold tel_step.
  destruct (startswith (py "tel:") _); [| exact Hst].
  destruct (_is_hidden (Some a)); [exact Hst |].
  destruct (mem (after_scheme _) seen) eqn:E; [exact Hst |].
  cbn [negb]. now apply phones_keyed_add.
Qed.

Lemma text_phone_step_keyed (parent : option loc) (txt : str)
    (st : phone_state) (m : str) :
  phones_keyed st -> phones_keyed (text_phone_step parent txt st m).
Proof.
  destruct st as [phones seen]. intros Hst. unfold text_phone_step.
  destruct (re_search PHONE_RE txt) as [whole |]; [| exact Hst].
  destruct (length (digits_only (strip whole)) <? 7); [exact Hst |].
  destruct (mem (strip whole) seen) eqn:E; [exact Hst |].
  destruct (_is_hidden parent); [exact Hst |].
  now apply phones_keyed_add.
Qed.

Lemma extract_phones_keyed (soup : node) :
  phones_keyed
    (fold_left text_step (fst (_visible_texts soup))
       (fold_left tel_step (find_all (py "a") soup) ([], []))).
Proof.
  apply fold_left_invariant.
  - intros st [parent txt] _ Hst. unfold text_step.
    apply fold_left_invariant; [| exact Hst].
    intros st' m _. apply text_phone_step_keyed.
  - apply fold_left_invariant.
    + intros st a _. apply tel_step_keyed.
    + repeat split; try constructor; intros [].
Qed.

(** X6.  In the output of [extract_phones] no two entries have the same
    [original], and the [normalized] of every entry is what
    [_normalize_phone] returns for its [original]. *)
Theorem phones_are_keyed_by_original (soup : node) :
  NoDup (map original (fst (extract_phones soup)))
  /\ forall p, In p (fst (extract_phones soup)) ->
       _normalize_phone (original p) = Return (normalized p).
Proof.
  rewrite extract_phones_parts.
  destruct (extract_phones_keyed soup) as [Hnd [_ Hall]].
  split; [exact Hnd |].
  intros p Hp. rewrite Forall_forall in Hall.
  rewrite (Hall p Hp) at 2. cbn [normalized phone_entry].
  apply normalize_phone_returns.
Qed.

(** Applying the body of the inner loop a second time changes nothing:
    the string it would add is in [seen] by then. *)
Lemma text_phone_step_once (parent : option loc) (txt : str)
    (st : phone_state) (m m' : str) :
  text_phone_step parent txt (text_phone_step parent txt st m) m'
  = text_phone_step parent txt st m.
Proof.
  destruct st as [phones seen].
  assert (Hcases :
    text_phone_step parent txt (phones, seen) m = (phones, seen)
    \/ exists whole,
         re_search PHONE_RE txt = Some whole
         /\ (length (digits_only (strip whole)) <? 7) = false
         /\ text_phone_step parent txt (phones, seen) m
            = (phones ++ [phone_entry (strip whole)], strip whole :: seen)).
  { unfold text_phone_step.
    destruct (re_search PHONE_RE txt) as [whole |]; [| now left].
    destruct (length (digits_only (strip whole)) <? 7) eqn:Ed; [now left |].
    destruct (mem (strip whole) seen); [now left |].
    destruct (_is_hidden parent); [now left |].
    right. exists whole. repeat split. exact Ed. }
  destruct Hcases as [E | [whole [Es [Ed E]]]]; rewrite E.
  - exact E.
  - unfold text_phone_step. rewrite Es, Ed.
    replace (mem (strip whole) (strip whole :: seen)) with true;
      [reflexivity |].
    symmetry. apply mem_In. now left.
Qed.

Lemma text_step_first_only (st : phone_state) (parent : option loc)
    (txt : str) :
  text_step st (parent, txt)
  = match findall PHONE_RE txt with
    | [] => st
    | m :: _ => text_phone_step parent txt st m
    end.
Proof.
  unfold text_step. cbn [fst snd].
  destruct (findall PHONE_RE txt) as [| m ms]; [reflexivity |].
  cbn [fold_left]. induction ms as [| m' ms IH]; [reflexivity |].
  cbn [fold_left]. now rewrite text_phone_step_once.
Qed.

Lemma text_step_adds (st : phone_state) (parent : option loc) (txt : str) :
  exists added,
    fst (text_step st (parent, txt)) = fst st ++ added
    /\ length added <= 1
    /\ forall p, In p added ->
         exists whole, re_search PHONE_RE txt = Some whole
                       /\ original p = strip whole.
Proof.
  rewrite text_step_first_only.
  destruct (findall PHONE_RE txt) as [| m ms].
  - exists []. rewrite app_nil_r. repeat split; [simpl; lia | intros p []].
  - destruct st as [phones seen]. unfold text_phone_step.
    destruct (re_search PHONE_RE txt) as [whole |];
      [| exists []; rewrite app_nil_r; repeat split;
         [simpl; lia | intros p []]].
    destruct (length (digits_only (strip whole)) <? 7);
      [exists []; rewrite app_nil_r; repeat split;
       [simpl; lia | intros p []] |].
    destruct (mem (strip whole) seen);
      [exists []; rewrite app_nil_r; repeat split;
       [simpl; lia | intros p []] |].
    destruct (_is_hidden parent);
      [exists []; rewrite app_nil_r; repeat split;
       [simpl; lia | intros p []] |].
    eexists. split; [reflexivity |]. split; [simpl; lia |].
    intros p [<- | []]. exists whole. split; reflexivity.
Qed.

(** X8.  A fragment of text adds at most one entry, however many
    matches of the phone pattern it holds: the entry of the first match
    in the fragment, stripped. *)
Theorem one_phone_per_fragment (st : phone_state) (parent : option loc)
    (txt : str) :
  exists added,
    fst (text_step st (parent, txt)) = fst st ++ added
    /\ length added <= 1
    /\ forall p, In p added ->
         exists whole, re_search PHONE_RE txt = Some whole
                       /\ original p = strip whole.
Proof. exact (text_step_adds st parent txt). Qed.

(** X7.  Every entry of the output of [extract_phones] has a source: a
    visible anchor of the soup whose href starts with [tel:], or a
    visible fragment of text whose first match of the phone pattern,
    stripped, is the [original] and holds seven digits or more. *)
Theorem phones_have_a_source (soup : node) (p : Phone) :
  In p (fst (extract_phones soup)) ->
  (exists a, In a (find_all (py "a") soup)
             /\ tel_number a = Some (original p)
             /\ _is_hidden (Some a) = false)
  \/ (exists pt whole,
        In pt (fst (_visible_texts soup))
        /\ re_search PHONE_RE (snd pt) = Some whole
        /\ original p = strip whole
        /\ 7 <= length (digits_only (original p))).
Proof.
  rewrite extract_phones_parts. revert p.
  apply (fold_left_invariant
           (fun st => forall p, In p (fst st) -> _ \/ _)).
  - intros st [parent txt] Hpt Hst p Hp.
    destruct (text_step_adds st parent txt) as [added [E [_ Hadded]]].
    destruct (text_step_appends st (parent, txt)) as [added' [E' Hseven]].
    rewrite E in Hp. apply in_app_or in Hp. destruct Hp as [Hp | Hp];
      [now apply Hst |].
    right. destruct (Hadded p Hp) as [whole [Hs Ho]].
    exists (parent, txt), whole. repeat split; try assumption.
    rewrite E in E'. apply app_inv_head in E'. subst added'.
    rewrite Forall_forall in Hseven. exact (Hseven p Hp).
  - apply (fold_left_invariant
             (fun st => forall p, In p (fst st) -> _ \/ _)).
    + intros [phones seen] a Ha Hst p Hp. unfold tel_step in Hp.
      destruct (startswith (py "tel:") _) eqn:Et; [| now apply Hst].
      destruct (_is_hidden (Some a)) eqn:Eh; [now apply Hst |].
      destruct (negb _); [| now apply Hst].
      cbn [fst] in Hp. apply in_app_or in Hp.
      destruct Hp as [Hp | [<- | []]]; [now apply Hst |].
      left. exists a. repeat split; try assumption.
      unfold tel_number. now rewrite Et.
    + intros p [].
Qed.

End PhoneSoundness.

Lemma phones_have_a_source_witness :
  fst (extract_phones BatchExample.two_numbers_page)
  = [{| original := py "+14155552671"; normalized := py "+14155552671" |};
     {| original := py "98765 43210"; normalized := py "+919876543210" |}]
  /\ ((exists a, In a (find_all (py "a") BatchExample.two_numbers_page)
                 /\ tel_number a = Some (py "98765 43210")
                 /\ _is_hidden (Some a) = false)
      \/ (exists pt whole,
            In pt (fst (_visible_texts BatchExample.two_numbers_page))
            /\ re_search PHONE_RE (snd pt) = Some whole
            /\ py "98765 43210" = strip whole
            /\ 7 <= length (digits_only (py "98765 43210")))).
Proof.
  split; [vm_compute; reflexivity |].
  apply (phones_have_a_source BatchExample.two_numbers_page
           {| original := py "98765 43210"; normalized := py "+919876543210" |}).
  vm_compute. right. left. reflexivity.
Defined.

(* ----------------------------------------------------------------- *)
(** *** The shape of what the e-mail pattern matches *)

Lemma run_length_firstn (cls : char -> bool) (s : str) (n : nat) :
  n <= run_length cls s ->
  forallb cls (firstn n s) = true /\ length (firstn n s) = n.
Proof.
  revert n. induction s as [| c s IH]; intros [| n] Hn; simpl in *;
    try (split; reflexivity); try lia.
  destruct (cls c) eqn:Ec; [| lia].
  destruct (IH n) as [Hall Hlen]; [lia |].
  simpl. rewrite Hall, Hlen. split; reflexivity.
Qed.

Lemma rep_alts_sound (cls : char -> bool) (lo : nat) (hi : option nat)
    (s rest : str) :
  In rest (rep_alts cls lo hi s) ->
  exists m, s = m ++ rest /\ matches (Rep cls lo hi) m.
Proof.
  unfold rep_alts. intros Hin. apply in_map_iff in Hin.
  destruct Hin as [n [<- Hn]]. apply in_rev, in_seq in Hn.
  exists (firstn n s). split; [now rewrite firstn_skipn |].
  destruct (@run_length_firstn cls s n) as [Hall Hlen].
  { destruct hi as [h |]; lia. }
  constructor; [exact Hall | lia |].
  destruct hi as [h |]; [lia | exact I].
Qed.

(** What the backtracking matcher consumes is a match of the pattern. *)
Lemma alts_sound (r : re) :
  forall s rest, In rest (alts r s) ->
  exists m, s = m ++ rest /\ matches r m.
Proof.
  induction r as [cls lo hi | a IHa b IHb | a IHa]; intros s rest Hin;
    cbn [alts] in Hin.
  - now apply rep_alts_sound.
  - apply in_flat_map in Hin. destruct Hin as [mid [Hmid Hrest]].
    destruct (IHa _ _ Hmid) as [m1 [-> Hm1]].
    destruct (IHb _ _ Hrest) as [m2 [-> Hm2]].
    exists (m1 ++ m2). split; [now rewrite app_assoc | now constructor].
  - apply in_app_or in Hin. destruct Hin as [Hin | [<- | []]].
    + destruct (IHa _ _ Hin) as [m [-> Hm]]. exists m.
      split; [reflexivity | now constructor].
    + exists []. split; [reflexivity | apply matches_opt_none].
Qed.

Lemma re_match_sound (r : re) (s m : str) :
  re_match r s = Some m -> matches r m /\ exists rest, s = m ++ rest.
Proof.
  unfold re_match. destruct (alts r s) as [| rest more] eqn:E; [discriminate |].
  intros Hm. injection Hm as <-.
  destruct (alts_sound r s rest) as [m [-> Hmatch]]; [rewrite E; now left |].
  rewrite length_app, Nat.add_sub, firstn_app, firstn_all, Nat.sub_diag.
  cbn [firstn]. rewrite app_nil_r. split; [exact Hmatch | now exists rest].
Qed.

Lemma findall_sound (r : re) (s : str) :
  forall skip m, In m (findall_aux r s skip) -> matches r m.
Proof.
  induction s as [| c s IH]; intros skip m Hin; [contradiction |].
  cbn [findall_aux] in Hin. destruct skip as [| k]; [| now apply (IH k)].
  destruct (re_match r (c :: s)) as [m0 |] eqn:E; [| now apply (IH 0)].
  destruct Hin as [<- | Hin]; [now apply re_match_sound in E |].
  now apply (IH (length m0 - 1)).
Qed.

Lemma lit_matches (a : ascii) (m : str) : matches (lit a) m -> m = [ch a].
Proof.
  unfold lit. intros Hm. inversion Hm as [cls lo hi m' Hall Hlo Hhi | | |];
    subst.
  destruct m as [| c [| d m]]; simpl in *; try lia.
  rewrite andb_true_r in Hall. apply N.eqb_eq in Hall. now subst.
Qed.

Lemma rep_plus_matches (cls : char -> bool) (m : str) :
  matches (Rep cls 1 None) m -> m <> [] /\ forallb cls m = true.
Proof.
  intros Hm. inversion Hm as [cls' lo hi m' Hall Hlo Hhi | | |]; subst.
  split; [| exact Hall]. destruct m; [simpl in Hlo; lia | discriminate].
Qed.

Lemma email_matches_shaped (m : str) : matches EMAIL_RE m -> email_shaped m.
Proof.
  unfold EMAIL_RE. intros Hm.
  inversion Hm as [| a1 b1 l r1 Hl Hr1 | |]; subst. clear Hm.
  inversion Hr1 as [| a2 b2 at_ r2 Hat Hr2 | |]; subst. clear Hr1.
  inversion Hr2 as [| a3 b3 d r3 Hd Hr3 | |]; subst. clear Hr2.
  inversion Hr3 as [| a4 b4 dot t Hdot Ht | |]; subst. clear Hr3.
  apply lit_matches in Hat. apply lit_matches in Hdot. subst.
  apply rep_plus_matches in Hl. apply rep_plus_matches in Hd.
  apply rep_plus_matches in Ht.
  exists l, d, t. cbn [app]. tauto.
Qed.

Section EmailShape.

Context `{PyRuntime}.

(** X9.  Every string in the output of [extract_emails] starts with a
    part of the form [local@domain.tail]; a string taken from the visible
    text is that part and nothing more, only the address of a mail link
    can go on after it. *)
Theorem emails_are_email_shaped (soup : node) (x : str) :
  In x (fst (extract_emails soup)) ->
  exists m rest,
    x = m ++ rest
    /\ email_shaped m
    /\ (rest = []
        \/ exists a, In a (find_all (py "a") soup)
                     /\ mailto_address a = Some x
                     /\ _is_hidden (Some a) = false).
Proof.
  intros Hin. apply extract_emails_In in Hin.
  destruct Hin as [[a [Ha [Haddr Hvis]]] | [pt [Hpt Hx]]].
  - assert (Hm : exists m, re_match EMAIL_RE x = Some m).
    { unfold mailto_address in Haddr.
      destruct (startswith (py "mailto:") _); [| discriminate].
      destruct (re_match EMAIL_RE _) as [m |] eqn:E; [| discriminate].
      injection Haddr as <-. now exists m. }
    destruct Hm as [m Hm]. apply re_match_sound in Hm.
    destruct Hm as [Hmatch [rest ->]]. exists m, rest.
    split; [reflexivity |]. split; [now apply email_matches_shaped |].
    right. now exists a.
  - exists x, []. rewrite app_nil_r. split; [reflexivity |].
    split; [| now left].
    apply email_matches_shaped. exact (findall_sound _ _ _ _ Hx).
Qed.

End EmailShape.

Lemma emails_are_email_shaped_witness :
  exists m rest,
    py "a@b.com, c@d.org" = m ++ rest
    /\ email_shaped m
    /\ (rest = []
        \/ exists a, In a (find_all (py "a") Examples.long_mailto_page)
                     /\ mailto_address a = Some (py "a@b.com, c@d.org")
                     /\ _is_hidden (Some a) = false).
Proof.
  apply (emails_are_email_shaped Examples.long_mailto_page).
  vm_compute. left. reflexivity.
Defined.

(* ----------------------------------------------------------------- *)
(** *** The candidates [extract_name_candidates] returns *)

Lemma normalized_name_empty (c : NameCandidate) :
  name c = [] -> normalized_name c = [].
Proof. intros Hc. unfold normalized_name. now rewrite Hc. Qed.

Section CandidateFacts.

Context `{PyRuntime}.

Lemma add_candidate_listed (cands : list NameCandidate) (nm : str) (conf : Z)
    (why : str) :
  In conf CONFIDENCES ->
  Forall (fun c => strip (name c) = name c /\ In (confidence c) CONFIDENCES)
    cands ->
  Forall (fun c => strip (name c) = name c /\ In (confidence c) CONFIDENCES)
    (add_candidate cands nm conf why).
Proof.
  intros Hconf Hall. unfold add_candidate. apply Forall_app.
  split; [exact Hall |]. constructor; [| constructor].
  cbn [name confidence]. split; [apply strip_idempotent | exact Hconf].
Qed.

Lemma raw_candidates_listed (soup : node) :
  Forall (fun c => strip (name c) = name c /\ In (confidence c) CONFIDENCES)
    (raw_candidates soup).
Proof.
  unfold raw_candidates, pass_keys, pass_headings.
  apply fold_left_invariant.
  { intros cands k _ Hcands.
    apply fold_left_invariant.
    - intros acc el _ Hacc. unfold keyed_candidate.
      destruct (_is_hidden (Some el)); [exact Hacc |].
      destruct (get_text el) as [| x t]; [exact Hacc |].
      destruct (length (x :: t) <? 60); [| exact Hacc].
      apply add_candidate_listed; [| exact Hacc]. vm_compute. tauto.
    - apply fold_left_invariant; [| exact Hcands].
      intros acc el _ Hacc. unfold keyed_candidate.
      destruct (_is_hidden (Some el)); [exact Hacc |].
      destruct (get_text el) as [| x t]; [exact Hacc |].
      destruct (length (x :: t) <? 60); [| exact Hacc].
      apply add_candidate_listed; [| exact Hacc]. vm_compute. tauto. }
  apply fold_left_invariant.
  { intros cands tag _ Hcands.
    apply fold_left_invariant; [| exact Hcands].
    intros acc h _ Hacc. unfold heading_candidate.
    destruct (_is_hidden (Some h)); [exact Hacc |].
    destruct (get_text h) as [| x t]; [exact Hacc |].
    destruct (existsb _ (contact_nodes soup));
      (apply add_candidate_listed; [| exact Hacc]);
      destruct (str_eqb tag (py "h1")); vm_compute; tauto. }
  unfold pass_title.
  assert (Hmeta : Forall (fun c => strip (name c) = name c
                                   /\ In (confidence c) CONFIDENCES)
                    (pass_meta soup [])).
  { unfold pass_meta.
    destruct (find_with_attr _ _ _ soup) as [ma |]; [| constructor].
    destruct (get (here ma) (py "content")) as [[| x t] |];
      [constructor | | constructor].
    apply add_candidate_listed; [vm_compute; tauto | constructor]. }
  destruct (title_string soup) as [title |]; [| exact Hmeta].
  destruct (re_split TITLE_SPLIT_RE title) as [| part0 parts]; [exact Hmeta |].
  apply add_candidate_listed; [vm_compute; tauto | exact Hmeta].
Qed.

(** X10.  Every candidate [extract_name_candidates] returns is one the
    passes found; its name is not empty and has no white space at its
    ends; its confidence is one of 0.5, 0.6, 0.7, 0.75, 0.8, 0.85, 0.9
    and 0.95, so between 0 and 1. *)
Theorem name_candidates_are_well_formed (soup : node) (c : NameCandidate) :
  In c (extract_name_candidates soup) ->
  In c (raw_candidates soup)
  /\ name c <> []
  /\ strip (name c) = name c
  /\ In (confidence c) CONFIDENCES
  /\ (0 <= confidence c <= 100)%Z.
Proof.
  intros Hin. unfold extract_name_candidates in Hin.
  destruct (rank_candidates_spec (raw_candidates soup)) as [_ [_ [Hkept _]]].
  destruct (Hkept c Hin) as [Hne [r1 [r2 [Hraw _]]]].
  assert (Hc : In c (raw_candidates soup)).
  { rewrite Hraw. apply in_or_app. right. now left. }
  pose proof (raw_candidates_listed soup) as Hall.
  rewrite Forall_forall in Hall. destruct (Hall c Hc) as [Hstrip Hconf].
  repeat split; try assumption.
  - intros Hempty. apply Hne. now apply normalized_name_empty.
  - unfold CONFIDENCES in Hconf. simpl in Hconf. lia.
  - unfold CONFIDENCES in Hconf. simpl in Hconf. lia.
Qed.

End CandidateFacts.

Lemma name_candidates_are_well_formed_witness :
  extract_name_candidates BatchExample.two_numbers_page
  = [{| name := py "Jane  Doe"; confidence := 85;
        reason := py "h2 near contact" |}]
  /\ In (85%Z) CONFIDENCES.
Proof.
  split; [vm_compute; reflexivity |].
  apply (name_candidates_are_well_formed BatchExample.two_numbers_page
           {| name := py "Jane  Doe"; confidence := 85;
              reason := py "h2 near contact" |}).
  vm_compute. left. reflexivity.
Defined.

(* ----------------------------------------------------------------- *)
(** *** The order of the extractors in [crawl_url] *)

Section PipelineFacts.

Context `{PyRuntime}.

(** X11.  [extract_all] ends in one of two ways.  When [extract_socials]
    raises, the exception leaves [extract_all] and the soup is as it was.
    Otherwise a record is returned, in which the social links and the
    mail links are read off the soup as it is given, while the text, the
    phones and the name candidates are read off the soup [_visible_texts]
    has cleaned: script, style, noscript and iframe elements and comments
    are gone by then.  The note is there exactly when the three lists of
    contacts are empty. *)
Theorem extraction_reads_two_soups (soup : node) (final : str) :
  match extract_socials soup final with
  | Raise e => extract_all soup final = (Raise e, soup)
  | Return found =>
      exists r,
        extract_all soup final = (Return r, cleaned soup)
        /\ url r = final
        /\ socials r = found
        /\ emails r = fst (extract_emails soup)
        /\ phones r = fst (extract_phones (cleaned soup))
        /\ name_candidates r = extract_name_candidates (cleaned soup)
        /\ (notes r = [NO_CONTACT_NOTE]
            <-> socials r = [] /\ emails r = [] /\ phones r = [])
        /\ (notes r = [] \/ notes r = [NO_CONTACT_NOTE])
  end.
Proof.
  destruct (extract_socials soup final) as [found | e] eqn:E.
  - eexists. split; [exact (extract_all_returns _ _ E) |].
    cbn [url socials emails phones name_candidates notes].
    do 5 (split; [reflexivity |]).
    destruct (fst (extract_emails soup)) as [| x em];
      destruct (fst (extract_phones (cleaned soup))) as [| p ph];
      destruct found as [| u found];
      (split; [split; [intros Hn; try discriminate Hn; now repeat split
                      | intros [H1 [H2 H3]]; try discriminate; reflexivity]
              | first [now left | now right]]).
  - exact (extract_all_raises _ _ E).
Qed.

End PipelineFacts.

(* ----------------------------------------------------------------- *)
(** *** Cutting the scheme and the query off a link *)

Lemma split_once_cut (sep : char) (s cur : str) :
  In sep s ->
  exists before after,
    s = before ++ sep :: after
    /\ ~ In sep before
    /\ split_once_aux sep s cur = [rev cur ++ before; after].
Proof.
  revert cur. induction s as [| c s IH]; intros cur Hin; [contradiction |].
  cbn [split_once_aux]. destruct (N.eqb_spec c sep) as [-> | Hne].
  - exists [], s. rewrite app_nil_r. repeat split. intros [].
  - destruct Hin as [-> | Hin]; [contradiction |].
    destruct (IH (c :: cur) Hin) as [before [after [-> [Hno Hsplit]]]].
    exists (c :: before), after. repeat split.
    + intros [-> | Hb]; [contradiction | now apply Hno].
    + rewrite Hsplit. cbn [rev]. now rewrite <- app_assoc.
Qed.

Lemma split_on_first (sep : char) (s cur : str) :
  exists first rest parts,
    split_on_aux sep s cur = (rev cur ++ first) :: parts
    /\ s = first ++ rest
    /\ ~ In sep first
    /\ (rest = [] \/ exists r, rest = sep :: r).
Proof.
  revert cur. induction s as [| c s IH]; intros cur; cbn [split_on_aux].
  - exists [], [], []. rewrite app_nil_r. repeat split; [intros [] | now left].
  - destruct (N.eqb_spec c sep) as [-> | Hne].
    + exists [], (sep :: s), (split_on_aux sep s []). rewrite app_nil_r.
      repeat split; [intros [] | right; now exists s].
    + destruct (IH (c :: cur)) as [first [rest [parts [Hsplit [-> [Hno Hrest]]]]]].
      exists (c :: first), rest, parts. repeat split; try assumption.
      * rewrite Hsplit. cbn [rev]. now rewrite <- app_assoc.
      * intros [-> | Hf]; [contradiction | now apply Hno].
Qed.

Section LinkFacts.

Context `{PyRuntime}.

(** X12.  Behind the test on the scheme, the href is what stands before
    its first colon, the colon, the string the extractors go on with,
    and a rest that is empty or starts at the first question mark after
    the colon: no question mark is in the string, both indices of
    [href.split(':', 1)[1].split('?')[0]] are in range. *)
Theorem link_is_cut_at_colon_and_query (scheme href : str) :
  In (ch ":") scheme ->
  startswith scheme (lower href) = true ->
  exists before rest,
    href = before ++ ch ":" :: after_scheme href ++ rest
    /\ ~ In (ch ":") before
    /\ ~ In (ch "?") (after_scheme href)
    /\ (rest = [] \/ exists r, rest = ch "?" :: r)
    /\ exists after, split_once (ch ":") href = [before; after].
Proof.
  intros Hcolon Hstarts.
  assert (Hin : In (ch ":") href).
  { apply lower_colon. exact (startswith_In _ _ _ Hstarts Hcolon). }
  destruct (split_once_cut (ch ":") href [] Hin)
    as [before [after [Hhref [Hno Hsplit]]]].
  destruct (split_on_first (ch "?") after [])
    as [first [rest [parts [Hparts [Hafter [Hnoq Hrest]]]]]].
  cbn [rev app] in Hsplit, Hparts.
  assert (Hcut : after_scheme href = first).
  { unfold after_scheme, split_once, split_on. rewrite Hsplit. cbn [nth].
    now rewrite Hparts. }
  exists before, rest. rewrite Hcut. repeat split; try assumption.
  - now rewrite <- Hafter.
  - now exists after.
Qed.

End LinkFacts.

Lemma link_is_cut_at_colon_and_query_witness :
  after_scheme (py "Tel:+14155552671?x=1") = py "+14155552671"
  /\ exists before rest,
       py "Tel:+14155552671?x=1"
       = before ++ ch ":" :: after_scheme (py "Tel:+14155552671?x=1") ++ rest
       /\ ~ In (ch ":") before
       /\ ~ In (ch "?") (after_scheme (py "Tel:+14155552671?x=1"))
       /\ (rest = [] \/ exists r, rest = ch "?" :: r)
       /\ exists after,
            split_once (ch ":") (py "Tel:+14155552671?x=1") = [before; after].
Proof.
  split; [reflexivity |].
  apply (link_is_cut_at_colon_and_query (py "tel:")).
  - vm_compute. tauto.
  - reflexivity.
Defined.

(* ----------------------------------------------------------------- *)
(** *** The batch of [crawl.py] *)

Section BatchFacts.

Context `{PyRuntime}.

Variable fetch_soup : str -> Result (node * str).

Lemma crawl_loop_records (urls : list str) :
  forall results, exists recs,
    fold_left (crawl_one fetch_soup) urls results = results ++ recs
    /\ Forall2 (fun u rec =>
                  match fetch_soup u with
                  | Return page =>
                      match fst (crawl_url (fst page) (snd page)) with
                      | Return res => rec = Crawled res
                      | Raise e => rec = Failed u e
                      end
                  | Raise e => rec = Failed u e
                  end) urls recs.
Proof.
  induction urls as [| u urls IH]; intros results; cbn [fold_left].
  - exists []. now rewrite app_nil_r.
  - destruct (IH (crawl_one fetch_soup results u)) as [recs [E Hrecs]].
    unfold crawl_one, try_except, crawl_request, bind in E.
    unfold crawl_one, try_except, crawl_request, bind.
    destruct (fetch_soup u) as [page | e] eqn:Eu;
      [destruct (fst (crawl_url (fst page) (snd page))) as [res | e] eqn:Ec |];
      eexists;
      (split; [rewrite E, <- app_assoc; reflexivity |]);
      (constructor; [rewrite Eu, ?Ec; reflexivity | exact Hrecs]).
Qed.

Lemma collect_urls_file (lines : list str) :
  Forall (fun u => u <> [] /\ strip u = u)
    (flat_map (fun l => match strip l with [] => [] | u => [u] end) lines).
Proof.
  induction lines as [| l lines IH]; cbn [flat_map]; [constructor |].
  apply Forall_app. split; [| exact IH].
  destruct (strip l) as [| c u] eqn:E; constructor; [| constructor].
  split; [discriminate |]. rewrite <- E. apply strip_idempotent.
Qed.

(** X13.  [main] stops before any request exactly when the input file
    and the command line give no URL.  Otherwise the list it writes has
    one record for each URL, in the order of the URLs: the record
    [crawl_url] returned, or the requested URL with the message of the
    exception, be it raised by the fetch or by the extraction; a URL that
    fails stops nothing.  The URLs of the file are its stripped non-blank
    lines; those of the command line follow them as they are. *)
Theorem batch_has_one_record_per_url (input_lines : option (list str))
    (args_urls : list str) :
  (main fetch_soup input_lines args_urls = None
   <-> collect_urls input_lines args_urls = [])
  /\ (forall results,
        main fetch_soup input_lines args_urls = Some results ->
        Forall2 (fun u rec =>
                   match fetch_soup u with
                   | Return page =>
                       match fst (crawl_url (fst page) (snd page)) with
                       | Return res => rec = Crawled res
                       | Raise e => rec = Failed u e
                       end
                   | Raise e => rec = Failed u e
                   end) (collect_urls input_lines args_urls) results)
  /\ exists from_file,
       collect_urls input_lines args_urls = from_file ++ args_urls
       /\ Forall (fun u => u <> [] /\ strip u = u) from_file
       /\ (input_lines = None -> from_file = []).
Proof.
  split; [| split].
  - unfold main. destruct (collect_urls input_lines args_urls);
      split; congruence.
  - intros results Hmain. unfold main in Hmain.
    destruct (collect_urls input_lines args_urls) as [| u urls] eqn:E;
      [discriminate |].
    injection Hmain as <-.
    destruct (crawl_loop_records (u :: urls) []) as [recs [Hfold Hrecs]].
    cbn [fold_left] in Hfold |- *. rewrite Hfold. exact Hrecs.
  - unfold collect_urls. destruct input_lines as [lines |].
    + eexists. split; [reflexivity |]. split; [apply collect_urls_file |].
      discriminate.
    + exists []. repeat split. constructor.
Qed.

End BatchFacts.

Lemma batch_has_one_record_per_url_witness :
  main BatchExample.fetch_known
    (Some [py "  http://a.example/  "; py "   "; py "http://b.example/"])
    [py "http://c.example/"]
  = Some [Crawled {| url := py "http://a.example/home"; socials := [];
                     emails := [py "a@b.com"; py "c@d.org"]; phones := [];
                     name_candidates := []; notes := [] |};
          Failed (py "http://b.example/") (py "Invalid IPv6 URL");
          Failed (py "http://c.example/") (py "404 Client Error")]
  /\ length (collect_urls
               (Some [py "  http://a.example/  "; py "   ";
                      py "http://b.example/"])
               [py "http://c.example/"]) = 3.
Proof.
  split; [vm_compute; reflexivity |].
  destruct (batch_has_one_record_per_url BatchExample.fetch_known
              (Some [py "  http://a.example/  "; py "   ";
                     py "http://b.example/"])
              [py "http://c.example/"]) as [_ [Hrecords _]].
  specialize (Hrecords _ eq_refl).
  apply Forall2_length in Hrecords. exact Hrecords.
Defined.

(* ----------------------------------------------------------------- *)
(** *** The shape of what the phone pattern matches *)

Lemma matches_seq_inv (a b : re) (m : str) :
  matches (Seq a b) m ->
  exists m1 m2, m = m1 ++ m2 /\ matches a m1 /\ matches b m2.
Proof. intros Hm. inversion Hm; subst. eauto. Qed.

Lemma matches_opt_inv (a : re) (m : str) :
  matches (Opt a) m -> m = [] \/ matches a m.
Proof. intros Hm. inversion Hm; subst; auto. Qed.

Lemma matches_rep_inv (cls : char -> bool) (lo : nat) (hi : option nat)
    (m : str) :
  matches (Rep cls lo hi) m ->
  forallb cls m = true /\ lo <= length m
  /\ match hi with Some h => length m <= h | None => True end.
Proof. intros Hm. inversion Hm; subst. auto. Qed.

Lemma matches_one (cls : char -> bool) (m : str) :
  matches (Rep cls 1 (Some 1)) m -> exists c, m = [c] /\ cls c = true.
Proof.
  intros Hm. apply matches_rep_inv in Hm. destruct Hm as [Hall [Hlo Hhi]].
  destruct m as [| c [| d m]]; simpl in *; try lia.
  exists c. rewrite andb_true_r in Hall. now split.
Qed.

Lemma re_search_sound (r : re) (s m : str) :
  re_search r s = Some m -> matches r m.
Proof.
  induction s as [| c s IH]; cbn [re_search];
    destruct (re_match r _) as [m0 |] eqn:E; intros Hm;
    try discriminate; try (injection Hm as <-; now apply re_match_sound in E).
  now apply IH.
Qed.

(** A string that neither starts nor ends with white space is its own
    [strip]. *)
Lemma strip_fixed (c d : char) (t pre : str) :
  isspace c = false -> isspace d = false ->
  c :: t = pre ++ [d] -> strip (c :: t) = c :: t.
Proof.
  intros Hc Hd Heq. unfold strip, rstrip. rewrite Heq at 1.
  rewrite rev_app_distr. cbn [rev app lstrip]. rewrite Hd.
  change (d :: rev pre) with (rev [d] ++ rev pre).
  rewrite <- rev_app_distr, rev_involutive, <- Heq. cbn [lstrip].
  now rewrite Hc.
Qed.

Section PhoneShape.

Context `{PyRuntime}.

Lemma decimal_not_space (c : char) : isdecimal c = true -> isspace c = false.
Proof.
  intros Hd. destruct (isspace c) eqn:E; [| reflexivity].
  rewrite (space_not_decimal c E) in Hd. discriminate Hd.
Qed.

(** What [PHONE_RE] matches starts with a plus sign, an opening
    parenthesis or a digit, ends with a digit and has eight characters or
    more. *)
Lemma phone_matches_shaped (m : str) :
  matches PHONE_RE m ->
  8 <= length m
  /\ (exists c t, m = c :: t /\ isspace c = false)
  /\ exists pre d, m = pre ++ [d] /\ isdecimal d = true.
Proof.
  unfold PHONE_RE. intros Hm.
  apply matches_seq_inv in Hm. destruct Hm as [o1 [r1 [-> [Ho1 Hm]]]].
  apply matches_seq_inv in Hm. destruct Hm as [o2 [r2 [-> [Ho2 Hm]]]].
  apply matches_seq_inv in Hm. destruct Hm as [x [r3 [-> [Hx Hm]]]].
  apply matches_seq_inv in Hm. destruct Hm as [body [y [-> [Hbody Hy]]]].
  apply matches_one in Hx. destruct Hx as [d1 [-> Hd1]].
  apply matches_one in Hy. destruct Hy as [d2 [-> Hd2]].
  apply matches_rep_inv in Hbody. destruct Hbody as [_ [Hlen _]].
  split; [rewrite !length_app; simpl; lia |]. split.
  - apply matches_opt_inv in Ho1. destruct Ho1 as [-> | Ho1].
    + apply matches_opt_inv in Ho2. destruct Ho2 as [-> | Ho2].
      * exists d1. eexists. split; [reflexivity | now apply decimal_not_space].
      * apply matches_seq_inv in Ho2.
        destruct Ho2 as [p [r [-> [Hp Ho2]]]].
        apply matches_seq_inv in Ho2.
        destruct Ho2 as [dd [r' [-> [Hdd _]]]].
        apply matches_rep_inv in Hp. destruct Hp as [Hpall _].
        apply matches_rep_inv in Hdd. destruct Hdd as [Hddall [Hddlen _]].
        destruct p as [| c p].
        -- destruct dd as [| c dd]; [simpl in Hddlen; lia |].
           simpl in Hddall. apply andb_prop in Hddall.
           exists c. eexists. split; [reflexivity |].
           now apply decimal_not_space.
        -- cbn [forallb] in Hpall. apply andb_prop in Hpall.
           destruct Hpall as [Hc _]. apply N.eqb_eq in Hc. subst c.
           eexists. eexists. split; [reflexivity | reflexivity].
    + apply matches_seq_inv in Ho1. destruct Ho1 as [plus [r [-> [Hplus _]]]].
      apply lit_matches in Hplus. subst plus.
      eexists. eexists. split; [reflexivity | reflexivity].
  - exists (o1 ++ o2 ++ [d1] ++ body), d2. split; [| exact Hd2].
    now rewrite <- !app_assoc.
Qed.

(** X14.  What [extract_phones] takes from a fragment of text is the
    first match of the phone pattern as it stands: the match has eight
    characters or more, ends with a digit, and stripping it changes
    nothing. *)
Theorem phone_match_is_already_stripped (txt whole : str) :
  re_search PHONE_RE txt = Some whole ->
  strip whole = whole
  /\ 8 <= length whole
  /\ exists pre d, whole = pre ++ [d] /\ isdecimal d = true.
Proof.
  intros Hs. apply re_search_sound, phone_matches_shaped in Hs.
  destruct Hs as [Hlen [[c [t [-> Hc]]] [pre [d [Heq Hd]]]]].
  split; [| split; [exact Hlen | now exists pre, d]].
  apply (strip_fixed _ _ Hc (decimal_not_space d Hd) Heq).
Qed.

End PhoneShape.

Lemma phone_match_is_already_stripped_witness :
  strip (py "+1 (415) 555-2671") = py "+1 (415) 555-2671"
  /\ 8 <= length (py "+1 (415) 555-2671")
  /\ exists pre d, py "+1 (415) 555-2671" = pre ++ [d] /\ isdecimal d = true.
Proof.
  apply (phone_match_is_already_stripped (py "Call +1 (415) 555-2671 now")).
  reflexivity.
Defined.

(* ----------------------------------------------------------------- *)
(** *** Ranking what is ranked *)

Lemma sorted_by_confidence_fixed (l : list NameCandidate) :
  StronglySorted conf_ge l -> sorted_by_confidence l = l.
Proof.
  induction 1 as [| c l Hs IH Hc]; [reflexivity |].
  cbn [sorted_by_confidence]. rewrite IH.
  destruct l as [| d l]; [reflexivity |].
  cbn [insert_by_confidence]. inversion Hc as [| ? ? Hd _]; subst.
  unfold conf_ge in Hd.
  destruct (Z.ltb_spec (confidence c) (confidence d)); [lia | reflexivity].
Qed.

Lemma dedupe_names_fixed (cs : list NameCandidate) :
  forall seen out,
    NoDup (map normalized_name cs) ->
    ~ In [] (map normalized_name cs) ->
    (forall n, In n seen -> ~ In n (map normalized_name cs)) ->
    dedupe_names cs seen out = out ++ cs.
Proof.
  induction cs as [| c cs IH]; intros seen out Hnd Hne Hseen;
    cbn [dedupe_names]; [now rewrite app_nil_r |].
  cbn [map] in Hnd, Hne, Hseen. inversion Hnd as [| ? ? Hc Hnd']; subst.
  replace (str_eqb (normalized_name c) []) with false.
  2: { symmetry. apply str_eqb_neq. intros E. apply Hne. left. now symmetry. }
  replace (mem (normalized_name c) seen) with false.
  2: { symmetry. apply mem_not_In. intros Hin. apply (Hseen _ Hin). now left. }
  cbn [orb]. rewrite IH, <- app_assoc; [reflexivity | exact Hnd' | |].
  - intros Hin. apply Hne. now right.
  - intros n [<- | Hn]; [exact Hc |].
    intros Hin. apply (Hseen n Hn). now right.
Qed.

(** X15.  Ranking is idempotent: the output of the ranking, ranked
    again, comes back as it is. *)
Theorem ranking_is_idempotent (raw : list NameCandidate) :
  rank_candidates (rank_candidates raw) = rank_candidates raw.
Proof.
  destruct (rank_candidates_spec raw) as [Hsorted [Hnd [Hkept _]]].
  unfold rank_candidates at 1.
  rewrite (sorted_by_confidence_fixed Hsorted).
  apply (dedupe_names_fixed _ [] [] Hnd).
  - intros Hin. apply in_map_iff in Hin. destruct Hin as [c [Hc Hin]].
    now destruct (Hkept c Hin).
  - intros n [].
Qed.

(* ----------------------------------------------------------------- *)
(** *** Running the extraction again *)

Lemma skin_extract_tags (names : list str) (n : node) :
  skin (extract_tags names n) = skin n.
Proof. destruct n; reflexivity. Qed.

Lemma skin_extract_comments (n : node) : skin (extract_comments n) = skin n.
Proof. destruct n; reflexivity. Qed.

Lemma existsb_map_skin (f : node -> bool) (ps : list node) :
  (forall n, f (skin n) = f n) ->
  existsb f (map skin ps) = existsb f ps.
Proof.
  intros Hf. induction ps as [| p ps IH]; cbn [map existsb]; [reflexivity |].
  now rewrite Hf, IH.
Qed.

Lemma map_outline_filter (p : loc -> bool) (l : list loc) :
  (forall x, p (outline x) = p x) ->
  map outline (filter p l) = filter p (map outline l).
Proof.
  intros Hp. induction l as [| x l IH]; cbn [map filter]; [reflexivity |].
  rewrite Hp. destruct (p x); cbn [map]; now rewrite IH.
Qed.

(** The marks lie on the descendants, in their order. *)
Lemma marked_from_locs (names : list str) (n : node) :
  forall inside ps,
    map fst (marked_from names inside ps n) = descendants_from ps n.
Proof.
  induction n as [nm a cs IH | s | s] using node_forall_ind;
    intros inside ps; try reflexivity.
  cbn [marked_from descendants_from].
  remember (Tag nm a cs :: ps) as qs eqn:Eqs. clear Eqs.
  induction IH as [| c cs Hc _ IHcs]; cbn [flat_map]; [reflexivity |].
  rewrite map_app. cbn [map fst]. now rewrite Hc, IHcs.
Qed.

(** Inside a tag named in [names] every node is marked. *)
Lemma marked_from_inside (names : list str) (n : node) :
  forall ps,
    filter (fun x => negb (snd x)) (marked_from names true ps n) = [].
Proof.
  induction n as [nm a cs IH | s | s] using node_forall_ind;
    intros ps; try reflexivity.
  cbn [marked_from orb].
  remember (Tag nm a cs :: ps) as qs eqn:Eqs. clear Eqs.
  induction IH as [| c cs Hc _ IHcs]; cbn [flat_map]; [reflexivity |].
  rewrite filter_app. cbn [filter snd negb]. now rewrite Hc, IHcs.
Qed.

(** A mark tells of a tag named in [names] at the node or between the
    node and [n]. *)
Lemma marked_from_path (names : list str) (n : node) :
  forall inside ps x,
    In x (marked_from names inside ps n) ->
    exists chain,
      parents (fst x) = chain ++ n :: ps
      /\ (snd x = true ->
          inside = true
          \/ existsb (named_in names) (here (fst x) :: chain) = true).
Proof.
  induction n as [nm a cs IH | s | s] using node_forall_ind;
    intros inside ps x Hin; try contradiction.
  cbn [marked_from] in Hin. apply in_flat_map in Hin.
  destruct Hin as [c [Hc [<- | Hin]]].
  - exists []. split; [reflexivity |]. cbn [fst snd here existsb].
    intros Hm. apply orb_prop in Hm. rewrite orb_false_r. exact Hm.
  - rewrite Forall_forall in IH.
    destruct (IH c Hc _ _ _ Hin) as [chain [Hchain Hmark]].
    exists (chain ++ [c]). split; [now rewrite <- app_assoc |].
    intros Hm. cbn [existsb]. rewrite existsb_app. cbn [existsb].
    destruct (Hmark Hm) as [Hi | Hi].
    + apply orb_prop in Hi. destruct Hi as [Hi | Hi]; [now left |].
      right. rewrite Hi. now rewrite !orb_true_r.
    + right. cbn [existsb] in Hi. apply orb_prop in Hi.
      destruct Hi as [Hi | Hi]; rewrite Hi; [reflexivity |].
      now rewrite orb_true_r.
Qed.

(** What is left below a node when the tags named in [names] are taken
    out: the descendants without a mark, each in its place. *)
Lemma extract_tags_outline (names : list str) (n : node) :
  forall ps ps',
    map skin ps' = map skin ps ->
    map outline (descendants_from ps' (extract_tags names n))
    = map outline
        (map fst (filter (fun x => negb (snd x))
                    (marked_from names false ps n))).
Proof.
  induction n as [nm a cs IH | s | s] using node_forall_ind;
    intros ps ps' Hps; try reflexivity.
  cbn [extract_tags descendants_from marked_from orb].
  assert (Hqs : map skin
                  (Tag nm a (flat_map (fun c => if named_in names c then []
                                                else [extract_tags names c]) cs)
                   :: ps')
                = map skin (Tag nm a cs :: ps)).
  { cbn [map skin]. now rewrite Hps. }
  remember (Tag nm a (flat_map (fun c => if named_in names c then []
                                         else [extract_tags names c]) cs)
            :: ps') as qs' eqn:Eqs'.
  remember (Tag nm a cs :: ps) as qs eqn:Eqs. clear Eqs Eqs' Hps.
  induction IH as [| c cs Hc _ IHcs]; cbn [flat_map]; [reflexivity |].
  rewrite filter_app. cbn [filter snd].
  destruct (named_in names c) eqn:En; cbn [negb app].
  - rewrite marked_from_inside. exact IHcs.
  - cbn [flat_map app map fst]. rewrite !map_app.
    rewrite (Hc qs qs' Hqs), IHcs.
    replace (outline {| here := extract_tags names c; parents := qs' |})
      with (outline {| here := c; parents := qs |}); [reflexivity |].
    unfold outline. cbn [here parents].
    now rewrite skin_extract_tags, Hqs.
Qed.

(** What is left below a node when the comments are taken out. *)
Lemma extract_comments_outline (n : node) :
  forall ps ps',
    map skin ps' = map skin ps ->
    map outline (descendants_from ps' (extract_comments n))
    = map outline
        (filter (fun l => negb (is_comment (here l))) (descendants_from ps n)).
Proof.
  induction n as [nm a cs IH | s | s] using node_forall_ind;
    intros ps ps' Hps; try reflexivity.
  cbn [extract_comments descendants_from].
  assert (Hqs : map skin
                  (Tag nm a (flat_map (fun c => if is_comment c then []
                                                else [extract_comments c]) cs)
                   :: ps')
                = map skin (Tag nm a cs :: ps)).
  { cbn [map skin]. now rewrite Hps. }
  remember (Tag nm a (flat_map (fun c => if is_comment c then []
                                         else [extract_comments c]) cs)
            :: ps') as qs' eqn:Eqs'.
  remember (Tag nm a cs :: ps) as qs eqn:Eqs. clear Eqs Eqs' Hps.
  induction IH as [| c cs Hc _ IHcs]; cbn [flat_map]; [reflexivity |].
  rewrite filter_app. cbn [filter here].
  destruct (is_comment c) eqn:Ec; cbn [negb app].
  - destruct c as [nm' a' cs' | s | s]; try discriminate Ec. exact IHcs.
  - cbn [flat_map app map]. rewrite !map_app.
    rewrite (Hc qs qs' Hqs), IHcs.
    replace (outline {| here := extract_comments c; parents := qs' |})
      with (outline {| here := c; parents := qs |}); [reflexivity |].
    unfold outline. cbn [here parents].
    now rewrite skin_extract_comments, Hqs.
Qed.

(** The tags named [nm] that [_visible_texts] leaves in the soup. *)
Lemma cleaned_find_all (nm : str) (soup : node) :
  map outline (find_all nm (cleaned soup))
  = map outline
      (filter (fun l => named nm (here l))
         (map fst (filter (fun x => negb (snd x))
                     (marked_from REMOVED_TAGS false [] soup)))).
Proof.
  assert (Hnamed : forall x, named nm (here (outline x)) = named nm (here x))
    by (intros [[] ?]; reflexivity).
  assert (Hcomment : forall x : loc,
            negb (is_comment (here (outline x))) = negb (is_comment (here x)))
    by (intros [[] ?]; reflexivity).
  unfold find_all, cleaned, descendants.
  rewrite !(map_outline_filter _ _ Hnamed).
  rewrite (extract_comments_outline _ [] [] eq_refl).
  rewrite (map_outline_filter _ _ Hcomment).
  rewrite (extract_tags_outline REMOVED_TAGS soup [] [] eq_refl).
  rewrite filter_filter. apply filter_ext. intros [[] ?]; reflexivity.
Qed.

Section RerunFacts.

Context `{PyRuntime}.

Lemma is_hidden_outline (l : loc) :
  _is_hidden (Some (outline l)) = _is_hidden (Some l).
Proof.
  destruct l as [n ps]. unfold _is_hidden, outline. cbn [here parents].
  rewrite existsb_map_skin by (intros []; reflexivity).
  now destruct n.
Qed.

Lemma social_of_outline (base_url : str) (l : loc) :
  social_of base_url (outline l) = social_of base_url l.
Proof. destruct l as [[] ps]; reflexivity. Qed.

Lemma mailto_step_outline (emails : list str) (l : loc) :
  mailto_step emails (outline l) = mailto_step emails l.
Proof.
  unfold mailto_step. rewrite is_hidden_outline.
  now destruct l as [[] ps].
Qed.

Lemma found_outline (base_url : str) (l1 l2 : list loc) :
  map outline l1 = map outline l2 ->
  collect (social_of base_url) l1 = collect (social_of base_url) l2.
Proof.
  revert l2. induction l1 as [| a l1 IH]; intros [| b l2] Heq;
    try discriminate Heq; [reflexivity |].
  cbn [map] in Heq.
  remember (outline a) as oa eqn:Ea. remember (outline b) as ob eqn:Eb.
  injection Heq as Hab Heq. subst oa ob. cbn [collect].
  rewrite <- (social_of_outline base_url a), Hab, social_of_outline.
  now rewrite (IH l2 Heq).
Qed.

Lemma mailto_loop_outline (l1 l2 : list loc) (emails : list str) :
  map outline l1 = map outline l2 ->
  fold_left mailto_step l1 emails = fold_left mailto_step l2 emails.
Proof.
  revert l2 emails. induction l1 as [| a l1 IH]; intros [| b l2] emails Heq;
    try discriminate Heq; [reflexivity |].
  cbn [map] in Heq.
  remember (outline a) as oa eqn:Ea. remember (outline b) as ob eqn:Eb.
  injection Heq as Hab Heq. subst oa ob. cbn [fold_left].
  rewrite <- (mailto_step_outline emails a), Hab, mailto_step_outline.
  now apply IH.
Qed.

(** Leaving out the marked anchors changes neither loop when they
    contribute nothing. *)
Lemma found_without_marked (base_url : str) (nm : str)
    (marked : list (loc * bool)) :
  (forall x, In x marked -> snd x = true -> named nm (here (fst x)) = true ->
             social_of base_url (fst x) = Return []) ->
  collect (social_of base_url)
    (filter (fun l => named nm (here l))
       (map fst (filter (fun x => negb (snd x)) marked)))
  = collect (social_of base_url)
      (filter (fun l => named nm (here l)) (map fst marked)).
Proof.
  induction marked as [| [l m] marked IH]; intros Hsilent; [reflexivity |].
  assert (IH' := IH (fun x Hx => Hsilent x (or_intror Hx))).
  cbn [map filter fst snd].
  destruct m; cbn [negb].
  - destruct (named nm (here l)) eqn:En; [| exact IH'].
    cbn [collect].
    pose proof (Hsilent (l, true) (or_introl eq_refl) eq_refl En) as Hl.
    cbn [fst] in Hl. rewrite Hl.
    cbn [bind app]. rewrite IH'. unfold bind.
    now destruct (collect (social_of base_url)
                    (filter (fun l => named nm (here l)) (map fst marked))).
  - cbn [map filter fst]. destruct (named nm (here l)); [| exact IH'].
    cbn [collect]. now rewrite IH'.
Qed.

Lemma mailto_loop_without_marked (nm : str) (marked : list (loc * bool)) :
  (forall x, In x marked -> snd x = true -> named nm (here (fst x)) = true ->
             forall emails, mailto_step emails (fst x) = emails) ->
  forall emails,
    fold_left mailto_step
      (filter (fun l => named nm (here l))
         (map fst (filter (fun x => negb (snd x)) marked))) emails
    = fold_left mailto_step
        (filter (fun l => named nm (here l)) (map fst marked)) emails.
Proof.
  induction marked as [| [l m] marked IH]; intros Hsilent emails;
    [reflexivity |].
  assert (IH' := IH (fun x Hx => Hsilent x (or_intror Hx))).
  cbn [map filter fst snd].
  destruct m; cbn [negb].
  - destruct (named nm (here l)) eqn:En; [| apply IH'].
    cbn [fold_left].
    pose proof (Hsilent (l, true) (or_introl eq_refl) eq_refl En) as Hl.
    cbn [fst] in Hl. rewrite Hl. apply IH'.
  - cbn [map filter fst]. destruct (named nm (here l)); [| apply IH'].
    cbn [fold_left]. apply IH'.
Qed.

(** The text the second run reads is the text the first run read. *)
Lemma visible_texts_cleaned (soup : node) :
  fst (_visible_texts (cleaned soup)) = fst (_visible_texts soup).
Proof.
  change (flat_map visible_fragment (find_all_text (cleaned (cleaned soup)))
          = flat_map visible_fragment (find_all_text (cleaned soup))).
  now rewrite cleaned_idempotent.
Qed.

(** An anchor [social_link] refuses appends nothing, once [urljoin] has
    returned for it. *)
Lemma social_of_refused (base_url : str) (a : loc) (ys : list str) :
  social_of base_url a = Return ys -> social_link a = None -> ys = [].
Proof.
  intros Hys Hno. rewrite (social_of_returns _ _ Hys).
  unfold resolved_link. now rewrite Hno.
Qed.

Lemma mailto_step_refused (emails : list str) (a : loc) :
  mailto_address a = None \/ _is_hidden (Some a) = true ->
  mailto_step emails a = emails.
Proof.
  unfold mailto_step, mailto_address.
  destruct (startswith (py "mailto:") _); [| reflexivity].
  destruct (re_match EMAIL_RE _); [| reflexivity].
  intros [Hno | Hhid]; [discriminate Hno |]. now rewrite Hhid.
Qed.

(** C1, as the code has it.  [extract_socials] and the loop over the mail
    links read the soup as it is given; [_visible_texts] then takes the
    script, style, noscript and iframe elements and the comments out of
    it, and a second run on the same soup reads the cleaned soup
    throughout.  When the first run raises, the soup is untouched and the
    second run is the first.  When it returns, the second run returns
    too, leaves the soup as the first left it, and agrees with the first
    on the URL, the phones and the name candidates; its record is that of
    the first run exactly when the social links and the e-mail addresses
    are the same, which they are when the two loops find in the cleaned
    soup what they found in the soup, as they do when no anchor inside a
    removed element is an accepted social link or a visible accepted mail
    link.  A third run is the second. *)
Theorem extraction_rerun (soup : node) (final : str) :
  let run1 := extract_all soup final in
  let run2 := extract_all (snd run1) final in
  let run3 := extract_all (snd run2) final in
  run3 = run2
  /\ match fst run1 with
     | Raise e => snd run1 = soup /\ run2 = run1
     | Return r1 =>
         snd run1 = cleaned soup
         /\ extract_socials soup final = Return (socials r1)
         /\ emails r1 = fst (extract_emails soup)
         /\ exists r2,
              run2 = (Return r2, cleaned soup)
              /\ extract_socials (cleaned soup) final = Return (socials r2)
              /\ emails r2 = fst (extract_emails (cleaned soup))
              /\ url r2 = url r1
              /\ phones r2 = phones r1
              /\ name_candidates r2 = name_candidates r1
              /\ (r2 = r1 <-> socials r2 = socials r1 /\ emails r2 = emails r1)
              /\ (socials r2 = socials r1 ->
                  fold_left mailto_step (find_all (py "a") (cleaned soup)) []
                  = fold_left mailto_step (find_all (py "a") soup) [] ->
                  r2 = r1)
              /\ ((forall a,
                     In a (find_all (py "a") soup) ->
                     in_removed a = true ->
                     social_link a = None
                     /\ (mailto_address a = None
                         \/ _is_hidden (Some a) = true)) ->
                  r2 = r1)
     end.
Proof.
  cbv zeta.
  destruct (extract_socials soup final) as [found1 | e] eqn:E1.
  2:{ rewrite (extract_all_raises _ _ E1). cbn [fst snd].
      rewrite (extract_all_raises _ _ E1). cbn [snd].
      rewrite (extract_all_raises _ _ E1). repeat split. }
  set (marked := marked_from REMOVED_TAGS false [] soup).
  assert (Hanchors : find_all (py "a") soup
                     = filter (fun l => named (py "a") (here l))
                         (map fst marked)).
  { unfold find_all, descendants, marked. now rewrite marked_from_locs. }
  assert (Hkept := cleaned_find_all (py "a") soup). fold marked in Hkept.
  assert (E2 : exists found2, extract_socials (cleaned soup) final
                              = Return found2).
  { unfold extract_socials in E1 |- *. unfold bind in E1 |- *.
    destruct (collect (social_of final) (find_all (py "a") soup))
      as [f1 |] eqn:C1; [| discriminate E1].
    rewrite (found_outline final _ _ Hkept).
    destruct (collect_returns (social_of final)
                (filter (fun l => named (py "a") (here l))
                   (map fst (filter (fun x => negb (snd x)) marked))))
      as [f2 ->]; [| now eexists].
    intros a Ha. apply (collect_returns_each _ _ C1). rewrite Hanchors.
    apply filter_In in Ha. destruct Ha as [Ha Hnamed].
    apply filter_In. split; [| exact Hnamed].
    apply in_map_iff in Ha. destruct Ha as [x [<- Hx]].
    apply filter_In in Hx. apply in_map. tauto. }
  destruct E2 as [found2 E2].
  rewrite (extract_all_returns _ _ E1). cbn [fst snd].
  rewrite (extract_all_returns _ _ E2). cbn [snd].
  rewrite !cleaned_idempotent.
  rewrite (extract_all_returns _ _ E2). rewrite !cleaned_idempotent.
  split; [reflexivity |].
  cbn [socials emails url phones name_candidates].
  do 3 (split; [reflexivity |]).
  eexists. split; [reflexivity |].
  cbn [socials emails url phones name_candidates].
  split; [exact E2 |]. do 4 (split; [reflexivity |]).
  assert (Hsame : found2 = found1 ->
                  fst (extract_emails (cleaned soup)) = fst (extract_emails soup) ->
                  {| url := final; socials := found2;
                     emails := fst (extract_emails (cleaned soup));
                     phones := fst (extract_phones (cleaned soup));
                     name_candidates := extract_name_candidates (cleaned soup);
                     notes := match fst (extract_emails (cleaned soup)),
                                    fst (extract_phones (cleaned soup)),
                                    found2 with
                              | [], [], [] => [NO_CONTACT_NOTE]
                              | _, _, _ => []
                              end |}
                  = {| url := final; socials := found1;
                       emails := fst (extract_emails soup);
                       phones := fst (extract_phones (cleaned soup));
                       name_candidates := extract_name_candidates (cleaned soup);
                       notes := match fst (extract_emails soup),
                                      fst (extract_phones (cleaned soup)),
                                      found1 with
                                | [], [], [] => [NO_CONTACT_NOTE]
                                | _, _, _ => []
                                end |}).
  { intros -> ->. reflexivity. }
  assert (Hloop : fold_left mailto_step (find_all (py "a") (cleaned soup)) []
                  = fold_left mailto_step (find_all (py "a") soup) [] ->
                  fst (extract_emails (cleaned soup))
                  = fst (extract_emails soup)).
  { intros Hl. rewrite !extract_emails_parts, Hl.
    now rewrite visible_texts_cleaned. }
  split; [| split].
  - split.
    + intros Heq. split; [exact (f_equal socials Heq) | exact (f_equal emails Heq)].
    + intros [Hs He]. now apply Hsame.
  - intros Hs Hl. apply Hsame; [exact Hs | now apply Hloop].
  - intros Hsilent.
    assert (Hmarked : forall x, In x marked -> snd x = true ->
                        named (py "a") (here (fst x)) = true ->
                        In (fst x) (find_all (py "a") soup)
                        /\ in_removed (fst x) = true).
    { intros x Hx Hm Hnamed. split.
      - rewrite Hanchors. apply filter_In. split; [now apply in_map | exact Hnamed].
      - destruct (marked_from_path _ _ _ _ _ Hx) as [chain [Hchain Hmark]].
        unfold in_removed. rewrite Hchain.
        change (chain ++ [soup]) with (chain ++ [soup]).
        rewrite removelast_last.
        destruct (Hmark Hm) as [Hi | Hi]; [discriminate Hi | exact Hi]. }
    apply Hsame.
    + unfold extract_socials, bind in E1, E2.
      destruct (collect (social_of final) (find_all (py "a") soup))
        as [f1 |] eqn:C1; [| discriminate E1].
      rewrite (found_outline final _ _ Hkept) in E2.
      rewrite (found_without_marked final (py "a") marked) in E2.
      * rewrite <- Hanchors, C1 in E2. congruence.
      * intros x Hx Hm Hnamed.
        destruct (Hmarked x Hx Hm Hnamed) as [Hin Hrem].
        destruct (collect_returns_each _ _ C1 _ Hin) as [ys Hys].
        rewrite Hys. f_equal.
        apply (social_of_refused _ _ Hys).
        now apply Hsilent.
    + apply Hloop.
      rewrite (mailto_loop_outline _ _ [] Hkept).
      rewrite (mailto_loop_without_marked (py "a") marked).
      * now rewrite <- Hanchors.
      * intros x Hx Hm Hnamed emails.
        destruct (Hmarked x Hx Hm Hnamed) as [Hin Hrem].
        apply mailto_step_refused. now apply Hsilent.
Qed.

End RerunFacts.

(** C1 as it is written, at a concrete document: a mail link inside
    [noscript] is found by the first run and not by the second. *)
Lemma extraction_rerun_differs :
  let final := py "http://example.com/" in
  fst (extract_all Examples.noscript_page final)
  = Return {| url := final; socials := []; emails := [py "a@b.com"];
              phones := []; name_candidates := []; notes := [] |}
  /\ fst (extract_all (snd (extract_all Examples.noscript_page final)) final)
     = Return {| url := final; socials := []; emails := []; phones := [];
                 name_candidates := []; notes := [NO_CONTACT_NOTE] |}
  /\ fst (extract_all (snd (extract_all Examples.noscript_page final)) final)
     <> fst (extract_all Examples.noscript_page final).
Proof.
  intros final.
  assert (H1 : fst (extract_all Examples.noscript_page final)
               = Return {| url := final; socials := [];
                           emails := [py "a@b.com"]; phones := [];
                           name_candidates := []; notes := [] |})
    by (vm_compute; reflexivity).
  assert (H2 : fst (extract_all (snd (extract_all Examples.noscript_page final))
                      final)
               = Return {| url := final; socials := []; emails := [];
                           phones := []; name_candidates := [];
                           notes := [NO_CONTACT_NOTE] |})
    by (vm_compute; reflexivity).
  split; [exact H1 |]. split; [exact H2 |].
  rewrite H1, H2. discriminate.
Qed.

(** C1 at an ordinary page: a script, a comment and a plain link inside
    [noscript] are taken out by the first run, and the second run returns
    the record of the first. *)
Lemma extraction_rerun_witness :
  let soup := Examples.script_page in
  let final := py "http://example.com/" in
  nothing_to_remove soup = false
  /\ fst (extract_all soup final)
     = Return {| url := final; socials := [py "https://github.com/jane"];
                 emails := [py "a@b.com"];
                 phones := [{| original := py "+14155552671";
                               normalized := py "+14155552671" |}];
                 name_candidates := []; notes := [] |}
  /\ fst (extract_all (snd (extract_all soup final)) final)
     = fst (extract_all soup final).
Proof.
  intros soup final.
  assert (H1 : fst (extract_all soup final)
               = Return {| url := final;
                           socials := [py "https://github.com/jane"];
                           emails := [py "a@b.com"];
                           phones := [{| original := py "+14155552671";
                                         normalized := py "+14155552671" |}];
                           name_candidates := []; notes := [] |})
    by (vm_compute; reflexivity).
  split; [vm_compute; reflexivity |]. split; [exact H1 |].
  pose proof (extraction_rerun soup final) as Hrerun. cbv zeta in Hrerun.
  destruct Hrerun as [_ Hrerun]. rewrite H1 in Hrerun.
  destruct Hrerun as (_ & _ & _ & r2 & Hrun2 & _ & _ & _ & _ & _ & _ & _ & Hsilent).
  rewrite Hrun2, H1. cbn [fst]. f_equal. apply Hsilent.
  intros a Hin Hrem. vm_compute in Hin.
  destruct Hin as [<- | [<- | [<- | []]]];
    try (vm_compute in Hrem; discriminate Hrem).
  split; [vm_compute; reflexivity | left; vm_compute; reflexivity].
Defined.
